(** * Bounded subgraph sampling, path discovery and the tensor cache

    A shallow embedding of the algorithmic core of the repository:

    - [src/siwi/graph_backend/subgraph_sampler.py]  (class [SubgraphSampler])
    - [src/siwi/mvp_qa_system.py]                   (class [PathFinder])
    - [src/siwi/graph_backend/remote_backend.py]    (class [NebulaFeatureStore])

    Python dictionaries are finite maps ([gmap]) where only lookups matter
    and association lists where the iteration order is observable; Python
    sets are [gset]s; exceptions are an explicit error monad; the remote
    graph service is an arbitrary state machine answering queries. *)

From Stdlib Require Import ZArith.
From stdpp Require Import gmap strings list fin_maps.
From stdpp Require Import pretty.

(** ** Exceptions *)

(** The exceptions the modelled code can raise: Python's [IndexError]
    (list subscript out of range) and the client library's
    [InvalidValueTypeException] (an [as_xxx] accessor on a value of another
    type).  [Diverged] is no Python exception: it marks a loop of the model
    that has used up its fuel, and is shown never to occur. *)
Inductive exn : Type :=
| IndexError
| InvalidValueType
| Diverged.

Inductive result (A : Type) : Type :=
| Ok (a : A)
| Raise (e : exn).
Arguments Ok {A} a.
Arguments Raise {A} e.

#[global] Instance result_ret : MRet result := fun _ a => Ok a.
#[global] Instance result_bind : MBind result := fun _ _ f m =>
  match m with
  | Ok a => f a
  | Raise e => Raise e
  end.

(** [l[i]] for a non-negative subscript. *)
Definition subscript {A} (l : list A) (i : nat) : result A :=
  match l !! i with
  | Some a => Ok a
  | None => Raise IndexError
  end.

(** ** The remote graph service *)

Module Nebula.

(** Values held by the cells of a result set (the client's
    [ValueWrapper]), with the accessors the sampler calls on them.  A
    vertex carries its id and tag list, an edge its endpoints and name, the
    shape the sampler's bulk path assumes.  A double is kept as an opaque
    code of its value: no arithmetic is done on it. *)
#[warnings="-register-all"]
Inductive value : Type :=
| VEmpty
| VNull
| VInt (z : Z)
| VDouble (d : Z)
| VString (s : string)
| VList (vs : list value)
| VVertex (id : value) (tags : list string)
| VEdge (src dst : value) (name : string).

Definition is_empty (v : value) : bool :=
  match v with VEmpty => true | _ => false end.
Definition is_string (v : value) : bool :=
  match v with VString _ => true | _ => false end.
Definition is_double (v : value) : bool :=
  match v with VDouble _ => true | _ => false end.
Definition is_int (v : value) : bool :=
  match v with VInt _ => true | _ => false end.
Definition is_vertex (v : value) : bool :=
  match v with VVertex _ _ => true | _ => false end.
Definition is_edge (v : value) : bool :=
  match v with VEdge _ _ _ => true | _ => false end.

Definition as_string (v : value) : result string :=
  match v with VString s => Ok s | _ => Raise InvalidValueType end.
Definition as_list (v : value) : result (list value) :=
  match v with VList vs => Ok vs | _ => Raise InvalidValueType end.
Definition as_double (v : value) : result Z :=
  match v with VDouble d => Ok d | _ => Raise InvalidValueType end.
Definition as_int (v : value) : result Z :=
  match v with VInt z => Ok z | _ => Raise InvalidValueType end.

Definition row : Type := list value.

(** A result set: the success flag and the rows ([row_size] is their
    number, [row_values i] the [i]-th of them). *)
Record response : Type := Response {
  is_succeeded : bool;
  rows : list row
}.

Definition row_size (r : response) : nat := length (rows r).

(** The statements the sampler sends, by the parameters that are
    interpolated into their text. *)
Inductive query : Type :=
| Use (space_name : string)
| MatchLabels (vid : string)
| GoSteps (hop : Z) (center_vid : string)
| GetSubgraph (n_hops : Z) (center_vid : string)
| FetchProp (node_type : string) (batch_vids : list string).

End Nebula.

Import Nebula.

(** ** The subgraph sampler *)

(** The mutable fields of a [SubgraphSampler] object. *)
Record sampler : Type := Sampler {
  _vid_to_idx_map : gmap string nat;
  _idx_to_vid_map : list string;
  _edge_indices : gmap string (list (nat * nat));
  _node_types : gmap string string
}.

(** The state [sample_subgraph] starts from (its four resetting
    assignments). *)
Definition reset : sampler := Sampler ∅ [] ∅ ∅.

(** [_get_vid_idx]: the index of [vid], allocated on first sight. *)
Definition _get_vid_idx (self : sampler) (vid : string) : nat * sampler :=
  match _vid_to_idx_map self !! vid with
  | Some idx => (idx, self)
  | None =>
      let idx := length (_idx_to_vid_map self) in
      (idx, Sampler (<[vid := idx]> (_vid_to_idx_map self))
                    (_idx_to_vid_map self ++ [vid])
                    (_edge_indices self)
                    (_node_types self))
  end.

(** Successive calls of [_get_vid_idx] within one session. *)
Fixpoint get_vid_idx_seq (self : sampler) (vids : list string)
  : list nat * sampler :=
  match vids with
  | [] => ([], self)
  | vid :: rest =>
      let '(idx, self1) := _get_vid_idx self vid in
      let '(idxs, self2) := get_vid_idx_seq self1 rest in
      (idx :: idxs, self2)
  end.

(** The two halves of the registry are inverse to each other. *)
Definition registry_ok (self : sampler) : Prop :=
  ∀ vid idx,
    _vid_to_idx_map self !! vid = Some idx ↔
    _idx_to_vid_map self !! idx = Some vid.

(** A discovered edge [(src_vid, dst_vid, edge_type)]. *)
Definition edge : Type := string * string * string.

(** An insertion-ordered dictionary of lists, as built by
    [if k not in d: d[k] = []] followed by [d[k].append(x)]. *)
Fixpoint dict_append {A} (k : string) (x : A) (d : list (string * list A))
  : list (string * list A) :=
  match d with
  | [] => [(k, [x])]
  | (k', l) :: d' =>
      if decide (k = k') then (k', l ++ [x]) :: d'
      else (k', l) :: dict_append k x d'
  end.

Fixpoint dict_get {A} (k : string) (d : list (string * list A))
  : option (list A) :=
  match d with
  | [] => None
  | (k', l) :: d' => if decide (k = k') then Some l else dict_get k d'
  end.

(** The scalar stored under ['embedding']: [float(x)] of a double or of an
    integer cell, kept symbolic. *)
Inductive scalar : Type :=
| OfDouble (d : Z)
| OfInt (z : Z).

Record feature : Type := Feature {
  name : string;
  embedding : option scalar
}.

(** The dictionary returned by [sample_subgraph].  [edge_index] is the
    [2 x E] tensor, by columns. *)
Record subgraph : Type := Subgraph {
  center_node_idx : nat;
  edge_index : list (nat * nat);
  num_nodes : nat;
  vid_to_idx : gmap string nat;
  idx_to_vid : list string;
  node_types : gmap string string;
  edge_indices_by_type : gmap string (list (nat * nat));
  node_features : gmap string feature
}.

Definition set_node_type (self : sampler) (vid ty : string) : sampler :=
  Sampler (_vid_to_idx_map self) (_idx_to_vid_map self) (_edge_indices self)
          (<[vid := ty]> (_node_types self)).

(** The handling of the reply to a [labels(v)] query, written out twice in
    [_get_subgraph_using_go] (for the center and for each [dst]). *)
Definition record_labels (self : sampler) (vid : string) (resp : response)
  : result sampler :=
  if is_succeeded resp && bool_decide (0 < row_size resp) then
    row0 ← subscript (rows resp) 0;
    cell ← subscript row0 0;
    labels ← as_list cell;
    match labels with
    | [] => Ok self
    | l0 :: _ =>
        if is_empty l0 then Ok self
        else ty ← as_string l0; Ok (set_node_type self vid ty)
    end
  else Ok self.

(** [len(nodes) >= max_nodes] *)
Definition budget_reached (nodes : gset string) (max_nodes : Z) : bool :=
  bool_decide (max_nodes ≤ Z.of_nat (size nodes))%Z.

(** The accumulators of the two retrieval loops: the sampler's fields, the
    session, the [nodes] set and the [edges] list. *)
Record gathered (Session : Type) : Type := Gathered {
  g_self : sampler;
  g_session : Session;
  g_nodes : gset string;
  g_edges : list edge
}.
Arguments Gathered {Session} _ _ _ _.
Arguments g_self {Session} _.
Arguments g_session {Session} _.
Arguments g_nodes {Session} _.
Arguments g_edges {Session} _.

Section Sampling.

(** The remote end: a session answers each statement with a result set and
    moves to a new state.  Nothing is assumed about it. *)
Context {Session : Type} (execute : Session → query → response * Session).

(** The row loop of [_get_subgraph_using_go] (the body of
    [for i in range(resp.row_size())], with its [break]). *)
Fixpoint go_rows (max_nodes : Z) (rws : list row) (g : gathered Session)
  : result (gathered Session) :=
  match rws with
  | [] => Ok g
  | r :: rest =>
      c0 ← subscript r 0; src ← as_string c0;
      c1 ← subscript r 1; dst ← as_string c1;
      c2 ← subscript r 2; edge_type ← as_string c2;
      let nodes := {[dst]} ∪ ({[src]} ∪ g_nodes g) in
      let edges := g_edges g ++ [(src, dst, edge_type)] in
      g1 ← (if bool_decide (dst ∉ dom (_node_types (g_self g))) then
              let '(type_resp, session) :=
                execute (g_session g) (MatchLabels dst) in
              self ← record_labels (g_self g) dst type_resp;
              Ok (Gathered self session nodes edges)
            else Ok (Gathered (g_self g) (g_session g) nodes edges));
      if budget_reached (g_nodes g1) max_nodes then Ok g1
      else go_rows max_nodes rest g1
  end.

(** The hop loop of [_get_subgraph_using_go] over [range(1, n_hops + 1)]. *)
Fixpoint go_hops (center_vid : string) (max_nodes : Z) (hops : list Z)
    (g : gathered Session) : result (gathered Session) :=
  match hops with
  | [] => Ok g
  | hop :: rest =>
      let '(resp, session) := execute (g_session g) (GoSteps hop center_vid) in
      let g0 := Gathered (g_self g) session (g_nodes g) (g_edges g) in
      if is_succeeded resp then
        g1 ← go_rows max_nodes (rows resp) g0;
        if budget_reached (g_nodes g1) max_nodes then Ok g1
        else go_hops center_vid max_nodes rest g1
      else go_hops center_vid max_nodes rest g0
  end.

Definition _get_subgraph_using_go (self : sampler) (session : Session)
    (center_vid : string) (n_hops max_nodes : Z)
  : result (gathered Session) :=
  let '(resp, session) := execute session (MatchLabels center_vid) in
  self ← record_labels self center_vid resp;
  go_hops center_vid max_nodes (seqZ 1 n_hops)
          (Gathered self session {[center_vid]} []).

(** One row of the bulk reply: the vertex part, then the edge part. *)
Definition subgraph_row (r : row) (g : gathered Session)
  : result (gathered Session) :=
  c0 ← subscript r 0;
  g1 ← (if is_vertex c0 then
          match c0 with
          | VVertex id tags =>
              vid ← as_string id;
              node_type ← subscript tags 0;
              Ok (Gathered (set_node_type (g_self g) vid node_type)
                           (g_session g) ({[vid]} ∪ g_nodes g) (g_edges g))
          | _ => Ok g
          end
        else Ok g);
  if bool_decide (1 < length r) then
    c1 ← subscript r 1;
    match c1 with
    | VEdge s d edge_type =>
        src ← as_string s;
        dst ← as_string d;
        Ok (Gathered (g_self g1) (g_session g1)
                     ({[dst]} ∪ ({[src]} ∪ g_nodes g1))
                     (g_edges g1 ++ [(src, dst, edge_type)]))
    | _ => Ok g1
    end
  else Ok g1.

Fixpoint subgraph_rows (max_nodes : Z) (rws : list row) (g : gathered Session)
  : result (gathered Session) :=
  match rws with
  | [] => Ok g
  | r :: rest =>
      g1 ← subgraph_row r g;
      if budget_reached (g_nodes g1) max_nodes then Ok g1
      else subgraph_rows max_nodes rest g1
  end.

Definition _get_subgraph_using_subgraph (self : sampler) (session : Session)
    (center_vid : string) (n_hops max_nodes : Z)
  : result (gathered Session) :=
  let '(resp, session) := execute session (GetSubgraph n_hops center_vid) in
  let g0 := Gathered self session {[center_vid]} [] in
  if is_succeeded resp then subgraph_rows max_nodes (rows resp) g0
  else Ok g0.

(** The body of the edge loop of [_create_edge_index], on the sampler's
    fields and the local [edge_indices_by_type]. *)
Definition index_edge (bidirectional : bool)
    (acc : sampler * list (string * list (nat * nat))) (e : edge)
  : sampler * list (string * list (nat * nat)) :=
  let '(src_vid, dst_vid, edge_type) := e in
  let '(src_idx, self) := _get_vid_idx acc.1 src_vid in
  let '(dst_idx, self) := _get_vid_idx self dst_vid in
  let by_type := dict_append edge_type (src_idx, dst_idx) acc.2 in
  let by_type :=
    if bidirectional then dict_append edge_type (dst_idx, src_idx) by_type
    else by_type in
  (self, by_type).

Definition index_edges (bidirectional : bool) (edges : list edge)
    (self : sampler) (by_type : list (string * list (nat * nat)))
  : sampler * list (string * list (nat * nat)) :=
  foldl (index_edge bidirectional) (self, by_type) edges.

(** [self._edge_indices[edge_type] = ...] for every type, in order. *)
Definition store_edge_indices (self : sampler)
    (by_type : list (string * list (nat * nat))) : sampler :=
  Sampler (_vid_to_idx_map self) (_idx_to_vid_map self)
          (foldl (λ m kv, <[kv.1 := kv.2]> m) (_edge_indices self) by_type)
          (_node_types self).

(** [_create_edge_index]: the flattened edge index and the updated fields. *)
Definition _create_edge_index (self : sampler) (edges : list edge)
    (bidirectional : bool) : list (nat * nat) * sampler :=
  match edges with
  | [] => ([], self)
  | _ =>
      let '(self, by_type) := index_edges bidirectional edges self [] in
      let self := store_edge_indices self by_type in
      (concat (by_type.*2), self)
  end.

(** [node_vids_by_type]: the vids grouped by their recorded type, ['unknown']
    when there is none. *)
Fixpoint group_by_type (types : gmap string string) (node_vids : list string)
    (by_type : list (string * list string)) : list (string * list string) :=
  match node_vids with
  | [] => by_type
  | vid :: rest =>
      group_by_type types rest
        (dict_append (default "unknown" (types !! vid)) vid by_type)
  end.

(** The slices [vids[i:i+batch_size]] for [i] in
    [range(0, len(vids), batch_size)]. *)
Fixpoint batches_from {A} (fuel batch_size : nat) (vids : list A)
  : list (list A) :=
  match fuel, vids with
  | S fuel, _ :: _ =>
      take batch_size vids :: batches_from fuel batch_size (drop batch_size vids)
  | _, _ => []
  end.
Definition batches {A} (batch_size : nat) (vids : list A) : list (list A) :=
  batches_from (length vids) batch_size vids.

(** One row of a property reply.  The conversion of the embedding cell is
    inside a [try] whose handler only prints. *)
Definition feature_row (r : row) (features : gmap string feature)
  : result (gmap string feature) :=
  c0 ← subscript r 0; vid ← as_string c0;
  c1 ← subscript r 1;
  nm ← (if negb (is_empty c1) && is_string c1 then as_string c1 else Ok "");
  c2 ← subscript r 2;
  let emb :=
    if negb (is_empty c2) then
      match (if is_double c2 then d ← as_double c2; Ok (Some (OfDouble d))
             else if is_int c2 then z ← as_int c2; Ok (Some (OfInt z))
             else Ok None) with
      | Ok e => e
      | Raise _ => None
      end
    else None in
  Ok (<[vid := Feature nm emb]> features).

Fixpoint feature_rows (rws : list row) (features : gmap string feature)
  : result (gmap string feature) :=
  match rws with
  | [] => Ok features
  | r :: rest => features ← feature_row r features; feature_rows rest features
  end.

Fixpoint fetch_batches (node_type : string) (bs : list (list string))
    (session : Session) (features : gmap string feature)
  : result (gmap string feature * Session) :=
  match bs with
  | [] => Ok (features, session)
  | batch_vids :: rest =>
      let '(resp, session) := execute session (FetchProp node_type batch_vids) in
      if is_succeeded resp then
        features ← feature_rows (rows resp) features;
        fetch_batches node_type rest session features
      else fetch_batches node_type rest session features
  end.

Fixpoint fetch_types (by_type : list (string * list string))
    (session : Session) (features : gmap string feature)
  : result (gmap string feature * Session) :=
  match by_type with
  | [] => Ok (features, session)
  | (node_type, vids) :: rest =>
      if decide (node_type = "unknown") then fetch_types rest session features
      else
        '(features, session) ←
          fetch_batches node_type (batches 100 vids) session features;
        fetch_types rest session features
  end.

Definition _get_node_features (self : sampler) (session : Session)
    (node_vids : list string) : result (gmap string feature * Session) :=
  fetch_types (group_by_type (_node_types self) node_vids []) session ∅.

(** The retrieval step of [sample_subgraph]: hop-wise for [n_hops <= 2],
    bulk otherwise. *)
Definition get_subgraph_data (session : Session) (center_vid : string)
    (n_hops max_nodes : Z) : result (gathered Session) :=
  if bool_decide (n_hops ≤ 2)%Z
  then _get_subgraph_using_go reset session center_vid n_hops max_nodes
  else _get_subgraph_using_subgraph reset session center_vid n_hops max_nodes.

(** [sample_subgraph].  The sampler's fields are reset on entry, so their
    earlier values play no part; after the call they are the ones stored in
    the result.  [list(nodes)] enumerates the set in some fixed order. *)
Definition sample_subgraph (session : Session) (center_vid : string)
    (n_hops : Z) (space_name : string) (use_bidirectional : bool)
    (max_nodes : Z) : result (subgraph * Session) :=
  let '(_, session) := execute session (Use space_name) in
  g ← get_subgraph_data session center_vid n_hops max_nodes;
  let '(edge_index, self) :=
    _create_edge_index (g_self g) (g_edges g) use_bidirectional in
  '(node_features, session) ←
    _get_node_features self (g_session g) (elements (g_nodes g));
  Ok (Subgraph (default 0 (_vid_to_idx_map self !! center_vid))
               edge_index
               (length (_idx_to_vid_map self))
               (_vid_to_idx_map self)
               (_idx_to_vid_map self)
               (_node_types self)
               (_edge_indices self)
               node_features,
      session).

End Sampling.

(** ** The path finder *)

Definition path : Type := list string.

(** The adjacency dictionary built from the columns of [edge_index]. *)
Definition add_adj (adj_list : gmap nat (list nat)) (e : nat * nat)
  : gmap nat (list nat) :=
  <[e.1 := default [] (adj_list !! e.1) ++ [e.2]]> adj_list.

Definition build_adj (edge_index : list (nat * nat)) : gmap nat (list nat) :=
  foldl add_adj ∅ edge_index.

(** The variables of the search loop. *)
Record bfs_state : Type := Bfs {
  bfs_queue : list (nat * path);
  bfs_visited : gset nat;
  bfs_paths : list path
}.

(** The body of [for neighbor_idx in adj_list.get(current_idx, [])] for one
    neighbor, on the queue and the visited set. *)
Definition visit_neighbor (idx_to_vid : list string) (p : path)
    (qv : list (nat * path) * gset nat) (neighbor_idx : nat)
  : result (list (nat * path) * gset nat) :=
  if bool_decide (neighbor_idx ∉ qv.2) || bool_decide (length p ≤ 2) then
    neighbor_vid ← subscript idx_to_vid neighbor_idx;
    let new_path := p ++ [neighbor_vid] in
    Ok (qv.1 ++ [(neighbor_idx, new_path)],
        if bool_decide (2 < length p) then {[neighbor_idx]} ∪ qv.2 else qv.2)
  else Ok qv.

Fixpoint visit_neighbors (idx_to_vid : list string) (p : path)
    (qv : list (nat * path) * gset nat) (neighbors : list nat)
  : result (list (nat * path) * gset nat) :=
  match neighbors with
  | [] => Ok qv
  | neighbor_idx :: rest =>
      qv ← visit_neighbor idx_to_vid p qv neighbor_idx;
      visit_neighbors idx_to_vid p qv rest
  end.

(** What one evaluation of the [while] test and body leads to. *)
Inductive bfs_next : Type :=
| Continue (st : bfs_state)
| Return (paths : list path).

Definition bfs_step (idx_to_vid : list string) (adj_list : gmap nat (list nat))
    (end_idx : nat) (max_hops : Z) (st : bfs_state) : result bfs_next :=
  match bfs_queue st with
  | [] => Ok (Return (bfs_paths st))
  | (current_idx, p) :: queue =>
      if bool_decide (length (bfs_paths st) < 5) then
        if bool_decide (max_hops + 1 < Z.of_nat (length p))%Z then
          Ok (Continue (Bfs queue (bfs_visited st) (bfs_paths st)))
        else if decide (current_idx = end_idx) then
          Ok (Continue (Bfs queue (bfs_visited st) (bfs_paths st ++ [p])))
        else
          qv ← visit_neighbors idx_to_vid p (queue, bfs_visited st)
                  (default [] (adj_list !! current_idx));
          Ok (Continue (Bfs qv.1 qv.2 (bfs_paths st)))
      else Ok (Return (bfs_paths st))
  end.

Fixpoint bfs_loop (fuel : nat) (idx_to_vid : list string)
    (adj_list : gmap nat (list nat)) (end_idx : nat) (max_hops : Z)
    (st : bfs_state) : result (list path) :=
  match fuel with
  | 0 => Raise Diverged
  | S fuel =>
      next ← bfs_step idx_to_vid adj_list end_idx max_hops st;
      match next with
      | Return paths => Ok paths
      | Continue st => bfs_loop fuel idx_to_vid adj_list end_idx max_hops st
      end
  end.

(** The weight of a queued path of [len] vertices: an upper bound on the
    number of loop iterations its whole subtree can take, when no vertex has
    more than [width] neighbours and paths of more than [depth] vertices are
    dropped. *)
Definition path_weight (width depth len : nat) : nat :=
  S width ^ (depth - len).

Definition queue_weight (width depth : nat) (queue : list (nat * path)) : nat :=
  sum_list ((λ item, path_weight width depth (length item.2)) <$> queue).

Definition bfs_fuel (edge_index : list (nat * nat)) (max_hops : Z) : nat :=
  S (path_weight (length edge_index) (Z.to_nat (max_hops + 2)) 1).

(** [find_paths_bfs].  The argument is a dictionary made by
    [sample_subgraph], so every key is present and [edge_index] is a
    tensor. *)
Definition find_paths_bfs (subgraph_data : subgraph)
    (start_entity end_entity : string) (max_hops : Z) : result (list path) :=
  match vid_to_idx subgraph_data !! start_entity with
  | None => Ok []
  | Some start_idx =>
      match vid_to_idx subgraph_data !! end_entity with
      | None => Ok []
      | Some end_idx =>
          bfs_loop (bfs_fuel (edge_index subgraph_data) max_hops)
                   (idx_to_vid subgraph_data)
                   (build_adj (edge_index subgraph_data))
                   end_idx max_hops
                   (Bfs [(start_idx, [start_entity])] {[start_idx]} [])
      end
  end.

(** The dictionary returned by [find_multihop_relationships]; the
    ['bridge_nodes'] key is present in the bridge case only. *)
Record discovery : Type := Discovery {
  found : bool;
  paths : list path;
  subgraph_of : subgraph;
  method : string;
  bridge_nodes : option (list string)
}.

(** [path_a + path_b[1:]] for the first two paths on either side. *)
Definition combine_paths (paths_a_to_bridge paths_bridge_to_b : list path)
  : list path :=
  path_a ← take 2 paths_a_to_bridge;
  path_b ← take 2 paths_bridge_to_b;
  [path_a ++ drop 1 path_b].

Fixpoint bridge_loop (subgraph_a subgraph_b : subgraph)
    (entity_a entity_b : string) (max_hops : Z) (bridges : list string)
    (bridge_paths : list path) : result (list path) :=
  match bridges with
  | [] => Ok bridge_paths
  | bridge_node :: rest =>
      paths_a_to_bridge ←
        find_paths_bfs subgraph_a entity_a bridge_node (max_hops `div` 2);
      paths_bridge_to_b ←
        find_paths_bfs subgraph_b bridge_node entity_b (max_hops `div` 2);
      bridge_loop subgraph_a subgraph_b entity_a entity_b max_hops rest
        (bridge_paths ++ combine_paths paths_a_to_bridge paths_bridge_to_b)
  end.

Section Discovery.

Context {Session : Type} (execute : Session → query → response * Session).

(** [find_multihop_relationships]; [sample_subgraph] is called with its
    default [space_name] and [use_bidirectional]. *)
Definition find_multihop_relationships (session : Session)
    (entity_a entity_b : string) (max_hops : Z)
  : result (discovery * Session) :=
  '(subgraph_a, session) ←
    sample_subgraph execute session entity_a max_hops
                    "basketballplayer" true 500;
  if bool_decide (entity_b ∈ dom (vid_to_idx subgraph_a)) then
    paths ← find_paths_bfs subgraph_a entity_a entity_b max_hops;
    Ok (Discovery true paths subgraph_a "direct_subgraph" None, session)
  else
    '(subgraph_b, session) ←
      sample_subgraph execute session entity_b (max_hops `div` 2)
                      "basketballplayer" true 500;
    let intersection :=
      dom (vid_to_idx subgraph_a) ∩ dom (vid_to_idx subgraph_b) in
    if bool_decide (intersection ≠ ∅) then
      bridge_paths ←
        bridge_loop subgraph_a subgraph_b entity_a entity_b max_hops
                    (take 3 (elements intersection)) [];
      Ok (Discovery true (take 5 bridge_paths) subgraph_a "bridge_nodes"
                    (Some (elements intersection)),
          session)
    else
      Ok (Discovery false [] subgraph_a "no_connection" None, session).

End Discovery.

(** ** The feature store *)

Module FeatureStore.

Section Store.

(** Tensors and index tensors are opaque here; so are the tensor operations
    of the indexed branches and the remote lookup of an uncached feature. *)
Context {tensor index : Type}.
Context (getitem : tensor → index → tensor).
Context (setitem : tensor → index → tensor → tensor).
Context (zeros_like_index : index → tensor → tensor).
Context (empty_tensor : tensor).
Context (remote_features : string → string → index → tensor).

(** The two dictionaries of a [NebulaFeatureStore]. *)
Record store : Type := Store {
  _tensor_cache : gmap (string * string) tensor;
  _tensor_attrs : gmap string (gset string)
}.

Definition _get_tensor (self : store) (group name : string)
    (idx : option index) : tensor :=
  match _tensor_cache self !! (group, name) with
  | Some tensor_data =>
      match idx with
      | None => tensor_data
      | Some i => getitem tensor_data i
      end
  | None =>
      match idx with
      | None => empty_tensor
      | Some i => remote_features group name i
      end
  end.

Definition _put_tensor (self : store) (group name : string) (t : tensor)
    (idx : option index) : bool * store :=
  let key := (group, name) in
  let attrs :=
    <[group := {[name]} ∪ default ∅ (_tensor_attrs self !! group)]>
      (_tensor_attrs self) in
  match idx with
  | None => (true, Store (<[key := t]> (_tensor_cache self)) attrs)
  | Some i =>
      let old :=
        match _tensor_cache self !! key with
        | Some cached => cached
        | None => zeros_like_index i t
        end in
      (true, Store (<[key := setitem old i t]> (_tensor_cache self)) attrs)
  end.

Definition _remove_tensor (self : store) (group name : string)
  : bool * store :=
  let key := (group, name) in
  if bool_decide (key ∈ dom (_tensor_cache self)) then
    let cache := delete key (_tensor_cache self) in
    match _tensor_attrs self !! group with
    | Some attrs =>
        if bool_decide (name ∈ attrs)
        then (true, Store cache (<[group := attrs ∖ {[name]}]> (_tensor_attrs self)))
        else (true, Store cache (_tensor_attrs self))
    | None => (true, Store cache (_tensor_attrs self))
    end
  else (false, self).

Definition get_all_tensor_attrs (self : store) : gmap string (list string) :=
  elements <$> _tensor_attrs self.


End Store.

End FeatureStore.

(** ** A mock remote graph *)

Module Mock.

(** A stateless adapter over a fixed edge list: [GO k STEPS] yields the
    edges leaving the vertices reached by walks of [k - 1] edges,
    [GET SUBGRAPH n STEPS] one row per edge leaving a vertex within [n - 1]
    steps (the source vertex in the first column, the edge in the second),
    a [labels] query the tag list of the vertex, a property query one row
    per requested vertex.  [USE] succeeds with no rows. *)
Definition tags_of (vid : string) : list string :=
  if String.prefix "player" vid then ["player"]
  else if String.prefix "team" vid then ["team"]
  else [].

Fixpoint frontier (es : list edge) (k : nat) (center : string) : list string :=
  match k with
  | 0 => [center]
  | S k =>
      let reached := frontier es k center in
      (λ e : edge, e.1.2) <$> filter (λ e : edge, e.1.1 ∈ reached) es
  end.

Definition within (es : list edge) (k : nat) (center : string) : list string :=
  n ← seq 0 (S k); frontier es n center.

Definition go_row (e : edge) : row :=
  [VString e.1.1; VString e.1.2; VString e.2].

Definition subgraph_row_of (e : edge) : row :=
  [VVertex (VString e.1.1) (tags_of e.1.1);
   VEdge (VString e.1.1) (VString e.1.2) e.2].

Definition prop_row (vid : string) : row :=
  [VString vid; VString vid; VInt 1].

Definition execute (es : list edge) (session : unit) (q : query)
  : response * unit :=
  match q with
  | Use _ => (Response true [], session)
  | MatchLabels vid =>
      (Response true [[VList (VString <$> tags_of vid)]], session)
  | GoSteps hop center =>
      (Response true
         (go_row <$> filter (λ e : edge,
                               e.1.1 ∈ frontier es (Z.to_nat hop - 1) center) es),
       session)
  | GetSubgraph n center =>
      (Response true
         (subgraph_row_of <$>
            filter (λ e : edge, e.1.1 ∈ within es (Z.to_nat n - 1) center) es),
       session)
  | FetchProp _ batch_vids => (Response true (prop_row <$> batch_vids), session)
  end.

(** An adapter every statement of which fails. *)
Definition failing (session : unit) (q : query) : response * unit :=
  (Response false [], session).

(** The edges of the eight-vertex graph (players 0 to 4, teams 0 to 2):
    [player0 <-> team2], [player0 -> player1], [player1 <-> team0]; the
    other vertices are isolated. *)
Definition eight_edges : list edge :=
  [("player0", "team2", "serve"); ("team2", "player0", "serve");
   ("player0", "player1", "follow");
   ("player1", "team0", "serve"); ("team0", "player1", "serve")].

(** Two players of one team that do not know each other. *)
Definition teammates : list edge :=
  [("player0", "team0", "serve"); ("player1", "team0", "serve")].

(** A single edge leaving the center. *)
Definition one_edge : list edge := [("player0", "player1", "follow")].

End Mock.

(** ** Reference notions used in the statements *)

(** The distinct elements of a list, each at its first occurrence. *)
Fixpoint distinct (vids : list string) : list string :=
  match vids with
  | [] => []
  | vid :: rest => vid :: filter (λ u, u ≠ vid) (distinct rest)
  end.

(** The edge index of a subgraph only names positions of its index-to-vid
    list. *)
Definition edges_in_range (sg : subgraph) : Prop :=
  Forall (λ e : nat * nat,
            e.1 < length (idx_to_vid sg) ∧ e.2 < length (idx_to_vid sg))
         (edge_index sg).

(** One turn of the search loop that goes on to another one. *)
Definition bfs_turn (idx_to_vid : list string) (adj_list : gmap nat (list nat))
    (end_idx : nat) (max_hops : Z) (st st' : bfs_state) : Prop :=
  bfs_step idx_to_vid adj_list end_idx max_hops st = Ok (Continue st').

(** What holds of the loop variables throughout the search: queued paths
    are not empty, completed paths have between one and [max_hops + 1]
    vertices, and there are at most five of them. *)
Definition bfs_inv (max_hops : Z) (st : bfs_state) : Prop :=
  Forall (λ item : nat * path, item.2 ≠ []) (bfs_queue st) ∧
  Forall (λ p : path, 1 ≤ length p ∧ (Z.of_nat (length p) ≤ max_hops + 1)%Z)
         (bfs_paths st) ∧
  length (bfs_paths st) ≤ 5.


(** [vid] is an end of the edge [e]. *)
Definition endpoint (vid : string) (e : edge) : Prop :=
  vid = e.1.1 ∨ vid = e.1.2.

(** The edge [e] is materialised in the index map [m] and the per-type
    lists [by_type]: both ends have an index and the pair of indices is in
    the list of the edge's type, together with the reversed pair when
    [bidirectional] is set. *)
Definition indexed (bidirectional : bool) (m : gmap string nat)
    (by_type : list (string * list (nat * nat))) (e : edge) : Prop :=
  ∃ src_idx dst_idx l,
    m !! e.1.1 = Some src_idx ∧ m !! e.1.2 = Some dst_idx ∧
    dict_get e.2 by_type = Some l ∧
    (src_idx, dst_idx) ∈ l ∧
    (bidirectional = true → (dst_idx, src_idx) ∈ l).

(** What the edge loop maintains: a consistent registry, distinct keys in
    the per-type dictionary, and only registered indices in its lists. *)
Definition index_inv (acc : sampler * list (string * list (nat * nat))) : Prop :=
  registry_ok acc.1 ∧
  NoDup (acc.2).*1 ∧
  ∀ k l p, dict_get k acc.2 = Some l → p ∈ l →
    p.1 < length (_idx_to_vid_map acc.1) ∧ p.2 < length (_idx_to_vid_map acc.1).

(** The loop only adds: indices are kept, lists are extended at their end,
    and the other two fields are left alone. *)
Definition index_le (acc acc' : sampler * list (string * list (nat * nat)))
  : Prop :=
  _vid_to_idx_map acc.1 ⊆ _vid_to_idx_map acc'.1 ∧
  (∀ k l, dict_get k acc.2 = Some l → ∃ l', dict_get k acc'.2 = Some (l ++ l')) ∧
  _edge_indices acc'.1 = _edge_indices acc.1 ∧
  _node_types acc'.1 = _node_types acc.1.

(** The registry part of the sampler's fields (all but [_node_types]). *)
Definition registry_of (self : sampler)
  : gmap string nat * list string * gmap string (list (nat * nat)) :=
  (_vid_to_idx_map self, _idx_to_vid_map self, _edge_indices self).

(** A reply that reports failure, or has no rows. *)
Definition failed_or_empty (resp : response) : Prop :=
  is_succeeded resp = false ∨ rows resp = [].

(** Rows of the shape each statement is meant to yield: a list of labels
    (empty, or led by an empty or a string cell); three strings; a vertex
    with a string id and a tag, and an edge with string ends, where the row
    has them; a string id followed by two more cells. *)
Definition labels_row_ok (r : row) : Prop :=
  ∃ labels rest, r = VList labels :: rest ∧
    match labels with
    | [] => True
    | l0 :: _ => is_empty l0 = true ∨ is_string l0 = true
    end.

Definition go_row_ok (r : row) : Prop :=
  ∃ src dst edge_type rest,
    r = VString src :: VString dst :: VString edge_type :: rest.

Definition subgraph_row_ok (r : row) : Prop :=
  match r with
  | [] => False
  | c0 :: rest =>
      match c0 with
      | VVertex id tags => is_string id = true ∧ tags ≠ []
      | _ => True
      end ∧
      match rest with
      | VEdge s d _ :: _ => is_string s = true ∧ is_string d = true
      | _ => True
      end
  end.

Definition prop_row_ok (r : row) : Prop :=
  ∃ vid c1 c2 rest, r = VString vid :: c1 :: c2 :: rest.

(** A reply is well formed when, if it reports success, its rows have the
    shape of its statement (for a labels query only the first row is
    read). *)
Definition reply_ok (q : query) (resp : response) : Prop :=
  is_succeeded resp = true →
  match q with
  | Use _ => True
  | MatchLabels _ =>
      match rows resp with [] => True | r :: _ => labels_row_ok r end
  | GoSteps _ _ => Forall go_row_ok (rows resp)
  | GetSubgraph _ _ => Forall subgraph_row_ok (rows resp)
  | FetchProp _ _ => Forall prop_row_ok (rows resp)
  end.

Definition well_formed_replies {Session : Type}
    (execute : Session → query → response * Session) : Prop :=
  ∀ session q, reply_ok q (execute session q).1.

(** Both ends of every gathered edge are among the gathered nodes. *)
Definition ends_in_nodes {Session : Type} (g : gathered Session) : Prop :=
  ∀ e, e ∈ g_edges g → e.1.1 ∈ g_nodes g ∧ e.1.2 ∈ g_nodes g.

(** The node count at which a retrieval loop may still read a row: the
    center alone, or a count below the budget. *)
Definition may_read (max_nodes : Z) (nodes : gset string) : Prop :=
  (Z.of_nat (size nodes) ≤ Z.max 1 (max_nodes - 1))%Z.

(** ** Walks of a subgraph *)

(** The two halves of a subgraph's registry agree: the index of a vid
    leads back to the vid. *)
Definition indices_agree (sg : subgraph) : Prop :=
  ∀ vid idx, vid_to_idx sg !! vid = Some idx → idx_to_vid sg !! idx = Some vid.

(** [u] and [v] are the ends of a column of [edge_index]. *)
Definition joined (sg : subgraph) (u v : string) : Prop :=
  ∃ i j, (i, j) ∈ edge_index sg ∧
         idx_to_vid sg !! i = Some u ∧ idx_to_vid sg !! j = Some v.

(** Every two consecutive vertices of [p] are joined. *)
Fixpoint is_walk (sg : subgraph) (p : path) : Prop :=
  match p with
  | u :: (v :: _) as rest => joined sg u v ∧ is_walk sg rest
  | _ => True
  end.

(** A path from [start_entity] to [end_entity] along the edge index. *)
Definition connects (sg : subgraph) (start_entity end_entity : string)
    (p : path) : Prop :=
  head p = Some start_entity ∧ last p = Some end_entity ∧ is_walk sg p.

(** What the search keeps of a queued item: its path is a walk from the
    start that ends in the vertex of its index. *)
Definition item_ok (sg : subgraph) (start_entity : string)
    (item : nat * path) : Prop :=
  ∃ vid, idx_to_vid sg !! item.1 = Some vid ∧
         connects sg start_entity vid item.2.

(** ** Where a column of the edge index comes from *)

(** The pair [p] in the list of type [k] is the pair of indices of the edge
    [e], or its reverse when [bidirectional] is set. *)
Definition from_edge (bidirectional : bool) (m : gmap string nat)
    (k : string) (p : nat * nat) (e : edge) : Prop :=
  e.2 = k ∧
  ∃ src_idx dst_idx,
    m !! e.1.1 = Some src_idx ∧ m !! e.1.2 = Some dst_idx ∧
    (p = (src_idx, dst_idx) ∨ (bidirectional = true ∧ p = (dst_idx, src_idx))).

(** The number of columns an edge contributes. *)
Definition columns_per_edge (bidirectional : bool) : nat :=
  if bidirectional then 2 else 1.

(** A path from [entity_a] to [entity_b] that passes through one of the
    vertices [through]. *)
Definition bridges_over (entity_a entity_b : string) (through : list string)
    (p : path) : Prop :=
  head p = Some entity_a ∧ last p = Some entity_b ∧
  ∃ bridge_node, bridge_node ∈ through ∧ bridge_node ∈ p.

(** ** The statements sent for the features *)

(** An adapter that also keeps the list of the statements it was sent. *)
Definition logged {Session : Type}
    (execute : Session → query → response * Session)
    (session : Session * list query) (q : query)
  : response * (Session * list query) :=
  let '(resp, session') := execute session.1 q in
  (resp, (session', session.2 ++ [q])).

(** The property statements [_get_node_features] is to send for
    [node_vids]: for every type but ['unknown'], in order of first
    appearance, one for each batch of its vids. *)
Definition planned_fetches (types : gmap string string)
    (node_vids : list string) : list query :=
  '(node_type, vids) ← group_by_type types node_vids [];
  if decide (node_type = "unknown") then []
  else FetchProp node_type <$> batches 100 vids.

(** The type under which [_get_node_features] files a vid. *)
Definition type_of (types : gmap string string) (vid : string) : string :=
  default "unknown" (types !! vid).

(** ** The graph store *)

Module GraphStore.

(** An edge type as the store's methods take it: a name, or a triple
    [(src_type, edge_name, dst_type)]. *)
Inductive edge_type : Type :=
| Name (edge_name : string)
| Triple (src_type edge_name dst_type : string).

#[global] Instance edge_type_eq_dec : EqDecision edge_type.
Proof. solve_decision. Defined.

#[global] Instance edge_type_countable : Countable edge_type.
Proof.
  refine (inj_countable'
            (λ et, match et with
                   | Name n => inl n
                   | Triple s n d => inr (s, n, d)
                   end)
            (λ c, match c with
                  | inl n => Name n
                  | inr (s, n, d) => Triple s n d
                  end) _).
  by intros [].
Defined.

(** The [edge_name] and the [(src_type, dst_type)] that [_put_edge_index]
    and [_remove_edge_index] take from an edge type ([None] twice for a
    plain name). *)
Definition edge_name_of (et : edge_type) : string :=
  match et with Name n => n | Triple _ n _ => n end.

Definition types_of (et : edge_type) : option (string * string) :=
  match et with Name _ => None | Triple s _ d => Some (s, d) end.

(** What the store's methods raise: [NotImplementedError], or whatever the
    sampler and the subscripts of its result raise. *)
Inductive store_exn : Type :=
| NotImplementedError
| Raised (e : exn).

Inductive outcome (A : Type) : Type :=
| Done (a : A)
| Failed (e : store_exn).
Arguments Done {A} a.
Arguments Failed {A} e.

(** The fields of a [NebulaGraphStore] (its sampler is the remote session
    given to [_get_edge_index]).  An edge index tensor is the list of its
    columns. *)
Record graph_store : Type := Build {
  space_name : string;
  _edge_cache : gmap (edge_type * string) (list (Z * Z));
  _edge_attrs : gmap string (option (string * string));
  id_mapper : option (Z → string)
}.

(** The store as [__init__] leaves it. *)
Definition init (space_name : string) : graph_store :=
  Build space_name ∅ ∅ None.

(** [self.id_mapper = f], done from outside. *)
Definition set_id_mapper (self : graph_store) (f : option (Z → string))
  : graph_store :=
  Build (space_name self) (_edge_cache self) (_edge_attrs self) f.

(** The id of an index: through [id_mapper], or [str(idx)]. *)
Definition node_id (self : graph_store) (idx : Z) : string :=
  match id_mapper self with
  | Some f => f idx
  | None => pretty idx
  end.

(** [l.index(x)] where it is defined. *)
Fixpoint list_index (x : string) (l : list string) : option nat :=
  match l with
  | [] => None
  | y :: l' => if decide (x = y) then Some 0 else S <$> list_index x l'
  end.

(** The loop over the columns of one sampled subgraph: a column is kept
    when it leaves [src_id] and its target is among [dst_ids]
    ([sub_dst_id in dst_ids], then [dst_ids.index(sub_dst_id)]). *)
Fixpoint matching_edges (sg : subgraph) (src_idx : nat) (src_id : string)
    (dst_ids : list string) (columns edges : list (nat * nat))
  : result (list (nat * nat)) :=
  match columns with
  | [] => Ok edges
  | (sub_src_idx, sub_dst_idx) :: rest =>
      sub_src_id ← subscript (idx_to_vid sg) sub_src_idx;
      sub_dst_id ← subscript (idx_to_vid sg) sub_dst_idx;
      let edges :=
        if bool_decide (sub_src_id = src_id) then
          match list_index sub_dst_id dst_ids with
          | Some dst_idx => edges ++ [(src_idx, dst_idx)]
          | None => edges
          end
        else edges in
      matching_edges sg src_idx src_id dst_ids rest edges
  end.

Section Remote.

Context {Session : Type} (execute : Session → query → response * Session).

(** The loop over [enumerate(src_ids)]: one one-hop sample per source. *)
Fixpoint collect_edges (self : graph_store) (dst_ids : list string)
    (src_ids : list (nat * string)) (session : Session)
    (edges : list (nat * nat)) : outcome (list (nat * nat) * Session) :=
  match src_ids with
  | [] => Done (edges, session)
  | (src_idx, src_id) :: rest =>
      match sample_subgraph execute session src_id 1 (space_name self)
                            true 1000 with
      | Raise e => Failed (Raised e)
      | Ok (sg, session) =>
          match matching_edges sg src_idx src_id dst_ids (edge_index sg)
                               edges with
          | Raise e => Failed (Raised e)
          | Ok edges => collect_edges self dst_ids rest session edges
          end
      end
  end.

(** [_get_edge_index] (and [get_edge_index], which only delegates); the
    [size] argument is not used. *)
Definition _get_edge_index (self : graph_store) (session : Session)
    (et : edge_type) (layout : string) (index : option (list Z * list Z))
  : outcome (list (Z * Z) * Session) :=
  match _edge_cache self !! (et, layout) with
  | Some edge_data =>
      match index with
      | None => Done (edge_data, session)
      | Some (src_indices, dst_indices) =>
          Done (filter (λ c : Z * Z, c.1 ∈ src_indices ∧ c.2 ∈ dst_indices)
                       edge_data,
                session)
      end
  | None =>
      if decide (layout = "coo") then
        match index with
        | Some (src_indices, dst_indices) =>
            let src_ids := node_id self <$> src_indices in
            let dst_ids := node_id self <$> dst_indices in
            match collect_edges self dst_ids
                    (zip (seq 0 (length src_ids)) src_ids) session [] with
            | Failed e => Failed e
            | Done (edges, session) =>
                Done ((λ e : nat * nat, (Z.of_nat e.1, Z.of_nat e.2)) <$> edges,
                      session)
            end
        | None => Done ([], session)
        end
      else Failed NotImplementedError
  end.

End Remote.

Definition _put_edge_index (self : graph_store) (et : edge_type)
    (edge_index : list (Z * Z)) (layout : string)
  : outcome (bool * graph_store) :=
  if decide (layout = "coo") then
    Done (true,
          Build (space_name self)
                (<[(et, layout) := edge_index]> (_edge_cache self))
                (<[edge_name_of et := types_of et]> (_edge_attrs self))
                (id_mapper self))
  else Failed NotImplementedError.

Definition _remove_edge_index (self : graph_store) (et : edge_type)
    (layout : string) : bool * graph_store :=
  if bool_decide ((et, layout) ∈ dom (_edge_cache self)) then
    (true,
     Build (space_name self)
           (delete (et, layout) (_edge_cache self))
           (delete (edge_name_of et) (_edge_attrs self))
           (id_mapper self))
  else (false, self).

(** The entry listed for a registered name: the triple when both types are
    non-empty strings, the name otherwise. *)
Definition listed_as (entry : string * option (string * string)) : edge_type :=
  match entry.2 with
  | Some (s, d) =>
      if bool_decide (s ≠ "" ∧ d ≠ "") then Triple s entry.1 d
      else Name entry.1
  | None => Name entry.1
  end.

(** [get_all_edge_attrs], in some order of the registered names. *)
Definition get_all_edge_attrs (self : graph_store) : list edge_type :=
  listed_as <$> map_to_list (_edge_attrs self).

(** The stores a program can have: made by [__init__], then changed by
    [_put_edge_index], [_remove_edge_index] and the setting of
    [id_mapper]. *)
Inductive built : graph_store → Prop :=
| built_init sp : built (init sp)
| built_put self et ei layout self' :
    built self → _put_edge_index self et ei layout = Done (true, self') →
    built self'
| built_remove self et layout :
    built self → built (_remove_edge_index self et layout).2
| built_mapper self f : built self → built (set_id_mapper self f).

End GraphStore.

(** ** Conversion to a PyG data object *)

(** The [Data] object built by [convert_to_pyg_data]: [x] by rows, a row
    being [None] while it holds its initial zero and the stored embedding
    afterwards; [node_type] by entries. *)
Record pyg_data : Type := Data {
  data_x : list (option scalar);
  data_edge_index : list (nat * nat);
  data_node_type : list nat;
  data_center_node_idx : nat;
  data_vid_to_idx : gmap string nat;
  data_idx_to_vid : list string
}.

(** The loop [for idx, vid in enumerate(...)] that fills [x], from the
    position [idx] on.  An assignment past the end of [x] raises. *)
Fixpoint fill_x (node_features : gmap string feature) (idx : nat)
    (vids : list string) (x : list (option scalar))
  : result (list (option scalar)) :=
  match vids with
  | [] => Ok x
  | vid :: rest =>
      match node_features !! vid ≫= embedding with
      | Some e =>
          if decide (idx < length x)
          then fill_x node_features (S idx) rest (<[idx := Some e]> x)
          else Raise IndexError
      | None => fill_x node_features (S idx) rest x
      end
  end.

(** The loop that fills [node_type]. *)
Fixpoint fill_node_type (types : gmap string string) (idx : nat)
    (vids : list string) (node_type : list nat) : result (list nat) :=
  match vids with
  | [] => Ok node_type
  | vid :: rest =>
      if decide (idx < length node_type) then
        let node_type := <[idx := 0]> node_type in
        let node_type :=
          match types !! vid with
          | Some ty =>
              if decide (ty = "player") then <[idx := 0]> node_type
              else if decide (ty = "team") then <[idx := 1]> node_type
              else node_type
          | None => node_type
          end in
        fill_node_type types (S idx) rest node_type
      else Raise IndexError
  end.

(** [convert_to_pyg_data]; [installed] tells whether [torch_geometric] can
    be imported ([None] is returned when it cannot).  The node types are
    read from the sampler, not from the subgraph. *)
Definition convert_to_pyg_data (installed : bool) (self : sampler)
    (sg : subgraph) : result (option pyg_data) :=
  if installed then
    x ← fill_x (node_features sg) 0 (idx_to_vid sg)
               (replicate (num_nodes sg) None);
    node_type ← fill_node_type (_node_types self) 0 (idx_to_vid sg)
                               (replicate (num_nodes sg) 0);
    Ok (Some (Data x (edge_index sg) node_type (center_node_idx sg)
                   (vid_to_idx sg) (idx_to_vid sg)))
  else Ok None.

(** The sampler's fields after the call of [sample_subgraph] that returned
    [sg]. *)
Definition sampler_after (sg : subgraph) : sampler :=
  Sampler (vid_to_idx sg) (idx_to_vid sg) (edge_indices_by_type sg)
          (node_types sg).

(** The entry of [node_type] for a vid: [1] for a team, [0] for anything
    else. *)
Definition type_code (types : gmap string string) (vid : string) : nat :=
  if decide (types !! vid = Some "team") then 1 else 0.

(** ** The feature stores a program can have *)

Section TensorStores.

Context {tensor index : Type}.
Context (setitem : tensor → index → tensor → tensor).
Context (zeros_like_index : index → tensor → tensor).


End TensorStores.

(** ** Looking up one embedding *)

Module EntityEmbedding.

(** The statements [get_entity_embedding] sends, by the parameters
    interpolated into their text. *)
Inductive statement : Type :=
| UseSpace (space : string)
| FetchField (entity_tag entity_id embedding_field : string).

Definition NEBULA_GRAPH_SPACE : string := "basketballplayer".

Section Lookup.

Context {Session : Type}.
Context (ask : Session → statement → response * Session).

(** [get_entity_embedding]: every exception raised on the way is caught
    and gives [None]. *)
Definition get_entity_embedding (session : Session)
    (entity_id entity_tag embedding_field : string) : option Z * Session :=
  let '(_, session) := ask session (UseSpace NEBULA_GRAPH_SPACE) in
  let '(result, session) :=
    ask session (FetchField entity_tag entity_id embedding_field) in
  if negb (is_succeeded result) || bool_decide (row_size result = 0)
  then (None, session)
  else
    match (row0 ← subscript (rows result) 0;
           embedding_value_wrapper ← subscript row0 0;
           if is_empty embedding_value_wrapper then Ok None
           else d ← as_double embedding_value_wrapper; Ok (Some d)) with
    | Ok embedding => (embedding, session)
    | Raise _ => (None, session)
    end.

(** [convert_embedding_to_tensor]: the one-entry tensor of
    [float(embedding_value)], which raises nothing on a float. *)
Definition convert_embedding_to_tensor (embedding_value : option Z)
  : option scalar :=
  match embedding_value with
  | None => None
  | Some d => Some (OfDouble d)
  end.

Definition get_entity_embedding_tensor (session : Session)
    (entity_id entity_tag embedding_field : string)
  : option scalar * Session :=
  let '(embedding_value, session) :=
    get_entity_embedding session entity_id entity_tag embedding_field in
  (convert_embedding_to_tensor embedding_value, session).

End Lookup.

End EntityEmbedding.

(** ** The feature store, by rows *)

Module NebulaFeatureStore.

Import EntityEmbedding.

Section Rows.

(** A tensor is the list of its entries along the first dimension (so that
    [size(0)] is its length), of any shape [R]; [scalar_row v] is the entry
    of a one-dimensional tensor holding [v], where [None] stands for
    [0.0]. *)
Context {R : Type} (scalar_row : option scalar → R).
Context {Session : Type}.
Context (ask : Session → statement → response * Session).

(** The fields [_get_tensor] reads. *)
Record store : Type := Store {
  _tensor_cache : gmap (string * string) (list R);
  id_mapper : option (Z → string)
}.

(** One entry of [tensor_data[index]]: a negative position counts from the
    end. *)
Definition row_at (tensor_data : list R) (i : Z) : result R :=
  let n := Z.of_nat (length tensor_data) in
  if bool_decide (0 ≤ i < n)%Z then subscript tensor_data (Z.to_nat i)
  else if bool_decide (- n ≤ i < 0)%Z
       then subscript tensor_data (Z.to_nat (n + i))
       else Raise IndexError.

Fixpoint getitem (tensor_data : list R) (index : list Z) : result (list R) :=
  match index with
  | [] => Ok []
  | i :: rest =>
      r ← row_at tensor_data i;
      rs ← getitem tensor_data rest;
      Ok (r :: rs)
  end.

(** The ids of the positions of [index]. *)
Definition node_ids_of (self : store) (group : string) (index : list Z)
  : list string :=
  match id_mapper self with
  | Some f => f <$> index
  | None => (λ idx, group +:+ pretty idx) <$> index
  end.

(** The loop over [node_ids]: one lookup per id, a missing embedding
    giving the entry [0.0]. *)
Fixpoint fetch_features (group name : string) (node_ids : list string)
    (session : Session) : list (option scalar) * Session :=
  match node_ids with
  | [] => ([], session)
  | node_id :: rest =>
      let '(embedding, session) :=
        get_entity_embedding ask session node_id group name in
      let '(features, session) := fetch_features group name rest session in
      (convert_embedding_to_tensor embedding :: features, session)
  end.

(** [_get_tensor] (and [get_tensor], which only delegates). *)
Definition _get_tensor (self : store) (session : Session)
    (group name : string) (index : option (list Z))
  : result (list R) * Session :=
  match _tensor_cache self !! (group, name) with
  | Some tensor_data =>
      match index with
      | None => (Ok tensor_data, session)
      | Some index => (getitem tensor_data index, session)
      end
  | None =>
      match index with
      | None => (Ok [], session)
      | Some index =>
          let node_ids := node_ids_of self group index in
          let '(features, session) :=
            fetch_features group name node_ids session in
          (Ok (scalar_row <$> features), session)
      end
  end.

End Rows.

Arguments store R : clear implicits.
Arguments Store {R} _ _.

End NebulaFeatureStore.

(** ** The neighbor loader *)

Module SimpleNeighborLoader.

Import EntityEmbedding.

(** The [Data] object returned by [load_data]. *)
Record loaded (R : Type) : Type := Loaded {
  loaded_x : list R;
  loaded_edge_index : list (nat * nat);
  loaded_num_nodes : nat;
  node_ids : list string
}.
Arguments Loaded {R} _ _ _ _.
Arguments loaded_x {R} _.
Arguments loaded_edge_index {R} _.
Arguments loaded_num_nodes {R} _.
Arguments node_ids {R} _.

Section Loader.

(** [vector_row v] is a row of a [n x 1] tensor holding [v]. *)
Context {R : Type} (scalar_row vector_row : option scalar → R).
Context {Session : Type}.
Context (execute : Session → query → response * Session).
Context (ask : Session → statement → response * Session).

(** The loop of the handler, which copies the subgraph's own
    embeddings. *)
Fixpoint fill_rows (node_features : gmap string feature) (idx : nat)
    (vids : list string) (rows : list R) : result (list R) :=
  match vids with
  | [] => Ok rows
  | vid :: rest =>
      match node_features !! vid ≫= embedding with
      | Some e =>
          if decide (idx < length rows)
          then fill_rows node_features (S idx) rest
                         (<[idx := vector_row (Some e)]> rows)
          else Raise IndexError
      | None => fill_rows node_features (S idx) rest rows
      end
  end.

(** [load_data] of a loader over the feature store [feature_store] and a
    graph store of the space [space_name], with the loader's
    [node_type]. *)
Definition load_data (feature_store : NebulaFeatureStore.store R)
    (space_name node_type : string) (session : Session)
    (seed_nodes : list string) (node_indices : list nat) (num_hops : Z)
  : result (loaded R * Session) :=
  match seed_nodes with
  | [] => Ok (Loaded [] [] 0 [], session)
  | center_vid :: _ =>
      '(subgraph, session) ←
        sample_subgraph execute session center_vid num_hops space_name
                        true 1000;
      let num_nodes := num_nodes subgraph in
      let zeros := replicate num_nodes (vector_row None) in
      let '(features, session) :=
        NebulaFeatureStore._get_tensor scalar_row ask feature_store
          session node_type "embedding1"
          (Some (Z.of_nat <$> seq 0 num_nodes)) in
      node_features ←
        match features with
        | Ok features =>
            if decide (length features = num_nodes) then Ok features
            else Ok zeros
        | Raise _ =>
            fill_rows (node_features subgraph) 0 (idx_to_vid subgraph) zeros
        end;
      Ok (Loaded node_features (edge_index subgraph) num_nodes
                 (idx_to_vid subgraph),
          session)
  end.

End Loader.

End SimpleNeighborLoader.

(** ** The converter *)

Module NebulaToTorch.

Import EntityEmbedding.

(** The fields of a [NebulaToTorch]: the id registry, the cache of its
    feature store and the space name of its graph store.  The [id_mapper]
    of the two stores is the bound method [get_node_id_by_idx], which reads
    the registry as it is when called. *)
Record converter (R : Type) : Type := Converter {
  id_to_idx : gmap string nat;
  idx_to_id : list string;
  feature_cache : gmap (string * string) (list R);
  space_name : string
}.
Arguments Converter {R} _ _ _ _.
Arguments id_to_idx {R} _.
Arguments idx_to_id {R} _.
Arguments feature_cache {R} _.
Arguments space_name {R} _.

(** The converter as [__init__] leaves it. *)
Definition init {R} (space_name : string) : converter R :=
  Converter ∅ [] ∅ space_name.

(** [get_node_id_by_idx]; the subscript is within the list. *)
Definition get_node_id_by_idx {R} (self : converter R) (idx : Z) : string :=
  if bool_decide (0 ≤ idx < Z.of_nat (length (idx_to_id self)))%Z
  then default "" (idx_to_id self !! Z.to_nat idx)
  else "unknown" +:+ pretty idx.

Definition _get_or_add_id {R} (self : converter R) (node_id : string)
  : nat * converter R :=
  match id_to_idx self !! node_id with
  | Some idx => (idx, self)
  | None =>
      let idx := length (idx_to_id self) in
      (idx, Converter (<[node_id := idx]> (id_to_idx self))
                      (idx_to_id self ++ [node_id])
                      (feature_cache self) (space_name self))
  end.

(** The loop that builds [indices]. *)
Fixpoint add_ids {R} (self : converter R) (node_ids : list string)
  : list nat * converter R :=
  match node_ids with
  | [] => ([], self)
  | node_id :: rest =>
      let '(idx, self) := _get_or_add_id self node_id in
      let '(indices, self) := add_ids self rest in
      (idx :: indices, self)
  end.

(** The feature store of the converter, as a call of [get_tensor] finds
    it. *)
Definition feature_store {R} (self : converter R)
  : NebulaFeatureStore.store R :=
  NebulaFeatureStore.Store (feature_cache self) (Some (get_node_id_by_idx self)).

(** The dictionary returned by [get_subgraph]; [edge_index.tolist()] is
    the list of the two rows. *)
Record subgraph_dict (R : Type) : Type := SubgraphDict {
  dict_num_nodes : nat;
  dict_features : list R;
  dict_edge_index : list (list nat);
  dict_node_ids : list string
}.
Arguments SubgraphDict {R} _ _ _ _.
Arguments dict_num_nodes {R} _.
Arguments dict_features {R} _.
Arguments dict_edge_index {R} _.
Arguments dict_node_ids {R} _.

Section Converter.

Context {R : Type} (scalar_row vector_row : option scalar → R).
Context {Session : Type}.
Context (execute : Session → query → response * Session).
Context (ask : Session → statement → response * Session).

Definition get_node_features (self : converter R) (session : Session)
    (node_ids : list string) (node_type : string)
  : result (list R) * converter R * Session :=
  let '(indices, self) := add_ids self node_ids in
  let '(features, session) :=
    NebulaFeatureStore._get_tensor scalar_row ask (feature_store self)
      session node_type "embedding1" (Some (Z.of_nat <$> indices)) in
  (features, self, session).

Definition get_subgraph (self : converter R) (session : Session)
    (center_nodes : list string) (n_hops : Z)
  : result (subgraph_dict R * converter R * Session) :=
  let '(indices, self) := add_ids self center_nodes in
  '(data, session) ←
    SimpleNeighborLoader.load_data scalar_row vector_row execute ask
      (feature_store self) (space_name self) "player" session
      center_nodes indices n_hops;
  let self := (add_ids self (SimpleNeighborLoader.node_ids data)).2 in
  Ok (SubgraphDict
        (SimpleNeighborLoader.loaded_num_nodes data)
        (SimpleNeighborLoader.loaded_x data)
        (match SimpleNeighborLoader.loaded_edge_index data with
         | [] => []
         | columns => [columns.*1; columns.*2]
         end)
        (SimpleNeighborLoader.node_ids data),
      self, session).

End Converter.

(** The registry is consistent: the two halves are inverse to each
    other. *)
Definition consistent {R} (self : converter R) : Prop :=
  ∀ node_id idx,
    id_to_idx self !! node_id = Some idx ↔ idx_to_id self !! idx = Some node_id.

End NebulaToTorch.

(** ** Adapters that keep a log *)

(** An adapter that keeps the list of the statements it was sent, and one
    that passes such a list on. *)
Definition recording {Session Q : Type}
    (ask : Session → Q → response * Session)
    (session : Session * list Q) (q : Q) : response * (Session * list Q) :=
  let '(resp, session') := ask session.1 q in
  (resp, (session', session.2 ++ [q])).

Definition passing {Session Q Q' : Type}
    (execute : Session → Q → response * Session)
    (session : Session * list Q') (q : Q) : response * (Session * list Q') :=
  let '(resp, session') := execute session.1 q in
  (resp, (session', session.2)).

(** The two statements of one lookup. *)
Definition lookup_statements (entity_tag embedding_field entity_id : string)
  : list EntityEmbedding.statement :=
  [EntityEmbedding.UseSpace EntityEmbedding.NEBULA_GRAPH_SPACE;
   EntityEmbedding.FetchField entity_tag entity_id embedding_field].

(** ** A mock embedding service *)

Module MockEmbedding.

Import EntityEmbedding.

(** Every vertex whose id starts with ["player"] has the embedding of code
    [7]; no other vertex is known. *)
Definition ask (session : unit) (q : statement) : response * unit :=
  match q with
  | UseSpace _ => (Response true [], session)
  | FetchField _ entity_id _ =>
      if String.prefix "player" entity_id
      then (Response true [[VDouble 7]], session)
      else (Response true [], session)
  end.

End MockEmbedding.

(** ** The agent's graph adapter *)

Module GraphAdapter.

(** An entry of [sources]; its [score] is the constant [1.0]. *)
Record source : Type := Source {
  doc_id : string;
  title : string;
  snippet : string
}.

Section Adapter.

Context {Session : Type} (execute : Session → query → response * Session).

(** [fetch_subgraph_summary]: the answer, the sources and the
    ["graph_vid"] entry of the meta dictionary. *)
Definition fetch_subgraph_summary (session : Session) (vid : string)
  : result (string * list source * string * Session) :=
  '(subgraph, session) ←
    sample_subgraph execute session vid 1 "basketballplayer" true 128;
  let nodes := idx_to_vid subgraph in
  let num_edges := length (edge_index subgraph) in
  let answer :=
    "Fetched 1-hop subgraph for " +:+ vid +:+ " with "
    +:+ pretty (length nodes) +:+ " nodes and " +:+ pretty num_edges
    +:+ " edges." in
  let sources :=
    [Source vid "graph_subgraph"
            ("nodes=" +:+ pretty (length nodes) +:+ ", edges="
             +:+ pretty num_edges)] in
  Ok (answer, sources, vid, session).

End Adapter.

End GraphAdapter.

(** The text of the summary for [nodes] vertices and [num_edges]
    columns. *)
Definition summary_text (vid : string) (nodes num_edges : nat) : string :=
  "Fetched 1-hop subgraph for " +:+ vid +:+ " with " +:+ pretty nodes
  +:+ " nodes and " +:+ pretty num_edges +:+ " edges.".

(* ================================================================== *)
(** * Properties *)

(** ** The error monad *)

Lemma bind_Ok {A B} (m : result A) (f : A → result B) b :
  m ≫= f = Ok b ↔ ∃ a, m = Ok a ∧ f a = Ok b.
Proof.
  destruct m as [a|e]; simpl; split.
  - intros Hf. exists a. split; [reflexivity|exact Hf].
  - intros (a' & Ha & Hf). injection Ha as ->. exact Hf.
  - intros Hf. discriminate Hf.
  - intros (a' & Ha & _). discriminate Ha.
Qed.

Lemma bind_Raise {A B} (m : result A) (f : A → result B) e :
  m ≫= f = Raise e ↔ m = Raise e ∨ ∃ a, m = Ok a ∧ f a = Raise e.
Proof.
  destruct m as [a|e']; simpl; split.
  - intros Hf. right. exists a. split; [reflexivity|exact Hf].
  - intros [Hm|(a' & Ha & Hf)]; [discriminate Hm|].
    injection Ha as ->. exact Hf.
  - intros Hf. left. injection Hf as ->. reflexivity.
  - intros [Hm|(a' & Ha & _)]; [|discriminate Ha].
    injection Hm as ->. reflexivity.
Qed.

(** ** The id registry *)

Lemma get_vid_idx_known self vid idx :
  _vid_to_idx_map self !! vid = Some idx → _get_vid_idx self vid = (idx, self).
Proof. intros H. unfold _get_vid_idx. by rewrite H. Qed.

Lemma get_vid_idx_new self vid :
  _vid_to_idx_map self !! vid = None →
  _get_vid_idx self vid =
    (length (_idx_to_vid_map self),
     Sampler (<[vid := length (_idx_to_vid_map self)]> (_vid_to_idx_map self))
             (_idx_to_vid_map self ++ [vid])
             (_edge_indices self) (_node_types self)).
Proof. intros H. unfold _get_vid_idx. by rewrite H. Qed.

Lemma get_vid_idx_lookup self vid :
  _vid_to_idx_map (_get_vid_idx self vid).2 !! vid
  = Some (_get_vid_idx self vid).1.
Proof.
  destruct (_vid_to_idx_map self !! vid) as [idx|] eqn:E.
  - by rewrite (get_vid_idx_known _ _ _ E).
  - rewrite (get_vid_idx_new _ _ E). simpl. apply lookup_insert_eq.
Qed.

Lemma get_vid_idx_twice self vid :
  _get_vid_idx (_get_vid_idx self vid).2 vid = _get_vid_idx self vid.
Proof.
  rewrite (get_vid_idx_known _ _ _ (get_vid_idx_lookup self vid)).
  by destruct (_get_vid_idx self vid).
Qed.

Lemma registry_ok_reset : registry_ok reset.
Proof. intros vid idx. simpl. by rewrite lookup_empty, lookup_nil. Qed.

Lemma registry_ok_get_vid_idx self vid :
  registry_ok self → registry_ok (_get_vid_idx self vid).2.
Proof.
  intros Hok. destruct (_vid_to_idx_map self !! vid) as [i|] eqn:E.
  - by rewrite (get_vid_idx_known _ _ _ E).
  - rewrite (get_vid_idx_new _ _ E). intros v i. simpl.
    destruct (decide (vid = v)) as [->|Hne].
    + rewrite lookup_insert_eq. split.
      * intros [= <-]. by apply list_lookup_middle.
      * intros Hl. f_equal.
        destruct (decide (i < length (_idx_to_vid_map self))) as [Hlt|Hge].
        -- rewrite lookup_app_l in Hl by done.
           apply Hok in Hl. congruence.
        -- apply lookup_lt_Some in Hl. rewrite length_app in Hl. simpl in Hl. lia.
    + rewrite lookup_insert_ne by done. rewrite (Hok v i). split.
      * intros Hl. rewrite lookup_app_l; [done|by eapply lookup_lt_Some].
      * intros Hl.
        destruct (decide (i < length (_idx_to_vid_map self))) as [Hlt|Hge].
        -- by rewrite lookup_app_l in Hl.
        -- rewrite lookup_app_r in Hl by lia.
           apply list_lookup_singleton_Some in Hl as [_ ?]. congruence.
Qed.

Lemma registry_ok_elem self vid :
  registry_ok self →
  vid ∈ _idx_to_vid_map self ↔ is_Some (_vid_to_idx_map self !! vid).
Proof.
  intros Hok. rewrite list_elem_of_lookup. split.
  - intros [i Hi]. exists i. by apply Hok.
  - intros [i Hi]. exists i. by apply Hok.
Qed.

Lemma filter_all {A} (P : A → Prop) `{∀ x, Decision (P x)} (l : list A) :
  (∀ x, x ∈ l → P x) → filter P l = l.
Proof.
  induction l as [|x l IH]; intros Hall; [done|].
  rewrite filter_cons_True by (apply Hall; left).
  f_equal. apply IH. intros y Hy. apply Hall. by right.
Qed.

Lemma filter_fresh_snoc (l0 : list string) (vid : string) (l : list string) :
  filter (λ v, v ∉ l0 ++ [vid]) l = filter (λ v, v ∉ l0) (filter (λ u, u ≠ vid) l).
Proof.
  rewrite list_filter_filter. apply list_filter_iff. intros v.
  rewrite elem_of_app, list_elem_of_singleton. tauto.
Qed.

Lemma filter_fresh_known (l0 : list string) (vid : string) (l : list string) :
  vid ∈ l0 →
  filter (λ v, v ∉ l0) (filter (λ u, u ≠ vid) l) = filter (λ v, v ∉ l0) l.
Proof.
  intros Hin. rewrite list_filter_filter. apply list_filter_iff. intros v.
  split; [tauto|]. intros Hv. split; [done|]. by intros ->.
Qed.

Lemma get_vid_idx_seq_spec vids : ∀ s0,
  registry_ok s0 →
  registry_ok (get_vid_idx_seq s0 vids).2 ∧
  _idx_to_vid_map (get_vid_idx_seq s0 vids).2
  = _idx_to_vid_map s0 ++ filter (λ v, v ∉ _idx_to_vid_map s0) (distinct vids) ∧
  (∀ j vid, vids !! j = Some vid →
     ∃ idx, (get_vid_idx_seq s0 vids).1 !! j = Some idx ∧
            _idx_to_vid_map (get_vid_idx_seq s0 vids).2 !! idx = Some vid).
Proof.
  induction vids as [|v rest IH]; intros s0 Hok.
  - simpl. split; [done|]. split; [by rewrite app_nil_r|]. by intros j vid.
  - simpl. pose proof (registry_ok_get_vid_idx s0 v Hok) as Hok1.
    pose proof (get_vid_idx_lookup s0 v) as Hv.
    destruct (_get_vid_idx s0 v) as [idx s1] eqn:E1. simpl in Hok1, Hv.
    destruct (IH s1 Hok1) as (Hok2 & Hl & Hidx).
    destruct (get_vid_idx_seq s1 rest) as [idxs s2] eqn:E2. simpl in *.
    split; [done|]. split.
    + rewrite Hl. unfold _get_vid_idx in E1.
      destruct (_vid_to_idx_map s0 !! v) as [i|] eqn:E.
      * injection E1 as <- <-.
        assert (v ∈ _idx_to_vid_map s0) as Hin
          by (apply registry_ok_elem; eauto).
        rewrite filter_cons_False by (intros Hn; by apply Hn).
        by rewrite filter_fresh_known.
      * injection E1 as <- <-. simpl.
        assert (v ∉ _idx_to_vid_map s0) as Hnin.
        { rewrite registry_ok_elem by done. rewrite E. by intros [? ?]. }
        rewrite filter_cons_True by done.
        rewrite filter_fresh_snoc. by rewrite <- app_assoc.
    + intros [|j] vid Hj; simpl in *.
      * injection Hj as <-. exists idx. split; [done|].
        apply Hok1 in Hv. rewrite Hl. by apply lookup_app_l_Some.
      * by apply Hidx.
Qed.

(** C7.  [_get_vid_idx] is idempotent: a second call with the same vid
    returns the same index and leaves the registry as the first call left it.
    A vid that is not registered yet gets the current registry size as its
    index and is appended to the index-to-vid list.  Hence, after any
    sequence of calls in one session (from the reset registry), the
    index-to-vid list holds the distinct vids in first-seen order, the two
    halves of the registry are inverse to each other (indices are exactly
    the positions [0 .. n-1]), and each call returned the position of its
    vid. *)
Theorem get_vid_idx_registry :
  (∀ self vid,
     _get_vid_idx (_get_vid_idx self vid).2 vid = _get_vid_idx self vid) ∧
  (∀ self vid,
     _vid_to_idx_map self !! vid = None →
     (_get_vid_idx self vid).1 = length (_idx_to_vid_map self) ∧
     _idx_to_vid_map (_get_vid_idx self vid).2 = _idx_to_vid_map self ++ [vid]) ∧
  (∀ vids,
     let session := get_vid_idx_seq reset vids in
     _idx_to_vid_map session.2 = distinct vids ∧
     registry_ok session.2 ∧
     ∀ j vid, vids !! j = Some vid →
       ∃ idx, session.1 !! j = Some idx ∧
              _idx_to_vid_map session.2 !! idx = Some vid ∧
              _vid_to_idx_map session.2 !! vid = Some idx).
Proof.
  split; [exact get_vid_idx_twice|]. split.
  - intros self vid Hnew. by rewrite (get_vid_idx_new _ _ Hnew).
  - intros vids session.
    destruct (get_vid_idx_seq_spec vids reset registry_ok_reset)
      as (Hok & Hl & Hidx).
    split.
    + unfold session. rewrite Hl. simpl. apply filter_all.
      intros v _. apply not_elem_of_nil.
    + split; [done|]. intros j vid Hj.
      destruct (Hidx j vid Hj) as (idx & H1 & H2).
      exists idx. split; [done|]. split; [done|]. by apply Hok.
Qed.

(** The calls ["a"; "b"; "a"; "c"; "b"] return [0; 1; 0; 2; 1]. *)
Lemma get_vid_idx_registry_witness :
  ((_get_vid_idx reset "a").1 = length (_idx_to_vid_map reset) ∧
   _idx_to_vid_map (_get_vid_idx reset "a").2 = _idx_to_vid_map reset ++ ["a"]) ∧
  (get_vid_idx_seq reset ["a"; "b"; "a"; "c"; "b"]).1 = [0; 1; 0; 2; 1] ∧
  _idx_to_vid_map (get_vid_idx_seq reset ["a"; "b"; "a"; "c"; "b"]).2
  = ["a"; "b"; "c"] ∧
  ∃ idx, (get_vid_idx_seq reset ["a"; "b"; "a"; "c"; "b"]).1 !! 3 = Some idx ∧
         _idx_to_vid_map (get_vid_idx_seq reset ["a"; "b"; "a"; "c"; "b"]).2
           !! idx = Some "c" ∧
         _vid_to_idx_map (get_vid_idx_seq reset ["a"; "b"; "a"; "c"; "b"]).2
           !! "c" = Some idx.
Proof.
  destruct get_vid_idx_registry as (_ & Hnew & Hseq).
  split; [apply (Hnew reset "a"); reflexivity|].
  split; [by vm_compute|].
  destruct (Hseq ["a"; "b"; "a"; "c"; "b"]) as (Hl & _ & Hidx).
  split; [exact Hl|].
  apply (Hidx 3 "c"). reflexivity.
Defined.

(** ** The feature store *)

Section StoreProperties.

Import FeatureStore.

Context {tensor index : Type}.
Context (getitem : tensor → index → tensor).
Context (setitem : tensor → index → tensor → tensor).
Context (zeros_like_index : index → tensor → tensor).
Context (empty_tensor : tensor).
Context (remote_features : string → string → index → tensor).

Lemma put_tensor_whole (self : store) group name (t : tensor) :
  _put_tensor setitem zeros_like_index self group name t None
  = (true,
     Store (<[(group, name) := t]> (_tensor_cache self))
           (<[group := {[name]} ∪ default ∅ (_tensor_attrs self !! group)]>
              (_tensor_attrs self))).
Proof. reflexivity. Qed.

Lemma remove_tensor_present (self : store (tensor:=tensor)) group name attrs :
  is_Some (_tensor_cache self !! (group, name)) →
  _tensor_attrs self !! group = Some attrs → name ∈ attrs →
  _remove_tensor self group name
  = (true, Store (delete (group, name) (_tensor_cache self))
                 (<[group := attrs ∖ {[name]}]> (_tensor_attrs self))).
Proof.
  intros Hc Ha Hin. unfold _remove_tensor.
  rewrite bool_decide_eq_true_2 by (by apply elem_of_dom).
  rewrite Ha. by rewrite bool_decide_eq_true_2.
Qed.

Lemma remove_tensor_absent (self : store (tensor:=tensor)) group name :
  _tensor_cache self !! (group, name) = None →
  _remove_tensor self group name = (false, self).
Proof.
  intros Hnone. unfold _remove_tensor.
  rewrite bool_decide_eq_false_2; [done|].
  rewrite elem_of_dom, Hnone. by intros [? ?].
Qed.

(** C10.  After [_put_tensor(group, name, tensor)] without an index (which
    returns [True]), [_get_tensor(group, name, None)] is the stored tensor and
    [get_all_tensor_attrs] lists [name] under [group].  [_remove_tensor] then
    returns [True], and leaves neither the tensor in the cache nor [name]
    among the attributes of [group]; a second [_remove_tensor] returns
    [False] and leaves the store as it is. *)
Theorem tensor_cache_round_trip (self : store) (group name : string)
    (t : tensor) :
  let put := _put_tensor setitem zeros_like_index self group name t None in
  let removed := _remove_tensor put.2 group name in
  put.1 = true ∧
  _get_tensor getitem empty_tensor remote_features put.2 group name None = t ∧
  (∃ names, get_all_tensor_attrs put.2 !! group = Some names ∧ name ∈ names) ∧
  removed.1 = true ∧
  _tensor_cache removed.2 !! (group, name) = None ∧
  _get_tensor getitem empty_tensor remote_features removed.2 group name None
  = empty_tensor ∧
  (∃ names, get_all_tensor_attrs removed.2 !! group = Some names ∧
            name ∉ names) ∧
  _remove_tensor removed.2 group name = (false, removed.2).
Proof.
  intros put removed. subst removed put. rewrite put_tensor_whole. simpl.
  set (attrs := {[name]} ∪ default ∅ (_tensor_attrs self !! group)).
  rewrite (remove_tensor_present _ group name attrs);
    [|simpl; rewrite lookup_insert_eq; by eexists
     |simpl; by rewrite lookup_insert_eq
     |set_solver].
  simpl. split; [done|]. split.
  { unfold _get_tensor. simpl. by rewrite lookup_insert_eq. }
  split.
  { exists (elements attrs). unfold get_all_tensor_attrs. simpl.
    rewrite lookup_fmap, lookup_insert_eq. split; [done|].
    apply elem_of_elements. set_solver. }
  split; [done|]. split; [apply lookup_delete_eq|]. split.
  { unfold _get_tensor. simpl. by rewrite lookup_delete_eq. }
  split.
  { exists (elements (attrs ∖ {[name]})). unfold get_all_tensor_attrs. simpl.
    rewrite lookup_fmap, lookup_insert_eq. split; [done|].
    rewrite elem_of_elements. set_solver. }
  apply remove_tensor_absent. simpl. apply lookup_delete_eq.
Qed.

End StoreProperties.

(** ** The search loop *)

Lemma subscript_Ok {A} (l : list A) i a :
  subscript l i = Ok a ↔ l !! i = Some a.
Proof.
  unfold subscript. destruct (l !! i); split; intros H; by simplify_eq.
Qed.

Lemma subscript_Raise {A} (l : list A) i e :
  subscript l i = Raise e → e = IndexError ∧ length l ≤ i.
Proof.
  unfold subscript. destruct (l !! i) eqn:E; intros H; simplify_eq.
  split; [done|]. by apply lookup_ge_None.
Qed.

(** The effect of the loop body on one neighbour, in its three cases. *)
Lemma visit_neighbor_cases idx_to_vid p qv n :
  visit_neighbor idx_to_vid p qv n =
    if bool_decide (n ∉ qv.2 ∨ length p ≤ 2) then
      match idx_to_vid !! n with
      | Some vid =>
          Ok (qv.1 ++ [(n, p ++ [vid])],
              if bool_decide (2 < length p) then {[n]} ∪ qv.2 else qv.2)
      | None => Raise IndexError
      end
    else Ok qv.
Proof.
  unfold visit_neighbor, subscript.
  destruct (decide (n ∉ qv.2 ∨ length p ≤ 2)) as [H|H].
  - rewrite (bool_decide_eq_true_2 _ H).
    assert (bool_decide (n ∉ qv.2) || bool_decide (length p ≤ 2) = true) as ->
      by (apply orb_true_iff; by rewrite !bool_decide_eq_true).
    by destruct (idx_to_vid !! n).
  - rewrite (bool_decide_eq_false_2 _ H).
    assert (bool_decide (n ∉ qv.2) || bool_decide (length p ≤ 2) = false) as ->
      by (apply orb_false_iff; rewrite !bool_decide_eq_false; tauto).
    done.
Qed.

Lemma visit_neighbors_spec idx_to_vid p ns : ∀ qv qv',
  visit_neighbors idx_to_vid p qv ns = Ok qv' →
  ∃ new, qv'.1 = qv.1 ++ new ∧ length new ≤ length ns ∧
         Forall (λ item : nat * path, length item.2 = S (length p)) new ∧
         qv.2 ⊆ qv'.2.
Proof.
  induction ns as [|n ns IH]; intros qv qv' H; simpl in H.
  - simplify_eq. exists []. rewrite app_nil_r. by repeat split.
  - destruct (visit_neighbor idx_to_vid p qv n) as [qv1|e] eqn:E1;
      simpl in H; [|done].
    destruct (IH _ _ H) as (new & Hq & Hlen & Hall & Hsub).
    rewrite visit_neighbor_cases in E1. case_bool_decide.
    + destruct (idx_to_vid !! n) as [vid|]; [|done]. simplify_eq. simpl in *.
      exists ((n, p ++ [vid]) :: new). rewrite Hq, <- app_assoc. simpl.
      split; [done|]. split; [lia|]. split.
      * constructor; [|done]. simpl. rewrite length_app. simpl. lia.
      * case_bool_decide; set_solver.
    + simplify_eq. exists new. repeat split; [done|simpl; lia|done|done].
Qed.

Lemma visit_neighbors_Raise idx_to_vid p ns : ∀ qv e,
  visit_neighbors idx_to_vid p qv ns = Raise e →
  e = IndexError ∧ ∃ n, n ∈ ns ∧ length idx_to_vid ≤ n.
Proof.
  induction ns as [|n ns IH]; intros qv e H; simpl in H; [done|].
  destruct (visit_neighbor idx_to_vid p qv n) as [qv1|e1] eqn:E1; simpl in H.
  - destruct (IH _ _ H) as (-> & m & Hm & Hlen).
    split; [done|]. exists m. split; [by right|done].
  - rewrite visit_neighbor_cases in E1. simplify_eq.
    case_bool_decide; [|done].
    destruct (idx_to_vid !! n) eqn:El; [done|]. simplify_eq.
    split; [done|]. exists n. split; [left|by apply lookup_ge_None].
Qed.

Lemma add_adj_lookup adj_list e i :
  add_adj adj_list e !! i =
    if decide (e.1 = i) then Some (default [] (adj_list !! i) ++ [e.2])
    else adj_list !! i.
Proof.
  unfold add_adj. destruct (decide (e.1 = i)) as [<-|Hne].
  - apply lookup_insert_eq.
  - by apply lookup_insert_ne.
Qed.

(** Every adjacency list is the list of the targets, in order, of the edges
    that leave its vertex. *)
Lemma build_adj_lookup edge_index i :
  default [] (build_adj edge_index !! i)
  = (filter (λ e : nat * nat, e.1 = i) edge_index).*2.
Proof.
  unfold build_adj.
  induction edge_index as [|e es IH] using rev_ind; [done|].
  rewrite foldl_app. simpl. rewrite add_adj_lookup.
  rewrite filter_app, fmap_app, <- IH.
  destruct (decide (e.1 = i)) as [He|He].
  - rewrite filter_cons_True, filter_nil by done. subst i. done.
  - rewrite filter_cons_False, filter_nil by done. by rewrite app_nil_r.
Qed.

Lemma build_adj_width edge_index i :
  length (default [] (build_adj edge_index !! i)) ≤ length edge_index.
Proof.
  rewrite build_adj_lookup, length_fmap. apply length_filter.
Qed.

Lemma build_adj_elem edge_index i n :
  n ∈ default [] (build_adj edge_index !! i) ↔ (i, n) ∈ edge_index.
Proof.
  rewrite build_adj_lookup, list_elem_of_fmap. split.
  - intros ([a b] & -> & Hin). apply list_elem_of_filter in Hin as [Ha Hin].
    simpl in *. by subst.
  - intros Hin. exists (i, n). split; [done|].
    apply list_elem_of_filter. by split.
Qed.

Lemma path_weight_pos width depth len : 0 < path_weight width depth len.
Proof.
  unfold path_weight. pose proof (Nat.pow_nonzero (S width) (depth - len)). lia.
Qed.

Lemma path_weight_succ width depth len :
  len < depth →
  path_weight width depth len = S width * path_weight width depth (S len).
Proof.
  intros Hlt. unfold path_weight.
  replace (depth - len) with (S (depth - S len)) by lia.
  apply Nat.pow_succ_r'.
Qed.

Lemma queue_weight_app width depth q1 q2 :
  queue_weight width depth (q1 ++ q2)
  = queue_weight width depth q1 + queue_weight width depth q2.
Proof.
  unfold queue_weight. by rewrite fmap_app, sum_list_with_app.
Qed.

Lemma queue_weight_children width depth len (new : list (nat * path)) :
  Forall (λ item : nat * path, length item.2 = S len) new →
  queue_weight width depth new = length new * path_weight width depth (S len).
Proof.
  intros Hall. unfold queue_weight. apply sum_list_fmap_same.
  eapply Forall_impl; [exact Hall|]. intros item Hitem.
  cbv beta in *. f_equal. exact Hitem.
Qed.

(** A turn of the loop strictly lowers the weight of the queue. *)
Lemma bfs_turn_weight idx_to_vid edge_index end_idx max_hops st st' :
  bfs_turn idx_to_vid (build_adj edge_index) end_idx max_hops st st' →
  queue_weight (length edge_index) (Z.to_nat (max_hops + 2)) (bfs_queue st')
  < queue_weight (length edge_index) (Z.to_nat (max_hops + 2)) (bfs_queue st).
Proof.
  unfold bfs_turn, bfs_step. intros H.
  destruct (bfs_queue st) as [|[current_idx p] queue] eqn:Eq; [done|].
  set (W := length edge_index) in *. set (D := Z.to_nat (max_hops + 2)) in *.
  assert (queue_weight W D ((current_idx, p) :: queue)
          = path_weight W D (length p) + queue_weight W D queue) as -> by done.
  pose proof (path_weight_pos W D (length p)) as Hpos.
  case_bool_decide; [|done].
  case_bool_decide as Hlong; [simplify_eq; simpl; lia|].
  destruct (decide (current_idx = end_idx)); [simplify_eq; simpl; lia|].
  destruct (visit_neighbors _ _ _ _) as [qv|e] eqn:Ev; simpl in H; [|done].
  simplify_eq. simpl.
  destruct (visit_neighbors_spec _ _ _ _ _ Ev) as (new & -> & Hlen & Hall & _).
  simpl. rewrite queue_weight_app, (queue_weight_children _ _ _ _ Hall).
  rewrite (path_weight_succ W D (length p)) by (unfold D; lia).
  pose proof (build_adj_width edge_index current_idx) as Hw. fold W in Hw.
  pose proof (path_weight_pos W D (S (length p))).
  assert (length new * path_weight W D (S (length p))
          ≤ W * path_weight W D (S (length p)))
    by (apply Nat.mul_le_mono_r; lia).
  lia.
Qed.

Lemma bfs_step_Raise idx_to_vid edge_index end_idx max_hops st e :
  bfs_step idx_to_vid (build_adj edge_index) end_idx max_hops st = Raise e →
  e = IndexError ∧ ∃ i n, (i, n) ∈ edge_index ∧ length idx_to_vid ≤ n.
Proof.
  unfold bfs_step. intros H.
  destruct (bfs_queue st) as [|[current_idx p] queue]; [done|].
  repeat case_bool_decide; try done.
  destruct (decide (current_idx = end_idx)) as [|Hne]; [done|].
  destruct (visit_neighbors _ _ _ _) as [qv|e'] eqn:Ev; simpl in H; [done|].
  simplify_eq.
  destruct (visit_neighbors_Raise _ _ _ _ _ Ev) as (-> & n & Hn & Hlen).
  split; [done|]. exists current_idx, n. split; [|done].
  by apply build_adj_elem.
Qed.

(** With fuel above the weight of the queue the loop comes to its end: it
    returns, or raises the [IndexError] of an edge that points outside the
    index-to-vid list. *)
Lemma bfs_loop_terminates idx_to_vid edge_index end_idx max_hops fuel : ∀ st,
  queue_weight (length edge_index) (Z.to_nat (max_hops + 2)) (bfs_queue st)
  < fuel →
  match bfs_loop fuel idx_to_vid (build_adj edge_index) end_idx max_hops st with
  | Ok _ => True
  | Raise e =>
      e = IndexError ∧ ∃ i n, (i, n) ∈ edge_index ∧ length idx_to_vid ≤ n
  end.
Proof.
  induction fuel as [|fuel IH]; intros st Hfuel; [lia|]. simpl.
  destruct (bfs_step _ _ _ _ st) as [[st'|ps]|e] eqn:Es; simpl.
  - apply IH. apply bfs_turn_weight in Es. lia.
  - done.
  - by eapply bfs_step_Raise.
Qed.

Lemma bfs_turn_inv idx_to_vid adj_list end_idx max_hops st st' :
  bfs_inv max_hops st →
  bfs_turn idx_to_vid adj_list end_idx max_hops st st' →
  bfs_inv max_hops st'.
Proof.
  unfold bfs_turn, bfs_step. intros (Hq & Hp & Hn) H.
  destruct (bfs_queue st) as [|[current_idx p] queue]; [done|].
  apply Forall_cons in Hq as [Hne Hq]. simpl in Hne.
  case_bool_decide as Hfew; [|done].
  case_bool_decide as Hlong; [by simplify_eq|].
  destruct (decide (current_idx = end_idx)).
  - simplify_eq. repeat split; simpl; [done| |rewrite length_app; simpl; lia].
    apply Forall_app. split; [done|]. constructor; [|done].
    split; [|lia]. destruct p; [done|simpl; lia].
  - destruct (visit_neighbors _ _ _ _) as [qv|e] eqn:Ev; simpl in H; [|done].
    simplify_eq.
    destruct (visit_neighbors_spec _ _ _ _ _ Ev) as (new & Hnew & _ & Hall & _).
    repeat split; simpl; [|done|done].
    rewrite Hnew. simpl. apply Forall_app. split; [done|].
    eapply Forall_impl; [exact Hall|]. intros [i q] Hlen Hnil.
    simpl in *. by subst q.
Qed.

Lemma bfs_turn_visited idx_to_vid adj_list end_idx max_hops st st' :
  bfs_turn idx_to_vid adj_list end_idx max_hops st st' →
  bfs_visited st ⊆ bfs_visited st'.
Proof.
  unfold bfs_turn, bfs_step. intros H.
  destruct (bfs_queue st) as [|[current_idx p] queue]; [done|].
  case_bool_decide; [|done].
  case_bool_decide; [by simplify_eq|].
  destruct (decide (current_idx = end_idx)); [by simplify_eq|].
  destruct (visit_neighbors _ _ _ _) as [qv|e] eqn:Ev; simpl in H; [|done].
  simplify_eq.
  by destruct (visit_neighbors_spec _ _ _ _ _ Ev) as (new & _ & _ & _ & Hsub).
Qed.

Lemma bfs_turns_visited idx_to_vid adj_list end_idx max_hops st st' :
  rtc (bfs_turn idx_to_vid adj_list end_idx max_hops) st st' →
  bfs_visited st ⊆ bfs_visited st'.
Proof.
  induction 1 as [|st1 st2 st3 H12 _ IH]; [done|].
  apply bfs_turn_visited in H12. set_solver.
Qed.

Lemma bfs_step_Return idx_to_vid adj_list end_idx max_hops st ps :
  bfs_step idx_to_vid adj_list end_idx max_hops st = Ok (Return ps) →
  ps = bfs_paths st.
Proof.
  unfold bfs_step. intros H.
  destruct (bfs_queue st) as [|[current_idx p] queue]; [by simplify_eq|].
  case_bool_decide; [|by simplify_eq].
  case_bool_decide; [done|].
  destruct (decide (current_idx = end_idx)); [done|].
  by destruct (visit_neighbors _ _ _ _).
Qed.

Lemma bfs_loop_inv idx_to_vid adj_list end_idx max_hops fuel : ∀ st ps,
  bfs_inv max_hops st →
  bfs_loop fuel idx_to_vid adj_list end_idx max_hops st = Ok ps →
  Forall (λ p : path, 1 ≤ length p ∧ (Z.of_nat (length p) ≤ max_hops + 1)%Z) ps
  ∧ length ps ≤ 5.
Proof.
  induction fuel as [|fuel IH]; intros st ps Hinv H; [done|]. simpl in H.
  destruct (bfs_step _ _ _ _ st) as [[st'|ps']|e] eqn:Es; simpl in H; [| |done].
  - eapply IH; [|exact H]. by eapply bfs_turn_inv.
  - simplify_eq. apply bfs_step_Return in Es as ->. by destruct Hinv as (_ & ? & ?).
Qed.

Lemma find_paths_bfs_paths sg start_entity end_entity max_hops ps :
  find_paths_bfs sg start_entity end_entity max_hops = Ok ps →
  Forall (λ p : path, 1 ≤ length p ∧ (Z.of_nat (length p) ≤ max_hops + 1)%Z) ps
  ∧ length ps ≤ 5.
Proof.
  unfold find_paths_bfs. intros H.
  destruct (vid_to_idx sg !! start_entity) as [start_idx|];
    [|simplify_eq; split; [constructor|simpl; lia]].
  destruct (vid_to_idx sg !! end_entity) as [end_idx|];
    [|simplify_eq; split; [constructor|simpl; lia]].
  eapply bfs_loop_inv; [|exact H].
  repeat split; simpl; [|constructor|lia].
  by constructor.
Qed.

Lemma find_paths_bfs_returns sg start_entity end_entity max_hops :
  match find_paths_bfs sg start_entity end_entity max_hops with
  | Ok _ => True
  | Raise e => e = IndexError ∧ ¬ edges_in_range sg
  end.
Proof.
  unfold find_paths_bfs.
  destruct (vid_to_idx sg !! start_entity) as [start_idx|]; [|done].
  destruct (vid_to_idx sg !! end_entity) as [end_idx|]; [|done].
  pose proof (bfs_loop_terminates (idx_to_vid sg) (edge_index sg) end_idx
                max_hops (bfs_fuel (edge_index sg) max_hops)
                (Bfs [(start_idx, [start_entity])] {[start_idx]} [])) as Hterm.
  destruct (bfs_loop _ _ _ _ _ _) as [ps|e]; [done|].
  destruct Hterm as (-> & i & n & Hin & Hlen).
  { unfold bfs_fuel, queue_weight. simpl. lia. }
  split; [done|]. intros Hrange.
  unfold edges_in_range in Hrange. rewrite Forall_forall in Hrange.
  apply Hrange in Hin. simpl in Hin. lia.
Qed.

(** C4.  In the expansion loop of [find_paths_bfs], a neighbour [n] (whose
    vid is [vid]) of the current vertex is appended to the queue, with the
    current path extended by [vid], exactly when [n] is not in the visited
    set or the current path has at most two vertices; otherwise queue and
    visited set stay as they are.  When the current path has more than two
    vertices, an appended neighbour is added to the visited set (and only
    then), so [n] is in the visited set afterwards; the visited set never
    shrinks over later turns of the loop, so no later expansion from a path
    of more than two vertices appends [n] again. *)
Theorem bfs_revisit_policy (idx_to_vid : list string) (p : path)
    (queue : list (nat * path)) (visited : gset nat) (n : nat) (vid : string) :
  idx_to_vid !! n = Some vid →
  (n ∉ visited ∨ length p ≤ 2 →
     visit_neighbor idx_to_vid p (queue, visited) n
     = Ok (queue ++ [(n, p ++ [vid])],
           if bool_decide (2 < length p) then {[n]} ∪ visited else visited)) ∧
  (¬ (n ∉ visited ∨ length p ≤ 2) →
     visit_neighbor idx_to_vid p (queue, visited) n = Ok (queue, visited)) ∧
  (2 < length p →
     ∃ qv, visit_neighbor idx_to_vid p (queue, visited) n = Ok qv ∧ n ∈ qv.2) ∧
  (∀ adj_list end_idx max_hops st st' p' queue',
     n ∈ bfs_visited st →
     rtc (bfs_turn idx_to_vid adj_list end_idx max_hops) st st' →
     2 < length p' →
     visit_neighbor idx_to_vid p' (queue', bfs_visited st') n
     = Ok (queue', bfs_visited st')).
Proof.
  intros Hvid. repeat split.
  - intros Hc. rewrite visit_neighbor_cases. simpl.
    by rewrite bool_decide_eq_true_2, Hvid.
  - intros Hc. rewrite visit_neighbor_cases. simpl.
    by rewrite bool_decide_eq_false_2.
  - intros Hlong. rewrite visit_neighbor_cases. simpl. rewrite Hvid.
    case_bool_decide as Hc.
    + eexists. split; [done|]. simpl.
      rewrite bool_decide_eq_true_2 by done. set_solver.
    + eexists. split; [done|]. simpl.
      destruct (decide (n ∈ visited)); [done|]. exfalso. apply Hc. by left.
  - intros adj_list end_idx max_hops st st' p' queue' Hin Hturns Hlong.
    apply bfs_turns_visited in Hturns.
    rewrite visit_neighbor_cases. simpl.
    rewrite bool_decide_eq_false_2; [done|].
    intros [Hn|Hshort]; [|lia]. apply Hn. set_solver.
Qed.

(** On the eight-vertex subgraph: from the three-vertex path
    [player0; team2; player0], neighbour [1] ([team2]) is appended and
    marked when only the start is visited, and is not appended once
    marked, also from another path of more than two vertices. *)
Lemma bfs_revisit_policy_witness :
  visit_neighbor ["player0"; "team2"; "player1"; "team0"]
    ["player0"; "team2"; "player0"] ([], {[0]}) 1
  = Ok ([(1, ["player0"; "team2"; "player0"; "team2"])], {[1]} ∪ {[0]}) ∧
  visit_neighbor ["player0"; "team2"; "player1"; "team0"]
    ["player0"; "team2"; "player0"] ([], {[1; 0]}) 1
  = Ok ([], {[1; 0]}) ∧
  (∃ qv, visit_neighbor ["player0"; "team2"; "player1"; "team0"]
           ["player0"; "team2"; "player0"] ([], {[0]}) 1 = Ok qv ∧ 1 ∈ qv.2) ∧
  visit_neighbor ["player0"; "team2"; "player1"; "team0"]
    ["player0"; "player1"; "player0"] ([], {[1; 0]}) 1
  = Ok ([], {[1; 0]}).
Proof.
  pose proof (bfs_revisit_policy ["player0"; "team2"; "player1"; "team0"]
                ["player0"; "team2"; "player0"] [] {[0]} 1 "team2" eq_refl)
    as (Happend & _ & Hmarked & _).
  pose proof (bfs_revisit_policy ["player0"; "team2"; "player1"; "team0"]
                ["player0"; "team2"; "player0"] [] {[1; 0]} 1 "team2" eq_refl)
    as (_ & Hskip & _ & Hlater).
  split; [|split; [|split]].
  - apply Happend. left. by vm_compute.
  - apply Hskip. intros [Hn|Hs]; [apply Hn; by vm_compute|simpl in Hs; lia].
  - apply Hmarked. simpl. lia.
  - pose proof (Hlater ∅ 3 3%Z (Bfs [] {[1; 0]} []) (Bfs [] {[1; 0]} [])
                  ["player0"; "player1"; "player0"] []) as Hl.
    cbn [bfs_visited] in Hl. apply Hl.
    + by vm_compute.
    + apply rtc_refl.
    + simpl. lia.
Defined.

(** ** The edge index *)

Section DictLemmas.

Context {A : Type}.
Implicit Types (d : list (string * list A)) (k : string) (x : A).

Lemma dict_get_append_eq k x d :
  dict_get k (dict_append k x d) = Some (default [] (dict_get k d) ++ [x]).
Proof.
  induction d as [|[k' l] d IH]; simpl.
  - by rewrite decide_True.
  - destruct (decide (k = k')) as [->|Hne]; simpl.
    + by rewrite decide_True.
    + by rewrite decide_False.
Qed.

Lemma dict_get_append_ne k k' x d :
  k ≠ k' → dict_get k' (dict_append k x d) = dict_get k' d.
Proof.
  intros Hne. induction d as [|[k0 l] d IH]; simpl.
  - by rewrite decide_False.
  - destruct (decide (k = k0)) as [->|Hne0]; simpl.
    + by rewrite !decide_False.
    + destruct (decide (k' = k0)); [done|]. apply IH.
Qed.

Lemma dict_get_append_ext k k' x d l :
  dict_get k' d = Some l → ∃ l', dict_get k' (dict_append k x d) = Some (l ++ l').
Proof.
  intros Hl. destruct (decide (k = k')) as [->|Hne].
  - rewrite dict_get_append_eq, Hl. simpl. eauto.
  - rewrite dict_get_append_ne by done. exists []. by rewrite app_nil_r.
Qed.

Lemma dict_append_keys k x d :
  (dict_append k x d).*1 = d.*1 ∨
  ((k ∉ d.*1) ∧ (dict_append k x d).*1 = d.*1 ++ [k]).
Proof.
  induction d as [|[k' l] d IH]; csimpl.
  - right. split; [apply not_elem_of_nil|done].
  - destruct (decide (k = k')) as [->|Hne]; csimpl; [by left|].
    destruct IH as [->|[Hnin ->]]; [by left|]. right.
    split; [|done]. rewrite not_elem_of_cons. done.
Qed.

Lemma dict_append_NoDup k x d : NoDup d.*1 → NoDup (dict_append k x d).*1.
Proof.
  intros Hnd. destruct (dict_append_keys k x d) as [->|[Hnin ->]]; [done|].
  apply NoDup_app. split; [done|]. split; [|apply NoDup_singleton].
  intros y Hy Hy'. apply list_elem_of_singleton in Hy'. by subst.
Qed.

Lemma dict_get_Some_elem k l d : dict_get k d = Some l → (k, l) ∈ d.
Proof.
  induction d as [|[k' l'] d IH]; simpl; [done|].
  destruct (decide (k = k')) as [->|Hne].
  - intros [= ->]. left.
  - intros H. right. by apply IH.
Qed.

Lemma dict_get_elem k l d : NoDup d.*1 → (k, l) ∈ d → dict_get k d = Some l.
Proof.
  induction d as [|[k' l'] d IH]; simpl; intros Hnd Hin.
  - by apply elem_of_nil in Hin.
  - apply NoDup_cons in Hnd as [Hnin Hnd].
    apply elem_of_cons in Hin as [[= <- <-]|Hin].
    + by rewrite decide_True.
    + rewrite decide_False; [by apply IH|]. intros ->. apply Hnin.
      apply list_elem_of_fmap. by exists (k', l).
Qed.

Lemma dict_concat_elem x d :
  x ∈ concat d.*2 ↔ ∃ k l, (k, l) ∈ d ∧ x ∈ l.
Proof.
  induction d as [|[k' l'] d IH]; csimpl.
  - split; [by intros ?%elem_of_nil|]. by intros (k & l & ?%elem_of_nil & _).
  - rewrite elem_of_app, IH. split.
    + intros [Hx|(k & l & Hin & Hx)].
      * exists k', l'. split; [left|done].
      * exists k, l. split; [by right|done].
    + intros (k & l & Hin & Hx). apply elem_of_cons in Hin as [[= -> ->]|Hin].
      * by left.
      * right. by exists k, l.
Qed.

Lemma dict_store_lookup (m : gmap string (list A)) d k :
  NoDup d.*1 →
  foldl (λ m kv, <[kv.1 := kv.2]> m) m d !! k
  = match dict_get k d with Some l => Some l | None => m !! k end.
Proof.
  revert m. induction d as [|[k' l] d IH]; intros m Hnd; simpl; [done|].
  apply NoDup_cons in Hnd as [Hnin Hnd]. rewrite IH by done.
  destruct (decide (k = k')) as [->|Hne].
  - destruct (dict_get k' d) as [l'|] eqn:E.
    + exfalso. apply Hnin. apply dict_get_Some_elem in E.
      apply list_elem_of_fmap. by exists (k', l').
    + apply lookup_insert_eq.
  - destruct (dict_get k d); [done|]. by apply lookup_insert_ne.
Qed.

End DictLemmas.

Lemma get_vid_idx_subseteq self vid :
  _vid_to_idx_map self ⊆ _vid_to_idx_map (_get_vid_idx self vid).2.
Proof.
  destruct (_vid_to_idx_map self !! vid) as [idx|] eqn:E.
  - by rewrite (get_vid_idx_known _ _ _ E).
  - rewrite (get_vid_idx_new _ _ E). simpl. by apply insert_subseteq.
Qed.

Lemma get_vid_idx_length self vid :
  length (_idx_to_vid_map self) ≤ length (_idx_to_vid_map (_get_vid_idx self vid).2).
Proof.
  destruct (_vid_to_idx_map self !! vid) as [idx|] eqn:E.
  - by rewrite (get_vid_idx_known _ _ _ E).
  - rewrite (get_vid_idx_new _ _ E). simpl. rewrite length_app. lia.
Qed.

Lemma get_vid_idx_is_Some self vid v :
  is_Some (_vid_to_idx_map (_get_vid_idx self vid).2 !! v)
  ↔ is_Some (_vid_to_idx_map self !! v) ∨ v = vid.
Proof.
  destruct (_vid_to_idx_map self !! vid) as [idx|] eqn:E.
  - rewrite (get_vid_idx_known _ _ _ E). simpl. split; [by left|].
    intros [?| ->]; [done|]. by rewrite E.
  - rewrite (get_vid_idx_new _ _ E). simpl. rewrite lookup_insert_is_Some.
    destruct (decide (vid = v)) as [->|Hne]; [tauto|].
    split; [intros [?|[_ ?]]; [done|by left]|].
    intros [?| ->]; [|done]. by right.
Qed.

Lemma get_vid_idx_other_fields self vid :
  _edge_indices (_get_vid_idx self vid).2 = _edge_indices self ∧
  _node_types (_get_vid_idx self vid).2 = _node_types self.
Proof. unfold _get_vid_idx. by destruct (_vid_to_idx_map self !! vid). Qed.

Lemma registry_ok_lt self vid idx :
  registry_ok self → _vid_to_idx_map self !! vid = Some idx →
  idx < length (_idx_to_vid_map self).
Proof. intros Hok H. apply Hok in H. by eapply lookup_lt_Some. Qed.

Lemma index_le_refl acc : index_le acc acc.
Proof.
  repeat split; [done|]. intros k l H. exists []. by rewrite app_nil_r.
Qed.

Lemma index_le_trans acc1 acc2 acc3 :
  index_le acc1 acc2 → index_le acc2 acc3 → index_le acc1 acc3.
Proof.
  intros (Hm1 & Hd1 & He1 & Hn1) (Hm2 & Hd2 & He2 & Hn2).
  split; [by etrans|]. split; [|split; congruence].
  intros k l H. destruct (Hd1 _ _ H) as (l1 & H1).
  destruct (Hd2 _ _ H1) as (l2 & H2). exists (l1 ++ l2). by rewrite app_assoc.
Qed.

Lemma indexed_le b acc acc' e :
  index_le acc acc' →
  indexed b (_vid_to_idx_map acc.1) acc.2 e →
  indexed b (_vid_to_idx_map acc'.1) acc'.2 e.
Proof.
  intros (Hm & Hd & _) (si & di & l & Hs & Hdst & Hl & Hin & Hrev).
  destruct (Hd _ _ Hl) as (l' & Hl').
  exists si, di, (l ++ l'). split; [by eapply lookup_weaken|].
  split; [by eapply lookup_weaken|]. split; [done|].
  split; [apply elem_of_app; by left|].
  intros Hb. apply elem_of_app. left. by apply Hrev.
Qed.

Lemma dict_get_materialise (b : bool) t (p q : nat * nat) d k :
  dict_get k (if b then dict_append t q (dict_append t p d)
              else dict_append t p d)
  = if decide (t = k)
    then Some (default [] (dict_get k d) ++ p :: (if b then [q] else []))
    else dict_get k d.
Proof.
  destruct (decide (t = k)) as [->|Hne]; destruct b.
  - rewrite !dict_get_append_eq. simpl. by rewrite <- app_assoc.
  - by rewrite dict_get_append_eq.
  - by rewrite !dict_get_append_ne.
  - by rewrite dict_get_append_ne.
Qed.

Lemma NoDup_materialise (b : bool) t (p q : nat * nat) d :
  NoDup d.*1 →
  NoDup (if b then dict_append t q (dict_append t p d)
         else dict_append t p d).*1.
Proof. intros Hnd. destruct b; by repeat apply dict_append_NoDup. Qed.

(** One pass of the edge loop keeps the invariant, only adds, materialises
    its edge, and registers exactly the two ends of the edge. *)
Lemma index_edge_spec b acc e :
  index_inv acc →
  index_inv (index_edge b acc e) ∧
  index_le acc (index_edge b acc e) ∧
  indexed b (_vid_to_idx_map (index_edge b acc e).1) (index_edge b acc e).2 e ∧
  (∀ v, is_Some (_vid_to_idx_map (index_edge b acc e).1 !! v)
        ↔ is_Some (_vid_to_idx_map acc.1 !! v) ∨ endpoint v e).
Proof.
  destruct acc as [self d], e as [[u w] t]. intros (Hok & Hnd & Hrange).
  simpl in Hok, Hnd, Hrange. unfold index_edge. simpl.
  pose proof (registry_ok_get_vid_idx self u Hok) as Hok1.
  pose proof (get_vid_idx_lookup self u) as Hu.
  pose proof (get_vid_idx_subseteq self u) as Hsub1.
  pose proof (get_vid_idx_length self u) as Hlen1.
  pose proof (get_vid_idx_is_Some self u) as Hdom1.
  pose proof (get_vid_idx_other_fields self u) as [He1 Hn1].
  destruct (_get_vid_idx self u) as [si s1]. simpl in *.
  pose proof (registry_ok_get_vid_idx s1 w Hok1) as Hok2.
  pose proof (get_vid_idx_lookup s1 w) as Hw.
  pose proof (get_vid_idx_subseteq s1 w) as Hsub2.
  pose proof (get_vid_idx_length s1 w) as Hlen2.
  pose proof (get_vid_idx_is_Some s1 w) as Hdom2.
  pose proof (get_vid_idx_other_fields s1 w) as [He2 Hn2].
  destruct (_get_vid_idx s1 w) as [di s2]. simpl in *.
  assert (_vid_to_idx_map s2 !! u = Some si) as Hu2
    by (by eapply lookup_weaken).
  pose proof (registry_ok_lt _ _ _ Hok2 Hu2) as Hsi.
  pose proof (registry_ok_lt _ _ _ Hok2 Hw) as Hdi.
  set (d' := if b then _ else _).
  assert (∀ k, dict_get k d'
               = if decide (t = k)
                 then Some (default [] (dict_get k d)
                            ++ (si, di) :: (if b then [(di, si)] else []))
                 else dict_get k d) as Hget
    by (intros k; apply dict_get_materialise).
  split; [|split; [|split]].
  - split; [done|]. split; [by apply NoDup_materialise|]. simpl.
    intros k l p Hl Hp. rewrite Hget in Hl.
    assert (∀ l0, dict_get k d = Some l0 → p ∈ l0 →
                  p.1 < length (_idx_to_vid_map s2) ∧
                  p.2 < length (_idx_to_vid_map s2)) as Hold.
    { intros l0 Hl0 Hp0. destruct (Hrange _ _ _ Hl0 Hp0). lia. }
    destruct (decide (t = k)) as [->|Hne]; [|by eapply Hold].
    injection Hl as <-. apply elem_of_app in Hp as [Hp|Hp].
    + destruct (dict_get k d) as [l0|] eqn:E; simpl in Hp.
      * by eapply Hold.
      * by apply elem_of_nil in Hp.
    + apply elem_of_cons in Hp as [->|Hp]; [done|].
      destruct b; [|by apply elem_of_nil in Hp].
      apply list_elem_of_singleton in Hp as ->. done.
  - split; [by etrans|]. simpl. split; [|split; congruence].
    intros k l Hl. rewrite Hget, Hl. simpl.
    destruct (decide (t = k)); [eauto|]. exists []. by rewrite app_nil_r.
  - exists si, di. eexists. simpl. split; [done|]. split; [done|].
    rewrite Hget, decide_True by done. split; [done|].
    split.
    + apply elem_of_app. right. left.
    + intros ->. apply elem_of_app. right. right. left.
  - intros v. simpl. rewrite Hdom2, Hdom1. unfold endpoint. simpl. tauto.
Qed.

Lemma index_edges_spec b edges : ∀ acc,
  index_inv acc →
  index_inv (foldl (index_edge b) acc edges) ∧
  index_le acc (foldl (index_edge b) acc edges) ∧
  (∀ e, e ∈ edges →
     indexed b (_vid_to_idx_map (foldl (index_edge b) acc edges).1)
               (foldl (index_edge b) acc edges).2 e) ∧
  (∀ v, is_Some (_vid_to_idx_map (foldl (index_edge b) acc edges).1 !! v)
        ↔ is_Some (_vid_to_idx_map acc.1 !! v) ∨ ∃ e, e ∈ edges ∧ endpoint v e).
Proof.
  induction edges as [|e edges IH]; intros acc Hinv; simpl.
  - split; [done|]. split; [apply index_le_refl|]. split.
    + by intros e ?%elem_of_nil.
    + intros v. split; [by left|]. intros [?|(e & ?%elem_of_nil & _)]; done.
  - destruct (index_edge_spec b acc e Hinv) as (Hinv1 & Hle1 & Hind1 & Hdom1).
    destruct (IH _ Hinv1) as (Hinv2 & Hle2 & Hind2 & Hdom2).
    split; [done|]. split; [by eapply index_le_trans|]. split.
    + intros e' [->|Hin]%elem_of_cons; [|by apply Hind2].
      by eapply indexed_le.
    + intros v. rewrite Hdom2, Hdom1. split.
      * intros [[?|?]|(e' & Hin & He')]; [by left| |].
        -- right. exists e. split; [left|done].
        -- right. exists e'. split; [by right|done].
      * intros [?|(e' & [->|Hin]%elem_of_cons & He')].
        -- by left; left.
        -- by left; right.
        -- right. by exists e'.
Qed.

Lemma create_edge_index_spec self edges b :
  registry_ok self →
  let r := _create_edge_index self edges b in
  registry_ok r.2 ∧
  (∀ e, e ∈ edges →
     ∃ src_idx dst_idx l,
       _vid_to_idx_map r.2 !! e.1.1 = Some src_idx ∧
       _vid_to_idx_map r.2 !! e.1.2 = Some dst_idx ∧
       (src_idx, dst_idx) ∈ r.1 ∧ (b = true → (dst_idx, src_idx) ∈ r.1) ∧
       _edge_indices r.2 !! e.2 = Some l ∧
       (src_idx, dst_idx) ∈ l ∧ (b = true → (dst_idx, src_idx) ∈ l)) ∧
  (∀ v, is_Some (_vid_to_idx_map r.2 !! v)
        ↔ is_Some (_vid_to_idx_map self !! v) ∨ ∃ e, e ∈ edges ∧ endpoint v e) ∧
  (∀ p, p ∈ r.1 → p.1 < length (_idx_to_vid_map r.2) ∧
                  p.2 < length (_idx_to_vid_map r.2)) ∧
  _node_types r.2 = _node_types self.
Proof.
  intros Hok r. unfold _create_edge_index in r.
  destruct edges as [|e0 edges].
  { subst r. simpl. split; [done|]. split; [by intros e ?%elem_of_nil|].
    split; [|split; [by intros p ?%elem_of_nil|done]].
    intros v. split; [by left|]. by intros [?|(e & ?%elem_of_nil & _)]. }
  unfold index_edges in r.
  assert (index_inv (self, [])) as Hinv.
  { split; [done|]. split; [constructor|]. by intros k l p. }
  destruct (index_edges_spec b (e0 :: edges) _ Hinv)
    as ((Hok' & Hnd & Hrange) & (_ & _ & _ & Hnt) & Hind & Hdom).
  destruct (foldl (index_edge b) (self, []) (e0 :: edges)) as [self' d]
    eqn:Efold.
  subst r. simpl in *.
  split; [done|]. split; [|split; [done|split; [|done]]].
  - intros e He. destruct (Hind e He) as (si & di & l & Hs & Hd & Hl & Hin & Hrev).
    exists si, di, l. split; [done|]. split; [done|].
    assert (∀ p, p ∈ l → p ∈ concat d.*2) as Hflat.
    { intros p Hp. apply dict_concat_elem. exists e.2, l.
      split; [by apply dict_get_Some_elem|done]. }
    split; [by apply Hflat|]. split; [intros Hb; by apply Hflat, Hrev|].
    split; [|done]. by rewrite dict_store_lookup, Hl.
  - intros p Hp. apply dict_concat_elem in Hp as (k & l & Hkl & Hp).
    eapply Hrange; [|done]. by apply dict_get_elem.
Qed.

Lemma record_labels_registry self vid resp self' :
  record_labels self vid resp = Ok self' → registry_of self' = registry_of self.
Proof.
  unfold record_labels. intros H.
  destruct (_ && _); [|by simplify_eq].
  apply bind_Ok in H as (row0 & _ & H). apply bind_Ok in H as (cell & _ & H).
  apply bind_Ok in H as (labels & _ & H).
  destruct labels as [|l0 ?]; [by simplify_eq|].
  destruct (is_empty l0); [by simplify_eq|].
  apply bind_Ok in H as (ty & _ & H). by simplify_eq.
Qed.

(** ** The retrieval loops leave the registry alone *)

Section SamplingProperties.

Context {Session : Type} (execute : Session → query → response * Session).

Lemma go_rows_registry max_nodes rws : ∀ g g',
  go_rows execute max_nodes rws g = Ok g' →
  registry_of (g_self g') = registry_of (g_self g).
Proof.
  induction rws as [|r rws IH]; intros g g' H; simpl in H; [by simplify_eq|].
  apply bind_Ok in H as (c0 & _ & H). apply bind_Ok in H as (src & _ & H).
  apply bind_Ok in H as (c1 & _ & H). apply bind_Ok in H as (dst & _ & H).
  apply bind_Ok in H as (c2 & _ & H). apply bind_Ok in H as (ty & _ & H).
  apply bind_Ok in H as (g1 & Hg1 & H).
  assert (registry_of (g_self g1) = registry_of (g_self g)) as Hreg.
  { case_bool_decide; [|by simplify_eq].
    destruct (execute _ _) as [type_resp session].
    apply bind_Ok in Hg1 as (self & Hself & Hg1). simplify_eq. simpl.
    by eapply record_labels_registry. }
  destruct (budget_reached _ _); [congruence|].
  rewrite <- Hreg. by apply IH.
Qed.

Lemma go_hops_registry center_vid max_nodes hops : ∀ g g',
  go_hops execute center_vid max_nodes hops g = Ok g' →
  registry_of (g_self g') = registry_of (g_self g).
Proof.
  induction hops as [|hop hops IH]; intros g g' H; simpl in H;
    [by simplify_eq|].
  destruct (execute _ _) as [resp session].
  destruct (is_succeeded resp).
  - apply bind_Ok in H as (g1 & Hg1 & H).
    apply go_rows_registry in Hg1. simpl in Hg1.
    destruct (budget_reached _ _); [congruence|].
    rewrite <- Hg1. by apply IH.
  - by apply IH in H.
Qed.

Lemma subgraph_row_registry r (g g' : gathered Session) :
  subgraph_row r g = Ok g' →
  registry_of (g_self g') = registry_of (g_self g).
Proof.
  unfold subgraph_row. intros H.
  apply bind_Ok in H as (c0 & _ & H). apply bind_Ok in H as (g1 & Hg1 & H).
  assert (registry_of (g_self g1) = registry_of (g_self g)) as Hreg.
  { destruct c0; simpl in Hg1; try by simplify_eq.
    apply bind_Ok in Hg1 as (vid & _ & Hg1).
    apply bind_Ok in Hg1 as (node_type & _ & Hg1). by simplify_eq. }
  rewrite <- Hreg. case_bool_decide; [|by simplify_eq].
  apply bind_Ok in H as (c1 & _ & H).
  destruct c1; try by simplify_eq.
  apply bind_Ok in H as (src & _ & H). apply bind_Ok in H as (dst & _ & H).
  by simplify_eq.
Qed.

Lemma subgraph_rows_registry max_nodes rws : ∀ (g g' : gathered Session),
  subgraph_rows max_nodes rws g = Ok g' →
  registry_of (g_self g') = registry_of (g_self g).
Proof.
  induction rws as [|r rws IH]; intros g g' H; simpl in H; [by simplify_eq|].
  apply bind_Ok in H as (g1 & Hg1 & H). apply subgraph_row_registry in Hg1.
  destruct (budget_reached _ _); [congruence|].
  rewrite <- Hg1. by apply IH.
Qed.

Lemma get_subgraph_data_registry session center_vid n_hops max_nodes g :
  get_subgraph_data execute session center_vid n_hops max_nodes = Ok g →
  registry_of (g_self g) = registry_of reset.
Proof.
  unfold get_subgraph_data. intros H. case_bool_decide.
  - unfold _get_subgraph_using_go in H.
    destruct (execute _ _) as [resp session1].
    apply bind_Ok in H as (self & Hself & H).
    apply record_labels_registry in Hself.
    apply go_hops_registry in H. simpl in H. congruence.
  - unfold _get_subgraph_using_subgraph in H.
    destruct (execute _ _) as [resp session1].
    destruct (is_succeeded resp); [|by simplify_eq].
    by apply subgraph_rows_registry in H.
Qed.

(** What [sample_subgraph] returns, in terms of its retrieval step and of
    [_create_edge_index]. *)
Lemma sample_subgraph_Ok session center_vid n_hops space_name b max_nodes
    sg session' :
  sample_subgraph execute session center_vid n_hops space_name b max_nodes
  = Ok (sg, session') →
  ∃ g, get_subgraph_data execute (execute session (Use space_name)).2
         center_vid n_hops max_nodes = Ok g ∧
       registry_of (g_self g) = registry_of reset ∧
       let r := _create_edge_index (g_self g) (g_edges g) b in
       edge_index sg = r.1 ∧
       vid_to_idx sg = _vid_to_idx_map r.2 ∧
       idx_to_vid sg = _idx_to_vid_map r.2 ∧
       num_nodes sg = length (_idx_to_vid_map r.2) ∧
       center_node_idx sg = default 0 (_vid_to_idx_map r.2 !! center_vid) ∧
       edge_indices_by_type sg = _edge_indices r.2 ∧
       node_types sg = _node_types r.2.
Proof.
  unfold sample_subgraph. intros H.
  destruct (execute session (Use space_name)) as [resp0 session0]. simpl.
  apply bind_Ok in H as (g & Hg & H). exists g. split; [done|].
  split; [by eapply get_subgraph_data_registry|].
  destruct (_create_edge_index _ _ _) as [ei self]. simpl.
  apply bind_Ok in H as ([features session1] & _ & H). by simplify_eq.
Qed.

Lemma registry_ok_of self :
  registry_of self = registry_of reset → registry_ok self.
Proof.
  intros [= Hm Hl _] vid idx. rewrite Hm, Hl. apply registry_ok_reset.
Qed.

(** ** What the sampler returns *)

(** C6.  When [sample_subgraph] is called with [use_bidirectional] set and
    returns a subgraph, every edge [(u, v, t)] discovered by its retrieval
    step is materialised both ways: [u] and [v] have indices, and both the
    pair [(u_idx, v_idx)] and the reversed pair [(v_idx, u_idx)] occur in the
    flattened [edge_index] and in the per-type edge list of [t]. *)
Theorem bidirectional_edges session center_vid n_hops space_name max_nodes
    sg session' :
  sample_subgraph execute session center_vid n_hops space_name true max_nodes
  = Ok (sg, session') →
  ∃ g, get_subgraph_data execute (execute session (Use space_name)).2
         center_vid n_hops max_nodes = Ok g ∧
       ∀ u v t, (u, v, t) ∈ g_edges g →
         ∃ u_idx v_idx l,
           vid_to_idx sg !! u = Some u_idx ∧
           vid_to_idx sg !! v = Some v_idx ∧
           (u_idx, v_idx) ∈ edge_index sg ∧
           (v_idx, u_idx) ∈ edge_index sg ∧
           edge_indices_by_type sg !! t = Some l ∧
           (u_idx, v_idx) ∈ l ∧ (v_idx, u_idx) ∈ l.
Proof.
  intros H. apply sample_subgraph_Ok in H as (g & Hg & Hreg & H).
  exists g. split; [done|].
  destruct H as (-> & -> & _ & _ & _ & -> & _).
  destruct (create_edge_index_spec (g_self g) (g_edges g) true
              (registry_ok_of _ Hreg)) as (_ & Hedges & _).
  intros u v t Huvt.
  destruct (Hedges _ Huvt) as (si & di & l & Hu & Hv & H1 & H2 & Hl & H3 & H4).
  exists si, di, l. simpl in *. repeat split; auto.
Qed.

(** A vid is registered exactly when it is an end of a gathered edge. *)
Lemma sample_subgraph_indexed session center_vid n_hops space_name b max_nodes
    sg session' :
  sample_subgraph execute session center_vid n_hops space_name b max_nodes
  = Ok (sg, session') →
  ∃ g, get_subgraph_data execute (execute session (Use space_name)).2
         center_vid n_hops max_nodes = Ok g ∧
       (∀ v, is_Some (vid_to_idx sg !! v) ↔ ∃ e, e ∈ g_edges g ∧ endpoint v e) ∧
       (∀ v, v ∈ idx_to_vid sg ↔ ∃ e, e ∈ g_edges g ∧ endpoint v e) ∧
       NoDup (idx_to_vid sg) ∧ num_nodes sg = length (idx_to_vid sg).
Proof.
  intros H. apply sample_subgraph_Ok in H as (g & Hg & Hreg & H).
  exists g. split; [done|].
  destruct H as (Hei & Hm & Hl & Hn & Hc & _ & _).
  destruct (create_edge_index_spec (g_self g) (g_edges g) b
              (registry_ok_of _ Hreg)) as (Hok & _ & Hdom & _).
  injection Hreg as Hm0 Hl0 _. simpl in Hm0, Hl0.
  assert (∀ v, is_Some (vid_to_idx sg !! v)
               ↔ ∃ e, e ∈ g_edges g ∧ endpoint v e) as Hidx.
  { intros v. rewrite Hm, Hdom, Hm0, lookup_empty. split.
    - intros [[? ?]|?]; done.
    - by right. }
  split; [done|]. split; [|split].
  - intros v. rewrite <- Hidx, Hl, Hm. by apply registry_ok_elem.
  - rewrite Hl. apply NoDup_alt. intros i j vid Hi Hj.
    apply Hok in Hi, Hj. congruence.
  - by rewrite Hn, Hl.
Qed.

(** C9.  Indices are given to the ends of discovered edges and to nothing
    else: in a returned subgraph a vid has an index (equivalently, occurs in
    [idx_to_vid]) exactly when it is an end of an edge found by the
    retrieval step.  So when no edge is found, the subgraph has
    [num_nodes = 0], empty [vid_to_idx], [idx_to_vid] and [edge_index], the
    center has no index, and [center_node_idx] is the default [0]. *)
Theorem indices_only_for_endpoints session center_vid n_hops space_name
    use_bidirectional max_nodes sg session' :
  sample_subgraph execute session center_vid n_hops space_name
                  use_bidirectional max_nodes = Ok (sg, session') →
  ∃ g, get_subgraph_data execute (execute session (Use space_name)).2
         center_vid n_hops max_nodes = Ok g ∧
       (∀ v, is_Some (vid_to_idx sg !! v) ↔ ∃ e, e ∈ g_edges g ∧ endpoint v e) ∧
       (∀ v, v ∈ idx_to_vid sg ↔ ∃ e, e ∈ g_edges g ∧ endpoint v e) ∧
       (g_edges g = [] →
          num_nodes sg = 0 ∧ vid_to_idx sg = ∅ ∧ idx_to_vid sg = [] ∧
          edge_index sg = [] ∧ vid_to_idx sg !! center_vid = None ∧
          center_node_idx sg = 0).
Proof.
  intros H.
  destruct (sample_subgraph_indexed _ _ _ _ _ _ _ _ H)
    as (g & Hg & Hidx & Hin & _).
  apply sample_subgraph_Ok in H as (g' & Hg' & Hreg & H).
  rewrite Hg in Hg'. injection Hg' as <-.
  exists g. split; [done|]. split; [done|]. split; [done|].
  destruct H as (Hei & Hm & Hl & Hn & Hc & _ & _).
  injection Hreg as Hm0 Hl0 _. simpl in Hm0, Hl0.
  intros Hnone. rewrite Hn, Hm, Hl, Hei, Hc.
  unfold _create_edge_index. rewrite Hnone. simpl.
  rewrite Hm0, Hl0. by rewrite lookup_empty.
Qed.

(** ** Failed and empty replies *)

Lemma record_labels_skipped self vid resp :
  failed_or_empty resp → record_labels self vid resp = Ok self.
Proof.
  unfold record_labels, row_size. intros [->| ->]; [done|].
  simpl. by rewrite andb_false_r.
Qed.

Lemma record_labels_total self vid resp :
  reply_ok (MatchLabels vid) resp →
  ∃ self', record_labels self vid resp = Ok self'.
Proof.
  intros Hok. unfold reply_ok in Hok.
  unfold record_labels, row_size.
  destruct (is_succeeded resp); [|by eauto]. specialize (Hok eq_refl).
  destruct (rows resp) as [|r rest]; [by eauto|].
  destruct Hok as (labels & rest' & -> & Hlabels). simpl.
  destruct labels as [|l0 labels]; [by eauto|].
  destruct Hlabels as [->|Hs]; [by eauto|].
  destruct l0; try done. simpl. eauto.
Qed.

Lemma go_rows_total max_nodes rws :
  well_formed_replies execute → Forall go_row_ok rws →
  ∀ g, ∃ g', go_rows execute max_nodes rws g = Ok g'.
Proof.
  intros Hwf. induction 1 as [|r rws Hr _ IH]; intros g; simpl; [by eauto|].
  destruct Hr as (src & dst & ty & rest & ->). simpl.
  case_bool_decide.
  - pose proof (Hwf (g_session g) (MatchLabels dst)) as Hreply.
    destruct (execute (g_session g) (MatchLabels dst)) as [type_resp session].
    destruct (record_labels_total (g_self g) dst type_resp Hreply)
      as [self' ->]. simpl.
    destruct (budget_reached _ _); [by eauto|]. apply IH.
  - simpl. destruct (budget_reached _ _); [by eauto|]. apply IH.
Qed.

Lemma go_hops_total center_vid max_nodes hops :
  well_formed_replies execute →
  ∀ g, ∃ g', go_hops execute center_vid max_nodes hops g = Ok g'.
Proof.
  intros Hwf. induction hops as [|hop hops IH]; intros g; simpl; [by eauto|].
  pose proof (Hwf (g_session g) (GoSteps hop center_vid)) as Hreply.
  destruct (execute (g_session g) (GoSteps hop center_vid)) as [resp session].
  unfold reply_ok in Hreply. simpl in Hreply.
  destruct (is_succeeded resp); [|apply IH].
  destruct (go_rows_total max_nodes (rows resp) Hwf (Hreply eq_refl)
              (Gathered (g_self g) session (g_nodes g) (g_edges g)))
    as [g1 ->]. simpl.
  destruct (budget_reached _ _); [by eauto|]. apply IH.
Qed.

Lemma subgraph_row_total r (g : gathered Session) :
  subgraph_row_ok r → ∃ g', subgraph_row r g = Ok g'.
Proof.
  unfold subgraph_row_ok, subgraph_row.
  destruct r as [|c0 rest]; [done|]. intros [Hv He]. simpl.
  assert (∃ g1 : gathered Session,
            (if is_vertex c0 then
               match c0 with
               | VVertex id tags =>
                   vid ← as_string id;
                   node_type ← subscript tags 0;
                   Ok (Gathered (set_node_type (g_self g) vid node_type)
                                (g_session g) ({[vid]} ∪ g_nodes g) (g_edges g))
               | _ => Ok g
               end
             else Ok g) = Ok g1) as [g1 ->].
  { destruct c0; simpl; try by eauto.
    destruct Hv as [Hid Htags]. destruct c0; try done.
    destruct tags; [done|]. simpl. eauto. }
  simpl. case_bool_decide; [|by eauto].
  destruct rest as [|c1 rest]; [simpl in *; lia|]. simpl.
  destruct c1 as [| | | | | | |s d nm]; try by eauto.
  destruct He as [Hs Hd]. destruct s, d; try done. simpl. eauto.
Qed.

Lemma subgraph_rows_total max_nodes rws :
  Forall subgraph_row_ok rws →
  ∀ g : gathered Session, ∃ g', subgraph_rows max_nodes rws g = Ok g'.
Proof.
  induction 1 as [|r rws Hr _ IH]; intros g; simpl; [by eauto|].
  destruct (subgraph_row_total r g Hr) as [g1 ->]. simpl.
  destruct (budget_reached _ _); [by eauto|]. apply IH.
Qed.

Lemma get_subgraph_data_total session center_vid n_hops max_nodes :
  well_formed_replies execute →
  ∃ g, get_subgraph_data execute session center_vid n_hops max_nodes = Ok g.
Proof.
  intros Hwf. unfold get_subgraph_data. case_bool_decide.
  - unfold _get_subgraph_using_go.
    pose proof (Hwf session (MatchLabels center_vid)) as Hreply.
    destruct (execute session (MatchLabels center_vid)) as [resp session1].
    destruct (record_labels_total reset center_vid resp Hreply)
      as [self ->]. simpl.
    by apply go_hops_total.
  - unfold _get_subgraph_using_subgraph.
    pose proof (Hwf session (GetSubgraph n_hops center_vid)) as Hreply.
    destruct (execute session (GetSubgraph n_hops center_vid))
      as [resp session1].
    unfold reply_ok in Hreply. simpl in Hreply.
    destruct (is_succeeded resp); [|by eauto].
    by apply subgraph_rows_total, Hreply.
Qed.

Lemma feature_row_total r features :
  prop_row_ok r → ∃ features', feature_row r features = Ok features'.
Proof.
  intros (vid & c1 & c2 & rest & ->). unfold feature_row. simpl.
  destruct c1; simpl; eauto.
Qed.

Lemma feature_rows_total rws :
  Forall prop_row_ok rws →
  ∀ features, ∃ features', feature_rows rws features = Ok features'.
Proof.
  induction 1 as [|r rws Hr _ IH]; intros features; simpl; [by eauto|].
  destruct (feature_row_total r features Hr) as [features1 ->]. simpl.
  apply IH.
Qed.

Lemma fetch_batches_total node_type bs :
  well_formed_replies execute →
  ∀ session features,
    ∃ r, fetch_batches execute node_type bs session features = Ok r.
Proof.
  intros Hwf. induction bs as [|batch bs IH]; intros session features; simpl;
    [by eauto|].
  pose proof (Hwf session (FetchProp node_type batch)) as Hreply.
  destruct (execute session (FetchProp node_type batch)) as [resp session1].
  unfold reply_ok in Hreply. simpl in Hreply.
  destruct (is_succeeded resp); [|apply IH].
  destruct (feature_rows_total (rows resp) (Hreply eq_refl) features)
    as [features1 ->]. simpl. apply IH.
Qed.

Lemma fetch_types_total by_type :
  well_formed_replies execute →
  ∀ session features, ∃ r, fetch_types execute by_type session features = Ok r.
Proof.
  intros Hwf.
  induction by_type as [|[node_type vids] by_type IH];
    intros session features; simpl; [by eauto|].
  destruct (decide (node_type = "unknown")); [apply IH|].
  destruct (fetch_batches_total node_type (batches 100 vids) Hwf session
              features) as [[features1 session1] ->]. simpl. apply IH.
Qed.

Lemma sample_subgraph_total session center_vid n_hops space_name b max_nodes :
  well_formed_replies execute →
  ∃ sg session',
    sample_subgraph execute session center_vid n_hops space_name b max_nodes
    = Ok (sg, session').
Proof.
  intros Hwf. unfold sample_subgraph.
  destruct (execute session (Use space_name)) as [resp0 session0].
  destruct (get_subgraph_data_total session0 center_vid n_hops max_nodes Hwf)
    as [g ->]. simpl.
  destruct (_create_edge_index _ _ _) as [ei self].
  unfold _get_node_features.
  destruct (fetch_types_total
              (group_by_type (_node_types self) (elements (g_nodes g)) [])
              Hwf (g_session g) ∅) as [[features session1] ->]. simpl.
  eauto.
Qed.

Lemma go_hops_skipped center_vid max_nodes hop rest g :
  failed_or_empty (execute (g_session g) (GoSteps hop center_vid)).1 →
  go_hops execute center_vid max_nodes (hop :: rest) g =
    let resp := (execute (g_session g) (GoSteps hop center_vid)).1 in
    let g0 := Gathered (g_self g)
                       (execute (g_session g) (GoSteps hop center_vid)).2
                       (g_nodes g) (g_edges g) in
    if is_succeeded resp && budget_reached (g_nodes g) max_nodes then Ok g0
    else go_hops execute center_vid max_nodes rest g0.
Proof.
  simpl. destruct (execute (g_session g) (GoSteps hop center_vid))
    as [resp session]. simpl.
  intros [->| ->]; [done|]. destruct (is_succeeded resp); [|done]. simpl.
  by destruct (budget_reached _ _).
Qed.

Lemma bulk_skipped self session center_vid n_hops max_nodes :
  failed_or_empty (execute session (GetSubgraph n_hops center_vid)).1 →
  _get_subgraph_using_subgraph execute self session center_vid n_hops max_nodes
  = Ok (Gathered self (execute session (GetSubgraph n_hops center_vid)).2
                 {[center_vid]} []).
Proof.
  unfold _get_subgraph_using_subgraph.
  destruct (execute session (GetSubgraph n_hops center_vid)) as [resp session1].
  simpl. intros [->| ->]; [done|]. by destruct (is_succeeded resp).
Qed.

Lemma fetch_batches_skipped node_type batch rest session features :
  failed_or_empty (execute session (FetchProp node_type batch)).1 →
  fetch_batches execute node_type (batch :: rest) session features
  = fetch_batches execute node_type rest
      (execute session (FetchProp node_type batch)).2 features.
Proof.
  simpl. destruct (execute session (FetchProp node_type batch))
    as [resp session1]. simpl.
  intros [->| ->]; [done|]. by destruct (is_succeeded resp).
Qed.

Lemma failed_or_empty_ok q resp : failed_or_empty resp → reply_ok q resp.
Proof.
  intros [Hf|He] Hs; [congruence|]. rewrite He. by destruct q.
Qed.

(** C8.  A labels, hop, bulk or property reply that reports failure or has
    no rows raises nothing and adds nothing: a labels reply records no type;
    a hop leaves nodes, edges and types as they were and the loop goes on
    with the next hop (after an empty successful hop the node budget is
    tested, as after every successful hop); the bulk path returns the center
    alone; a property batch leaves the features as they were and the next
    batch is fetched.  As a whole, [sample_subgraph] returns a subgraph
    whenever the replies that report success are well formed, whichever
    replies report failure. *)
Theorem failed_queries_are_skipped :
  (∀ self vid resp,
     failed_or_empty resp → record_labels self vid resp = Ok self) ∧
  (∀ center_vid max_nodes hop rest g,
     failed_or_empty (execute (g_session g) (GoSteps hop center_vid)).1 →
     go_hops execute center_vid max_nodes (hop :: rest) g =
       let resp := (execute (g_session g) (GoSteps hop center_vid)).1 in
       let g0 := Gathered (g_self g)
                          (execute (g_session g) (GoSteps hop center_vid)).2
                          (g_nodes g) (g_edges g) in
       if is_succeeded resp && budget_reached (g_nodes g) max_nodes then Ok g0
       else go_hops execute center_vid max_nodes rest g0) ∧
  (∀ self session center_vid n_hops max_nodes,
     failed_or_empty (execute session (GetSubgraph n_hops center_vid)).1 →
     _get_subgraph_using_subgraph execute self session center_vid n_hops
                                  max_nodes
     = Ok (Gathered self (execute session (GetSubgraph n_hops center_vid)).2
                    {[center_vid]} [])) ∧
  (∀ node_type batch rest session features,
     failed_or_empty (execute session (FetchProp node_type batch)).1 →
     fetch_batches execute node_type (batch :: rest) session features
     = fetch_batches execute node_type rest
         (execute session (FetchProp node_type batch)).2 features) ∧
  (well_formed_replies execute →
   ∀ session center_vid n_hops space_name use_bidirectional max_nodes,
     ∃ sg session',
       sample_subgraph execute session center_vid n_hops space_name
                       use_bidirectional max_nodes = Ok (sg, session')) ∧
  ((∀ session q, failed_or_empty (execute session q).1) →
   ∀ session center_vid n_hops space_name use_bidirectional max_nodes,
     ∃ sg session',
       sample_subgraph execute session center_vid n_hops space_name
                       use_bidirectional max_nodes = Ok (sg, session')).
Proof.
  split; [exact record_labels_skipped|].
  split; [exact go_hops_skipped|].
  split; [exact bulk_skipped|].
  split; [exact fetch_batches_skipped|].
  split.
  - intros Hwf session center_vid n_hops space_name b max_nodes.
    by apply sample_subgraph_total.
  - intros Hfail session center_vid n_hops space_name b max_nodes.
    apply sample_subgraph_total. intros s q.
    apply failed_or_empty_ok, Hfail.
Qed.

End SamplingProperties.

(** ** Path discovery *)

Lemma combine_paths_elem p paths_a paths_b :
  p ∈ combine_paths paths_a paths_b →
  ∃ path_a path_b, path_a ∈ paths_a ∧ path_b ∈ paths_b ∧
                   p = path_a ++ drop 1 path_b.
Proof.
  unfold combine_paths. intros H.
  apply list_elem_of_bind in H as (path_a & H & Ha).
  apply list_elem_of_bind in H as (path_b & H & Hb).
  apply list_elem_of_singleton in H.
  apply elem_of_take in Ha as (i & Ha & _).
  apply elem_of_take in Hb as (j & Hb & _).
  exists path_a, path_b. split; [by eapply list_elem_of_lookup_2|].
  split; [by eapply list_elem_of_lookup_2|done].
Qed.

(** Two halves of at most [max_hops / 2 + 1] vertices, joined at the bridge
    vertex, make a path of at most [max_hops + 1] vertices. *)
Lemma combined_length (max_hops : Z) (path_a path_b : path) :
  (Z.of_nat (length path_a) ≤ max_hops `div` 2 + 1)%Z →
  1 ≤ length path_b →
  (Z.of_nat (length path_b) ≤ max_hops `div` 2 + 1)%Z →
  (Z.of_nat (length (path_a ++ drop 1 path_b)) ≤ max_hops + 1)%Z.
Proof.
  intros Ha Hb1 Hb. rewrite length_app, length_drop.
  pose proof (Z.mul_div_le max_hops 2). lia.
Qed.

Lemma bridge_loop_within subgraph_a subgraph_b entity_a entity_b max_hops
    bridges : ∀ bridge_paths ps,
  bridge_loop subgraph_a subgraph_b entity_a entity_b max_hops bridges
              bridge_paths = Ok ps →
  Forall (λ p : path, (Z.of_nat (length p) ≤ max_hops + 1)%Z) bridge_paths →
  Forall (λ p : path, (Z.of_nat (length p) ≤ max_hops + 1)%Z) ps.
Proof.
  induction bridges as [|bridge_node bridges IH]; intros acc ps H Hacc;
    simpl in H; [by simplify_eq|].
  apply bind_Ok in H as (paths_a & Ha & H).
  apply bind_Ok in H as (paths_b & Hb & H).
  apply find_paths_bfs_paths in Ha as [Ha _].
  apply find_paths_bfs_paths in Hb as [Hb _].
  rewrite Forall_forall in Ha, Hb.
  eapply IH; [exact H|]. apply Forall_app. split; [done|].
  apply Forall_forall. intros p Hp.
  apply combine_paths_elem in Hp as (path_a & path_b & Hpa & Hpb & ->).
  destruct (Ha _ Hpa) as [_ Hla]. destruct (Hb _ Hpb) as [Hb1 Hlb].
  by apply combined_length.
Qed.

Lemma bridge_loop_total subgraph_a subgraph_b entity_a entity_b max_hops
    bridges :
  edges_in_range subgraph_a → edges_in_range subgraph_b →
  ∀ bridge_paths, ∃ ps,
    bridge_loop subgraph_a subgraph_b entity_a entity_b max_hops bridges
                bridge_paths = Ok ps.
Proof.
  intros Hra Hrb. induction bridges as [|bridge_node bridges IH]; intros acc;
    simpl; [by eauto|].
  pose proof (find_paths_bfs_returns subgraph_a entity_a bridge_node
                (max_hops `div` 2)) as Ha.
  destruct (find_paths_bfs subgraph_a _ _ _) as [pa|]; [|by destruct Ha].
  pose proof (find_paths_bfs_returns subgraph_b bridge_node entity_b
                (max_hops `div` 2)) as Hb.
  destruct (find_paths_bfs subgraph_b _ _ _) as [pb|]; [|by destruct Hb].
  simpl. apply IH.
Qed.

Section DiscoveryProperties.

Context {Session : Type} (execute : Session → query → response * Session).

(** The edge index of a sampled subgraph stays within its vertices. *)
Lemma sample_subgraph_in_range session center_vid n_hops space_name b
    max_nodes sg session' :
  sample_subgraph execute session center_vid n_hops space_name b max_nodes
  = Ok (sg, session') →
  edges_in_range sg.
Proof.
  intros H. apply sample_subgraph_Ok in H as (g & _ & Hreg & H).
  destruct H as (Hei & _ & Hl & _).
  destruct (create_edge_index_spec (g_self g) (g_edges g) b
              (registry_ok_of _ Hreg)) as (_ & _ & _ & Hrange & _).
  unfold edges_in_range. rewrite Hei, Hl. by apply Forall_forall.
Qed.

(** C5.  [find_paths_bfs] always comes to an end: the fuel of the search
    loop is never used up.  It returns a list of at most five paths, unless
    the edge index names a position outside the index-to-vid list, in which
    case the subscript raises [IndexError].  On a subgraph made by
    [sample_subgraph] that cannot happen, so there it returns at most five
    paths, whatever [max_hops] is. *)
Theorem find_paths_bfs_terminates :
  (∀ sg start_entity end_entity max_hops,
     match find_paths_bfs sg start_entity end_entity max_hops with
     | Ok ps => length ps ≤ 5
     | Raise e => e = IndexError ∧ ¬ edges_in_range sg
     end) ∧
  (∀ session center_vid n_hops space_name use_bidirectional max_nodes sg
     session' start_entity end_entity max_hops,
     sample_subgraph execute session center_vid n_hops space_name
                     use_bidirectional max_nodes = Ok (sg, session') →
     ∃ ps, find_paths_bfs sg start_entity end_entity max_hops = Ok ps ∧
           length ps ≤ 5).
Proof.
  assert (∀ sg start_entity end_entity max_hops,
     match find_paths_bfs sg start_entity end_entity max_hops with
     | Ok ps => length ps ≤ 5
     | Raise e => e = IndexError ∧ ¬ edges_in_range sg
     end) as Hgen.
  { intros sg s e h. pose proof (find_paths_bfs_returns sg s e h) as Hr.
    destruct (find_paths_bfs sg s e h) as [ps|] eqn:E; [|done].
    by apply find_paths_bfs_paths in E as [_ ?]. }
  split; [done|].
  intros session c n sp b m sg session' s e h Hsg.
  apply sample_subgraph_in_range in Hsg. specialize (Hgen sg s e h).
  destruct (find_paths_bfs sg s e h) as [ps|]; [by eauto|].
  by destruct Hgen.
Qed.

(** C3.  Every path returned by [find_paths_bfs] has at most
    [max_hops + 1] vertices, and so has every path in the result of
    [find_multihop_relationships], whether found directly or joined at a
    bridge node. *)
Theorem paths_within_hops :
  (∀ sg start_entity end_entity max_hops ps,
     find_paths_bfs sg start_entity end_entity max_hops = Ok ps →
     ∀ p, p ∈ ps → (Z.of_nat (length p) ≤ max_hops + 1)%Z) ∧
  (∀ session entity_a entity_b max_hops d session',
     find_multihop_relationships execute session entity_a entity_b max_hops
     = Ok (d, session') →
     ∀ p, p ∈ paths d → (Z.of_nat (length p) ≤ max_hops + 1)%Z).
Proof.
  assert (∀ sg start_entity end_entity max_hops ps,
     find_paths_bfs sg start_entity end_entity max_hops = Ok ps →
     ∀ p, p ∈ ps → (Z.of_nat (length p) ≤ max_hops + 1)%Z) as Hbfs.
  { intros sg s e h ps H p Hp. apply find_paths_bfs_paths in H as [H _].
    rewrite Forall_forall in H. by apply H. }
  split; [done|].
  intros session a b h d session' H p Hp.
  unfold find_multihop_relationships in H.
  apply bind_Ok in H as ([subgraph_a session1] & _ & H).
  case_bool_decide.
  - apply bind_Ok in H as (ps & Hps & H). simplify_eq. simpl in Hp.
    by eapply Hbfs.
  - apply bind_Ok in H as ([subgraph_b session2] & _ & H).
    case_bool_decide.
    + apply bind_Ok in H as (bridge_paths & Hb & H). simplify_eq. simpl in Hp.
      apply bridge_loop_within in Hb; [|constructor].
      rewrite Forall_forall in Hb. apply Hb.
      apply elem_of_take in Hp as (i & Hi & _).
      by eapply list_elem_of_lookup_2.
    + simplify_eq. simpl in Hp. by apply elem_of_nil in Hp.
Qed.

(** When the replies that report success are well formed,
    [find_multihop_relationships] returns a result. *)
Lemma find_multihop_relationships_total session entity_a entity_b max_hops :
  well_formed_replies execute →
  ∃ d session',
    find_multihop_relationships execute session entity_a entity_b max_hops
    = Ok (d, session').
Proof.
  intros Hwf. unfold find_multihop_relationships.
  destruct (sample_subgraph_total execute session entity_a max_hops
              "basketballplayer" true 500 Hwf) as (sg_a & s1 & Ha).
  rewrite Ha. simpl. pose proof (sample_subgraph_in_range _ _ _ _ _ _ _ _ Ha).
  case_bool_decide.
  - pose proof (find_paths_bfs_returns sg_a entity_a entity_b max_hops) as Hr.
    destruct (find_paths_bfs sg_a entity_a entity_b max_hops);
      [simpl; by eauto|by destruct Hr].
  - destruct (sample_subgraph_total execute s1 entity_b (max_hops `div` 2)
                "basketballplayer" true 500 Hwf) as (sg_b & s2 & Hb).
    rewrite Hb. simpl.
    pose proof (sample_subgraph_in_range _ _ _ _ _ _ _ _ Hb).
    case_bool_decide; [|by eauto].
    destruct (bridge_loop_total sg_a sg_b entity_a entity_b max_hops
                (take 3 (elements (dom (vid_to_idx sg_a)
                                   ∩ dom (vid_to_idx sg_b)))))
      with (bridge_paths := @nil path) as [ps ->]; [done|done|].
    simpl. eauto.
Qed.

(** C2, as the code has it.  The [method] of a result of
    [find_multihop_relationships] is one of ['direct_subgraph'],
    ['bridge_nodes'] and ['no_connection']; the result carries the subgraph
    sampled around entity A, and when entity B has an index in that subgraph
    the result has [found = True] and [method = 'direct_subgraph']; [found]
    is [False] exactly for ['no_connection']. *)
Theorem method_values session entity_a entity_b max_hops d session' :
  find_multihop_relationships execute session entity_a entity_b max_hops
  = Ok (d, session') →
  method d ∈ ["direct_subgraph"; "bridge_nodes"; "no_connection"] ∧
  (∃ session1,
     sample_subgraph execute session entity_a max_hops "basketballplayer"
                     true 500 = Ok (subgraph_of d, session1)) ∧
  (is_Some (vid_to_idx (subgraph_of d) !! entity_b) →
     found d = true ∧ method d = "direct_subgraph") ∧
  (found d = false ↔ method d = "no_connection").
Proof.
  unfold find_multihop_relationships. intros H.
  apply bind_Ok in H as ([subgraph_a session1] & Ha & H).
  case_bool_decide as Hb.
  - apply bind_Ok in H as (ps & _ & H). simplify_eq. simpl.
    split; [set_solver|]. split; [by eauto|]. by split.
  - apply bind_Ok in H as ([subgraph_b session2] & _ & H).
    rewrite elem_of_dom in Hb.
    case_bool_decide.
    + apply bind_Ok in H as (bridge_paths & _ & H). simplify_eq. simpl.
      split; [set_solver|]. split; [by eauto|]. by split.
    + simplify_eq. simpl.
      split; [set_solver|]. split; [by eauto|]. by split.
Qed.

End DiscoveryProperties.

(** ** The properties on the mock graphs *)

Lemma mock_rows_ok {A} (P : row → Prop) (f : A → row) (Q : A → Prop)
    `{∀ x, Decision (Q x)} (l : list A) :
  Forall (λ x, P (f x)) l → Forall P (f <$> filter Q l).
Proof.
  intros Hall. apply Forall_fmap, Forall_forall.
  intros x [_ Hx]%list_elem_of_filter.
  rewrite Forall_forall in Hall. by apply Hall.
Qed.

Lemma mock_eight_well_formed :
  well_formed_replies (Mock.execute Mock.eight_edges).
Proof.
  intros session q _. destruct q; simpl; [done| | | |].
  - exists (VString <$> Mock.tags_of vid), []. split; [done|].
    destruct (Mock.tags_of vid); [done|by right].
  - apply mock_rows_ok. repeat constructor; by eexists _, _, _, _.
  - apply mock_rows_ok. repeat constructor; by vm_compute.
  - apply Forall_fmap, Forall_forall. intros vid _. by eexists _, _, _, _.
Qed.

(** C1 fails on the code.  With [max_nodes = 1] and one edge leaving the
    center, [sample_subgraph] returns two indexed vertices: the budget is
    tested only after the ends of a row have been added. *)
Theorem node_budget_exceeded :
  ∃ sg session',
    sample_subgraph (Mock.execute Mock.one_edge) () "player0" 1
                    "basketballplayer" true 1 = Ok (sg, session') ∧
    idx_to_vid sg = ["player0"; "player1"] ∧
    num_nodes sg = 2 ∧
    ¬ (Z.of_nat (length (idx_to_vid sg)) ≤ 1)%Z.
Proof.
  eexists _, _. split; [by vm_compute|].
  split; [reflexivity|]. split; [reflexivity|]. simpl. lia.
Qed.

(** The claim C2 does not hold as stated: on the eight-vertex graph the
    search from [player0] to [team0] within three hops succeeds with the
    path [player0; player1; team0], and its [method] is ['direct_subgraph'],
    which is none of ['direct'], ['bridge'], ['none']. *)
Lemma method_is_not_direct :
  ∃ d session',
    find_multihop_relationships (Mock.execute Mock.eight_edges) ()
      "player0" "team0" 3 = Ok (d, session') ∧
    found d = true ∧
    ["player0"; "player1"; "team0"] ∈ paths d ∧
    method d ≠ "direct" ∧
    method d ∉ ["direct"; "bridge"; "none"].
Proof.
  eexists _, _. split; [by vm_compute|].
  split; [reflexivity|]. split; [left|]. split; [done|].
  simpl. rewrite !not_elem_of_cons. repeat split; try done.
  apply not_elem_of_nil.
Qed.

Lemma method_values_witness :
  ∃ d session',
    find_multihop_relationships (Mock.execute Mock.eight_edges) ()
      "player0" "team0" 3 = Ok (d, session') ∧
    method d ∈ ["direct_subgraph"; "bridge_nodes"; "no_connection"] ∧
    found d = true ∧ method d = "direct_subgraph".
Proof.
  destruct (find_multihop_relationships (Mock.execute Mock.eight_edges) ()
              "player0" "team0" 3) as [[d session']|e] eqn:E;
    [|vm_compute in E; discriminate E].
  exists d, session'. split; [reflexivity|].
  destruct (method_values _ _ _ _ _ _ _ E) as (Hm & _ & Hdirect & _).
  split; [exact Hm|]. apply Hdirect.
  vm_compute in E. injection E as <- <-. vm_compute. by eexists.
Defined.

(** Two players of one team, two hops: the path is joined at the team and
    has three vertices. *)
Lemma paths_within_hops_witness :
  ∃ d session',
    find_multihop_relationships (Mock.execute Mock.teammates) ()
      "player0" "player1" 2 = Ok (d, session') ∧
    method d = "bridge_nodes" ∧
    paths d = [["player0"; "team0"; "player1"]] ∧
    ∀ p, p ∈ paths d → (Z.of_nat (length p) ≤ 2 + 1)%Z.
Proof.
  destruct (find_multihop_relationships (Mock.execute Mock.teammates) ()
              "player0" "player1" 2) as [[d session']|e] eqn:E;
    [|vm_compute in E; discriminate E].
  exists d, session'. split; [reflexivity|].
  pose proof (proj2 (paths_within_hops (Mock.execute Mock.teammates))
                _ _ _ _ _ _ E) as Hwithin.
  split; [|split; [|exact Hwithin]];
    vm_compute in E; injection E as <- <-; reflexivity.
Defined.

(** The search from [player0] to [team0] on the sampled eight-vertex
    subgraph returns twice the path [player0; player1; team0]. *)
Lemma find_paths_bfs_terminates_witness :
  ∃ sg session' ps,
    sample_subgraph (Mock.execute Mock.eight_edges) () "player0" 3
                    "basketballplayer" true 500 = Ok (sg, session') ∧
    find_paths_bfs sg "player0" "team0" 3 = Ok ps ∧ length ps ≤ 5 ∧
    ps = [["player0"; "player1"; "team0"]; ["player0"; "player1"; "team0"]].
Proof.
  destruct (sample_subgraph (Mock.execute Mock.eight_edges) () "player0" 3
              "basketballplayer" true 500) as [[sg session']|e] eqn:E;
    [|vm_compute in E; discriminate E].
  destruct (proj2 (find_paths_bfs_terminates (Mock.execute Mock.eight_edges))
              _ _ _ _ _ _ _ _ "player0" "team0" 3%Z E) as (ps & Hps & Hlen).
  exists sg, session', ps. split; [reflexivity|]. split; [exact Hps|].
  split; [exact Hlen|].
  vm_compute in E. injection E as <- <-. vm_compute in Hps. by injection Hps.
Defined.

(** The edge [player0 -> player1] of the eight-vertex graph, both ways. *)
Lemma bidirectional_edges_witness :
  ∃ sg session' l,
    sample_subgraph (Mock.execute Mock.eight_edges) () "player0" 3
                    "basketballplayer" true 500 = Ok (sg, session') ∧
    vid_to_idx sg !! "player0" = Some 0 ∧
    vid_to_idx sg !! "player1" = Some 2 ∧
    (0, 2) ∈ edge_index sg ∧ (2, 0) ∈ edge_index sg ∧
    edge_indices_by_type sg !! "follow" = Some l ∧
    (0, 2) ∈ l ∧ (2, 0) ∈ l.
Proof.
  destruct (sample_subgraph (Mock.execute Mock.eight_edges) () "player0" 3
              "basketballplayer" true 500) as [[sg session']|e] eqn:E;
    [|vm_compute in E; discriminate E].
  destruct (bidirectional_edges _ _ _ _ _ _ _ _ E) as (g & Hg & Hedges).
  assert (("player0", "player1", "follow") ∈ g_edges g) as Hin.
  { clear Hedges E. vm_compute in Hg. injection Hg as <-.
    right. right. left. }
  destruct (Hedges _ _ _ Hin)
    as (u_idx & v_idx & l & Hu & Hv & H1 & H2 & Hl & H3 & H4).
  clear Hedges Hg Hin.
  assert (u_idx = 0 ∧ v_idx = 2) as [-> ->].
  { clear H1 H2 H3 H4 Hl. vm_compute in E. injection E as <- <-.
    vm_compute in Hu, Hv. split; congruence. }
  exists sg, session', l. split; [reflexivity|].
  split; [exact Hu|]. split; [exact Hv|]. split; [exact H1|].
  split; [exact H2|]. split; [exact Hl|]. split; [exact H3|exact H4].
Defined.

(** With every statement failing nothing is discovered and nothing
    indexed. *)
Lemma indices_only_for_endpoints_witness :
  ∃ sg session',
    sample_subgraph Mock.failing () "player0" 2 "basketballplayer" true 500
    = Ok (sg, session') ∧
    num_nodes sg = 0 ∧ vid_to_idx sg = ∅ ∧ idx_to_vid sg = [] ∧
    edge_index sg = [] ∧ vid_to_idx sg !! "player0" = None ∧
    center_node_idx sg = 0.
Proof.
  destruct (sample_subgraph Mock.failing () "player0" 2 "basketballplayer"
              true 500) as [[sg session']|e] eqn:E;
    [|vm_compute in E; discriminate E].
  destruct (indices_only_for_endpoints _ _ _ _ _ _ _ _ _ E)
    as (g & Hg & _ & _ & Hempty).
  exists sg, session'. split; [reflexivity|]. apply Hempty.
  vm_compute in Hg. by injection Hg as <-.
Defined.

(** The failing adapter, and the well-formed eight-vertex one. *)
Lemma failed_queries_are_skipped_witness :
  (∃ sg session',
     sample_subgraph Mock.failing () "player0" 2 "basketballplayer" true 500
     = Ok (sg, session')) ∧
  (∃ sg session',
     sample_subgraph (Mock.execute Mock.eight_edges) () "player0" 3
                     "basketballplayer" true 500 = Ok (sg, session')) ∧
  record_labels reset "player0" (Response false []) = Ok reset ∧
  go_hops Mock.failing "player0" 500 [1%Z; 2%Z]
          (Gathered reset () {["player0"]} [])
  = go_hops Mock.failing "player0" 500 [2%Z]
            (Gathered reset () {["player0"]} []) ∧
  _get_subgraph_using_subgraph Mock.failing reset () "player0" 3 500
  = Ok (Gathered reset () {["player0"]} []) ∧
  fetch_batches Mock.failing "player" [["player0"]; ["player1"]] () ∅
  = fetch_batches Mock.failing "player" [["player1"]] () ∅.
Proof.
  destruct (failed_queries_are_skipped Mock.failing)
    as (Hlabels & Hhop & Hbulk & Hfetch & _ & Hfail).
  destruct (failed_queries_are_skipped (Mock.execute Mock.eight_edges))
    as (_ & _ & _ & _ & Hwf & _).
  split; [apply Hfail; intros session q; by left|].
  split; [apply Hwf, mock_eight_well_formed|].
  split; [apply Hlabels; by left|].
  split; [|split].
  - etrans.
    + apply (Hhop "player0" 500%Z 1%Z [2%Z]
                  (Gathered reset () {["player0"]} [])).
      by left.
    + reflexivity.
  - apply (Hbulk reset () "player0" 3%Z 500%Z). by left.
  - apply (Hfetch "player" ["player0"] [["player1"]] () ∅). by left.
Defined.

(** ** How far the node budget is exceeded *)

Lemma size_add (x : string) (X : gset string) : size ({[x]} ∪ X) ≤ S (size X).
Proof.
  rewrite size_union_alt, size_singleton.
  assert (size (X ∖ {[x]}) ≤ size X) by (apply subseteq_size; set_solver).
  lia.
Qed.

Lemma length_le_size (l : list string) (X : gset string) :
  NoDup l → (∀ x, x ∈ l → x ∈ X) → length l ≤ size X.
Proof.
  intros Hnd Hsub. rewrite <- (size_list_to_set (C:=gset string) l Hnd).
  apply subseteq_size. intros x Hx. apply elem_of_list_to_set in Hx. auto.
Qed.

Lemma may_read_continue max_nodes nodes :
  budget_reached nodes max_nodes = false → may_read max_nodes nodes.
Proof.
  unfold budget_reached, may_read. intros H%bool_decide_eq_false. lia.
Qed.

Section BudgetProperties.

Context {Session : Type} (execute : Session → query → response * Session).

Lemma go_rows_bound max_nodes rws : ∀ g g',
  go_rows execute max_nodes rws g = Ok g' →
  ends_in_nodes g → may_read max_nodes (g_nodes g) →
  ends_in_nodes g' ∧
  (Z.of_nat (size (g_nodes g')) ≤ Z.max 1 (max_nodes - 1) + 2)%Z.
Proof.
  induction rws as [|r rws IH]; intros g g' H Hends Hread; simpl in H.
  { simplify_eq. split; [done|]. unfold may_read in Hread. lia. }
  apply bind_Ok in H as (c0 & _ & H). apply bind_Ok in H as (src & _ & H).
  apply bind_Ok in H as (c1 & _ & H). apply bind_Ok in H as (dst & _ & H).
  apply bind_Ok in H as (c2 & _ & H). apply bind_Ok in H as (ty & _ & H).
  apply bind_Ok in H as (g1 & Hg1 & H).
  assert (g_nodes g1 = {[dst]} ∪ ({[src]} ∪ g_nodes g) ∧
          g_edges g1 = g_edges g ++ [(src, dst, ty)]) as [Hn He].
  { case_bool_decide; [|by simplify_eq].
    destruct (execute _ _) as [type_resp session].
    apply bind_Ok in Hg1 as (self & _ & Hg1). by simplify_eq. }
  assert (ends_in_nodes g1) as Hends1.
  { intros e. rewrite He, Hn. intros [Hin| ->%list_elem_of_singleton]%elem_of_app.
    - destruct (Hends e Hin). set_solver.
    - simpl. set_solver. }
  assert (Z.of_nat (size (g_nodes g1)) ≤ Z.max 1 (max_nodes - 1) + 2)%Z.
  { rewrite Hn. pose proof (size_add dst ({[src]} ∪ g_nodes g)).
    pose proof (size_add src (g_nodes g)). unfold may_read in Hread. lia. }
  destruct (budget_reached _ _) eqn:Eb; [by simplify_eq|].
  eapply IH; [exact H|done|by apply may_read_continue].
Qed.

Lemma go_hops_bound center_vid max_nodes hops : ∀ g g',
  go_hops execute center_vid max_nodes hops g = Ok g' →
  ends_in_nodes g → may_read max_nodes (g_nodes g) →
  ends_in_nodes g' ∧
  (Z.of_nat (size (g_nodes g')) ≤ Z.max 1 (max_nodes - 1) + 2)%Z.
Proof.
  induction hops as [|hop hops IH]; intros g g' H Hends Hread; simpl in H.
  { simplify_eq. split; [done|]. unfold may_read in Hread. lia. }
  destruct (execute _ _) as [resp session].
  destruct (is_succeeded resp); [|by eapply IH].
  apply bind_Ok in H as (g1 & Hg1 & H).
  apply go_rows_bound in Hg1 as [Hends1 Hsize1]; [|done|done].
  destruct (budget_reached _ _) eqn:Eb; [by simplify_eq|].
  eapply IH; [exact H|done|by apply may_read_continue].
Qed.

Lemma subgraph_row_bound r (g g' : gathered Session) :
  subgraph_row r g = Ok g' → ends_in_nodes g →
  ends_in_nodes g' ∧ size (g_nodes g') ≤ size (g_nodes g) + 3.
Proof.
  unfold subgraph_row. intros H Hends.
  apply bind_Ok in H as (c0 & _ & H). apply bind_Ok in H as (g1 & Hg1 & H).
  assert (ends_in_nodes g1 ∧ size (g_nodes g1) ≤ size (g_nodes g) + 1)
    as [Hends1 Hsize1].
  { destruct c0; simpl in Hg1; try (simplify_eq; split; [done|lia]).
    apply bind_Ok in Hg1 as (vid & _ & Hg1).
    apply bind_Ok in Hg1 as (node_type & _ & Hg1). simplify_eq. simpl. split.
    - intros e He. destruct (Hends e He). simpl. set_solver.
    - pose proof (size_add vid (g_nodes g)). lia. }
  case_bool_decide; [|simplify_eq; split; [done|lia]].
  apply bind_Ok in H as (c1 & _ & H).
  destruct c1 as [| | | | | | |s d nm]; try (simplify_eq; split; [done|lia]).
  apply bind_Ok in H as (src & _ & H). apply bind_Ok in H as (dst & _ & H).
  simplify_eq. simpl. split.
  - intros e [Hin| ->%list_elem_of_singleton]%elem_of_app.
    + destruct (Hends1 e Hin). set_solver.
    + simpl. set_solver.
  - pose proof (size_add dst ({[src]} ∪ g_nodes g1)).
    pose proof (size_add src (g_nodes g1)). lia.
Qed.

Lemma subgraph_rows_bound max_nodes rws : ∀ (g g' : gathered Session),
  subgraph_rows max_nodes rws g = Ok g' →
  ends_in_nodes g → may_read max_nodes (g_nodes g) →
  ends_in_nodes g' ∧
  (Z.of_nat (size (g_nodes g')) ≤ Z.max 1 (max_nodes - 1) + 3)%Z.
Proof.
  induction rws as [|r rws IH]; intros g g' H Hends Hread; simpl in H.
  { simplify_eq. split; [done|]. unfold may_read in Hread. lia. }
  apply bind_Ok in H as (g1 & Hg1 & H).
  apply subgraph_row_bound in Hg1 as [Hends1 Hsize1]; [|done].
  destruct (budget_reached _ _) eqn:Eb.
  - simplify_eq. split; [done|]. unfold may_read in Hread. lia.
  - eapply IH; [exact H|done|by apply may_read_continue].
Qed.

Lemma get_subgraph_data_bound session center_vid n_hops max_nodes g :
  get_subgraph_data execute session center_vid n_hops max_nodes = Ok g →
  ends_in_nodes g ∧
  (Z.of_nat (size (g_nodes g)) ≤ Z.max 1 (max_nodes - 1) + 3)%Z.
Proof.
  assert (∀ self s, ends_in_nodes (Gathered self (s : Session)
                                            {[center_vid]} [])) as Hends0
    by (intros self s e Hin; by apply elem_of_nil in Hin).
  assert (may_read max_nodes {[center_vid]}) as Hread0
    by (unfold may_read; rewrite size_singleton; lia).
  unfold get_subgraph_data. intros H. case_bool_decide.
  - unfold _get_subgraph_using_go in H.
    destruct (execute _ _) as [resp session1].
    apply bind_Ok in H as (self & _ & H).
    apply go_hops_bound in H as [? ?]; [|apply Hends0|exact Hread0].
    split; [done|]. lia.
  - unfold _get_subgraph_using_subgraph in H.
    destruct (execute _ _) as [resp session1].
    destruct (is_succeeded resp).
    + by apply subgraph_rows_bound in H.
    + simplify_eq. split; [apply Hends0|]. cbn [g_nodes].
      unfold may_read in Hread0. lia.
Qed.

(** What the code does keep: the number of indexed vertices exceeds the
    budget by at most the ends of one row (two vertices past
    [max_nodes - 1]; a row of the bulk path brings a third). *)
Lemma sampled_nodes_bound session center_vid n_hops space_name b max_nodes
    sg session' :
  sample_subgraph execute session center_vid n_hops space_name b max_nodes
  = Ok (sg, session') →
  num_nodes sg = length (idx_to_vid sg) ∧
  (Z.of_nat (length (idx_to_vid sg)) ≤ Z.max 1 (max_nodes - 1) + 3)%Z.
Proof.
  intros H.
  destruct (sample_subgraph_indexed execute _ _ _ _ _ _ _ _ H)
    as (g & Hg & _ & Hin & Hnd & Hn).
  split; [done|].
  apply get_subgraph_data_bound in Hg as [Hends Hsize].
  assert (length (idx_to_vid sg) ≤ size (g_nodes g)); [|lia].
  apply length_le_size; [done|].
  intros v Hv. apply Hin in Hv as (e & He & [->| ->]); by apply Hends.
Qed.

End BudgetProperties.

(* ================================================================== *)
(** * Further properties *)

(** ** Paths found by the search are walks *)

Lemma is_walk_snoc sg (p : path) u v :
  is_walk sg p → last p = Some u → joined sg u v → is_walk sg (p ++ [v]).
Proof.
  induction p as [|a p IH]; intros Hw Hl Hj; [done|].
  destruct p as [|b p].
  - simpl in *. injection Hl as ->. done.
  - destruct Hw as [Hab Hw]. split; [done|]. apply IH; [done| |done].
    by rewrite last_cons_cons in Hl.
Qed.

Lemma connects_snoc sg start_entity u v (p : path) :
  connects sg start_entity u p → joined sg u v →
  connects sg start_entity v (p ++ [v]).
Proof.
  intros (Hh & Hl & Hw) Hj. split; [|split].
  - destruct p; [done|]. done.
  - apply last_snoc.
  - by eapply is_walk_snoc.
Qed.

(** The items that the expansion of [(current_idx, p)] appends. *)
Lemma visit_neighbors_items idx_to_vid p ns : ∀ qv qv',
  visit_neighbors idx_to_vid p qv ns = Ok qv' →
  ∃ new, qv'.1 = qv.1 ++ new ∧
         Forall (λ item : nat * path,
                   item.1 ∈ ns ∧
                   ∃ vid, idx_to_vid !! item.1 = Some vid ∧
                          item.2 = p ++ [vid]) new.
Proof.
  induction ns as [|n ns IH]; intros qv qv' H; simpl in H.
  - simplify_eq. exists []. by rewrite app_nil_r.
  - apply bind_Ok in H as (qv1 & H1 & H).
    destruct (IH _ _ H) as (new & Hq & Hall).
    assert (Forall (λ item : nat * path,
                      item.1 ∈ n :: ns ∧
                      ∃ vid, idx_to_vid !! item.1 = Some vid ∧
                             item.2 = p ++ [vid]) new) as Hall'.
    { eapply Forall_impl; [exact Hall|]. intros item [Hin Hv].
      split; [by right|done]. }
    rewrite visit_neighbor_cases in H1. case_bool_decide.
    + destruct (idx_to_vid !! n) as [vid|] eqn:Ev; [|done]. simplify_eq.
      simpl in *. exists ((n, p ++ [vid]) :: new).
      rewrite Hq, <- app_assoc. split; [done|].
      constructor; [|done]. simpl. split; [left|]. by exists vid.
    + simplify_eq. by exists new.
Qed.

Lemma bfs_turn_walks sg start_entity end_entity end_idx max_hops st st' :
  idx_to_vid sg !! end_idx = Some end_entity →
  Forall (item_ok sg start_entity) (bfs_queue st) →
  Forall (connects sg start_entity end_entity) (bfs_paths st) →
  bfs_turn (idx_to_vid sg) (build_adj (edge_index sg)) end_idx max_hops st st' →
  Forall (item_ok sg start_entity) (bfs_queue st') ∧
  Forall (connects sg start_entity end_entity) (bfs_paths st').
Proof.
  unfold bfs_turn, bfs_step. intros Hend Hq Hp H.
  destruct (bfs_queue st) as [|[current_idx p] queue]; [done|].
  apply Forall_cons in Hq as [(vid & Hvid & Hc) Hq]. simpl in Hvid, Hc.
  case_bool_decide; [|done].
  case_bool_decide; [by simplify_eq|].
  destruct (decide (current_idx = end_idx)) as [->|Hne].
  - simplify_eq. split; [done|]. apply Forall_app. split; [done|].
    constructor; [|done]. congruence.
  - apply bind_Ok in H as (qv & Hv & H). simplify_eq. simpl. split; [|done].
    destruct (visit_neighbors_items _ _ _ _ _ Hv) as (new & -> & Hnew).
    simpl. apply Forall_app. split; [done|].
    eapply Forall_impl; [exact Hnew|].
    intros [n q] (Hn & v & Hv' & Hq'). simpl in *. subst q.
    exists v. split; [done|]. eapply connects_snoc; [exact Hc|].
    exists current_idx, n. split; [|done]. by apply build_adj_elem.
Qed.

Lemma bfs_loop_walks sg start_entity end_entity end_idx max_hops fuel :
  idx_to_vid sg !! end_idx = Some end_entity →
  ∀ st ps,
    Forall (item_ok sg start_entity) (bfs_queue st) →
    Forall (connects sg start_entity end_entity) (bfs_paths st) →
    bfs_loop fuel (idx_to_vid sg) (build_adj (edge_index sg)) end_idx max_hops
             st = Ok ps →
    Forall (connects sg start_entity end_entity) ps.
Proof.
  intros Hend. induction fuel as [|fuel IH]; intros st ps Hq Hp H; [done|].
  simpl in H. apply bind_Ok in H as ([st'|ps'] & Hs & H).
  - destruct (bfs_turn_walks sg start_entity end_entity end_idx max_hops
                st st' Hend Hq Hp Hs) as [Hq' Hp'].
    by eapply IH.
  - simplify_eq. by apply bfs_step_Return in Hs as ->.
Qed.

Lemma find_paths_bfs_walks sg start_entity end_entity max_hops ps :
  indices_agree sg →
  find_paths_bfs sg start_entity end_entity max_hops = Ok ps →
  Forall (connects sg start_entity end_entity) ps.
Proof.
  intros Hagree. unfold find_paths_bfs. intros H.
  destruct (vid_to_idx sg !! start_entity) as [start_idx|] eqn:Es;
    [|by simplify_eq].
  destruct (vid_to_idx sg !! end_entity) as [end_idx|] eqn:Ee;
    [|by simplify_eq].
  eapply bfs_loop_walks; [by apply Hagree| | |exact H]; simpl; [|done].
  constructor; [|done]. exists start_entity. split; [by apply Hagree|].
  by repeat split.
Qed.

(** X1.  Every path returned by [find_paths_bfs] on a subgraph whose two
    index maps agree starts with [start_entity], ends with [end_entity], and
    moves along columns of [edge_index]: each two consecutive vertices are
    the ends of a column. *)
Theorem found_paths_are_walks sg start_entity end_entity max_hops ps :
  indices_agree sg →
  find_paths_bfs sg start_entity end_entity max_hops = Ok ps →
  ∀ p, p ∈ ps →
    head p = Some start_entity ∧ last p = Some end_entity ∧ is_walk sg p.
Proof.
  intros Hagree H p Hp. apply find_paths_bfs_walks in H; [|done].
  rewrite Forall_forall in H. by apply H.
Qed.

(** ** A direct edge is found *)

Lemma bfs_turn_paths idx_to_vid adj_list end_idx max_hops st st' :
  bfs_turn idx_to_vid adj_list end_idx max_hops st st' →
  ∀ p, p ∈ bfs_paths st → p ∈ bfs_paths st'.
Proof.
  unfold bfs_turn, bfs_step. intros H p Hp.
  destruct (bfs_queue st) as [|[current_idx q] queue]; [done|].
  case_bool_decide; [|done].
  case_bool_decide; [by simplify_eq|].
  destruct (decide (current_idx = end_idx)).
  - simplify_eq. simpl. apply elem_of_app. by left.
  - apply bind_Ok in H as (qv & _ & H). by simplify_eq.
Qed.

Lemma bfs_loop_paths idx_to_vid adj_list end_idx max_hops fuel : ∀ st ps,
  bfs_loop fuel idx_to_vid adj_list end_idx max_hops st = Ok ps →
  ∀ p, p ∈ bfs_paths st → p ∈ ps.
Proof.
  induction fuel as [|fuel IH]; intros st ps H p Hp; [done|]. simpl in H.
  apply bind_Ok in H as ([st'|ps'] & Hs & H).
  - eapply IH; [exact H|]. by eapply bfs_turn_paths.
  - simplify_eq. by apply bfs_step_Return in Hs as ->.
Qed.

(** An item for the end vertex that waits in the queue behind items for
    other vertices is completed, if fewer than five paths are there and its
    path is short enough. *)
Lemma bfs_loop_reaches idx_to_vid adj_list end_idx max_hops fuel :
  ∀ st ps pre p post,
    bfs_loop fuel idx_to_vid adj_list end_idx max_hops st = Ok ps →
    bfs_queue st = pre ++ (end_idx, p) :: post →
    Forall (λ item : nat * path, item.1 ≠ end_idx) pre →
    length (bfs_paths st) < 5 →
    (Z.of_nat (length p) ≤ max_hops + 1)%Z →
    p ∈ ps.
Proof.
  induction fuel as [|fuel IH]; intros st ps pre p post H Hq Hpre Hfew Hlen;
    [done|].
  simpl in H. apply bind_Ok in H as (next & Hs & H).
  unfold bfs_step in Hs. rewrite Hq in Hs.
  destruct pre as [|[idx q] pre]; simpl in Hs.
  - rewrite bool_decide_eq_true_2 in Hs by done.
    rewrite bool_decide_eq_false_2 in Hs by lia.
    rewrite decide_True in Hs by done. simplify_eq.
    eapply bfs_loop_paths; [exact H|]. simpl. apply elem_of_app. right. left.
  - apply Forall_cons in Hpre as [Hidx Hpre]. simpl in Hidx.
    rewrite bool_decide_eq_true_2 in Hs by done.
    case_bool_decide.
    + simplify_eq. by eapply (IH _ _ pre p post).
    + rewrite decide_False in Hs by done.
      apply bind_Ok in Hs as (qv & Hv & Hs). simplify_eq.
      destruct (visit_neighbors_items _ _ _ _ _ Hv) as (new & Hnew & _).
      simpl in Hnew.
      eapply (IH _ _ pre p (post ++ new)); [exact H| |done|done|done].
      simpl. rewrite Hnew. by rewrite <- app_assoc.
Qed.

(** From a path of at most two vertices every neighbour is queued, in
    order, and the visited set is left alone. *)
Lemma visit_neighbors_short idx_to_vid p ns : ∀ qv qv',
  length p ≤ 2 →
  visit_neighbors idx_to_vid p qv ns = Ok qv' →
  qv'.2 = qv.2 ∧
  ∃ vids, Forall2 (λ n vid, idx_to_vid !! n = Some vid) ns vids ∧
          qv'.1 = qv.1 ++ zip_with (λ n vid, (n, p ++ [vid])) ns vids.
Proof.
  intros qv qv' Hshort. revert qv.
  induction ns as [|n ns IH]; intros qv H; simpl in H.
  - simplify_eq. split; [done|]. exists []. split; [constructor|].
    by rewrite app_nil_r.
  - apply bind_Ok in H as (qv1 & H1 & H).
    rewrite visit_neighbor_cases in H1.
    rewrite bool_decide_eq_true_2 in H1 by (by right).
    destruct (idx_to_vid !! n) as [vid|] eqn:Ev; [|done].
    rewrite bool_decide_eq_false_2 in H1 by lia. simplify_eq.
    destruct (IH _ H) as (Hv & vids & Hvids & Hq). simpl in *.
    split; [done|]. exists (vid :: vids). split; [by constructor|].
    rewrite Hq, <- app_assoc. done.
Qed.

(** X2.  When the edge index has a column from the index of
    [start_entity] to the different index of [end_entity], and that index
    leads back to [end_entity], every result of [find_paths_bfs] with
    [max_hops >= 1] contains the two-vertex path
    [start_entity; end_entity]. *)
Theorem direct_edge_found sg start_entity end_entity start_idx end_idx
    max_hops ps :
  vid_to_idx sg !! start_entity = Some start_idx →
  vid_to_idx sg !! end_entity = Some end_idx →
  start_idx ≠ end_idx →
  (start_idx, end_idx) ∈ edge_index sg →
  idx_to_vid sg !! end_idx = Some end_entity →
  (1 ≤ max_hops)%Z →
  find_paths_bfs sg start_entity end_entity max_hops = Ok ps →
  [start_entity; end_entity] ∈ ps.
Proof.
  intros Hs He Hne Hedge Hvid Hhops. unfold find_paths_bfs.
  rewrite Hs, He. unfold bfs_fuel. intros H. simpl in H.
  apply bind_Ok in H as (next & Hstep & H).
  unfold bfs_step in Hstep. simpl in Hstep.
  rewrite bool_decide_eq_false_2 in Hstep by lia.
  rewrite decide_False in Hstep by done.
  apply bind_Ok in Hstep as ([queue visited] & Hv & Hstep). simplify_eq.
  apply visit_neighbors_short in Hv as (_ & vids & Hvids & Hq);
    [|simpl; lia].
  simpl in Hq, H.
  apply build_adj_elem in Hedge.
  apply list_elem_of_split_l in Hedge as (ns1 & ns2 & Hns & Hnin).
  rewrite Hns in Hvids, Hq.
  apply Forall2_app_inv_l in Hvids as (vids1 & vids' & H1 & H2 & ->).
  apply Forall2_cons_inv_l in H2 as (vid & vids2 & Hv2 & H2 & ->).
  rewrite Hvid in Hv2. injection Hv2 as <-.
  rewrite zip_with_app in Hq by (by eapply Forall2_length). simpl in Hq.
  eapply bfs_loop_reaches; [exact H|exact Hq| |simpl; lia|simpl; lia].
  apply Forall_forall. intros item Hitem.
  apply elem_of_zip_with in Hitem as (n & v & -> & Hn & _). simpl.
  by intros ->.
Qed.

(** ** Edge cases of the search *)

Lemma bfs_loop_S fuel idx_to_vid adj_list end_idx max_hops st :
  bfs_loop (S fuel) idx_to_vid adj_list end_idx max_hops st
  = next ← bfs_step idx_to_vid adj_list end_idx max_hops st;
    match next with
    | Return paths => Ok paths
    | Continue st => bfs_loop fuel idx_to_vid adj_list end_idx max_hops st
    end.
Proof. reflexivity. Qed.

(** X3.  [find_paths_bfs] returns the empty list when the start or the end
    entity has no index in the subgraph, and when [max_hops] is negative; a
    search from an indexed entity to itself with [max_hops >= 0] returns the
    one-vertex path alone, whatever the edges are. *)
Theorem find_paths_bfs_edge_cases sg start_entity end_entity max_hops :
  (vid_to_idx sg !! start_entity = None ∨ vid_to_idx sg !! end_entity = None →
   find_paths_bfs sg start_entity end_entity max_hops = Ok []) ∧
  ((max_hops < 0)%Z →
   find_paths_bfs sg start_entity end_entity max_hops = Ok []) ∧
  ((0 ≤ max_hops)%Z → is_Some (vid_to_idx sg !! start_entity) →
   find_paths_bfs sg start_entity start_entity max_hops
   = Ok [[start_entity]]).
Proof.
  unfold find_paths_bfs. split; [|split].
  - intros [-> | Hnone]; [done|]. rewrite Hnone.
    by destruct (vid_to_idx sg !! start_entity).
  - intros Hneg.
    destruct (vid_to_idx sg !! start_entity) as [start_idx|]; [|done].
    destruct (vid_to_idx sg !! end_entity) as [end_idx|]; [|done].
    unfold bfs_fuel, path_weight.
    replace (Z.to_nat (max_hops + 2) - 1) with 0 by lia. simpl.
    unfold bfs_step. simpl. by rewrite bool_decide_eq_true_2 by lia.
  - intros Hpos [start_idx ->].
    unfold bfs_fuel.
    pose proof (path_weight_pos (length (edge_index sg))
                  (Z.to_nat (max_hops + 2)) 1) as Hw.
    destruct (path_weight _ _ _) as [|fuel]; [lia|].
    assert (bfs_step (idx_to_vid sg) (build_adj (edge_index sg)) start_idx
              max_hops (Bfs [(start_idx, [start_entity])] {[start_idx]} [])
            = Ok (Continue (Bfs [] {[start_idx]} [[start_entity]]))) as Hfound.
    { unfold bfs_step. simpl. rewrite bool_decide_eq_false_2 by lia.
      by rewrite decide_True. }
    rewrite bfs_loop_S, Hfound. simpl. done.
Qed.

(** ** The edge index holds the discovered edges and nothing else *)

Lemma dict_append_columns {A} k (x : A) d :
  length (concat (dict_append k x d).*2) = S (length (concat d.*2)).
Proof.
  induction d as [|[k' l] d IH]; csimpl; [done|].
  destruct (decide (k = k')) as [->|Hne]; csimpl.
  - rewrite !length_app. simpl. lia.
  - rewrite !length_app, IH. lia.
Qed.

(** One pass of the edge loop, spelled out. *)
Lemma index_edge_unfold b acc u w t :
  index_inv acc →
  ∃ src_idx dst_idx,
    _vid_to_idx_map (index_edge b acc (u, w, t)).1 !! u = Some src_idx ∧
    _vid_to_idx_map (index_edge b acc (u, w, t)).1 !! w = Some dst_idx ∧
    _vid_to_idx_map acc.1 ⊆ _vid_to_idx_map (index_edge b acc (u, w, t)).1 ∧
    (∀ k, dict_get k (index_edge b acc (u, w, t)).2
          = if decide (t = k)
            then Some (default [] (dict_get k acc.2)
                       ++ (src_idx, dst_idx)
                          :: (if b then [(dst_idx, src_idx)] else []))
            else dict_get k acc.2) ∧
    length (concat ((index_edge b acc (u, w, t)).2).*2)
    = length (concat (acc.2).*2) + columns_per_edge b.
Proof.
  destruct acc as [self d]. intros (Hok & _ & _). simpl in Hok.
  unfold index_edge. simpl.
  pose proof (registry_ok_get_vid_idx self u Hok) as Hok1.
  pose proof (get_vid_idx_lookup self u) as Hu.
  pose proof (get_vid_idx_subseteq self u) as Hsub1.
  destruct (_get_vid_idx self u) as [si s1]. simpl in *.
  pose proof (get_vid_idx_lookup s1 w) as Hw.
  pose proof (get_vid_idx_subseteq s1 w) as Hsub2.
  destruct (_get_vid_idx s1 w) as [di s2]. simpl in *.
  exists si, di. split; [by eapply lookup_weaken|]. split; [done|].
  split; [by etrans|]. split.
  - intros k. apply dict_get_materialise.
  - destruct b; simpl; rewrite !dict_append_columns; lia.
Qed.

Lemma from_edge_weaken b (m m' : gmap string nat) k p e :
  m ⊆ m' → from_edge b m k p e → from_edge b m' k p e.
Proof.
  intros Hsub (Hk & a & c & Ha & Hc & Hp). split; [done|].
  exists a, c. split; [by eapply lookup_weaken|].
  split; [by eapply lookup_weaken|done].
Qed.

Lemma index_edges_sound b edges : ∀ acc seen,
  index_inv acc →
  (∀ k l p, dict_get k acc.2 = Some l → p ∈ l →
     ∃ e, e ∈ seen ∧ from_edge b (_vid_to_idx_map acc.1) k p e) →
  (∀ k l p, dict_get k (foldl (index_edge b) acc edges).2 = Some l → p ∈ l →
     ∃ e, e ∈ seen ++ edges ∧
          from_edge b (_vid_to_idx_map (foldl (index_edge b) acc edges).1)
                    k p e) ∧
  length (concat ((foldl (index_edge b) acc edges).2).*2)
  = length (concat (acc.2).*2) + columns_per_edge b * length edges.
Proof.
  induction edges as [|[[u w] t] edges IH]; intros acc seen Hinv Hsound.
  { cbn [foldl length]. rewrite app_nil_r. split; [done|lia]. }
  cbn [foldl].
  destruct (index_edge_spec b acc (u, w, t) Hinv) as (Hinv1 & _).
  destruct (index_edge_unfold b acc u w t Hinv)
    as (si & di & Hu & Hw & Hsub & Hget & Hlen).
  destruct (IH (index_edge b acc (u, w, t)) (seen ++ [(u, w, t)]) Hinv1)
    as [Hs Hl].
  - intros k l p Hl Hp. rewrite Hget in Hl.
    assert (∀ l0, dict_get k acc.2 = Some l0 → p ∈ l0 →
              ∃ e, e ∈ seen ++ [(u, w, t)] ∧
                   from_edge b (_vid_to_idx_map
                                  (index_edge b acc (u, w, t)).1) k p e)
      as Hold.
    { intros l0 Hl0 Hp0. destruct (Hsound _ _ _ Hl0 Hp0) as (e & He & Hfrom).
      exists e. split; [apply elem_of_app; by left|].
      by eapply from_edge_weaken. }
    destruct (decide (t = k)) as [->|Hne]; [|by eapply Hold].
    injection Hl as <-. apply elem_of_app in Hp as [Hp|Hp].
    + destruct (dict_get k acc.2) as [l0|] eqn:E; simpl in Hp.
      * by eapply Hold.
      * by apply elem_of_nil in Hp.
    + exists (u, w, k). split; [apply elem_of_app; right; left|].
      split; [done|]. exists si, di. split; [done|]. split; [done|].
      apply elem_of_cons in Hp as [->|Hp]; [by left|].
      destruct b; [|by apply elem_of_nil in Hp].
      apply list_elem_of_singleton in Hp as ->. by right.
  - split.
    + intros k l p Hkl Hp. destruct (Hs k l p Hkl Hp) as (e & He & Hfrom).
      exists e. split; [|done]. by rewrite <- app_assoc in He.
    + rewrite Hl, Hlen. cbn [length]. lia.
Qed.

Lemma create_edge_index_sound self edges b :
  registry_ok self →
  let r := _create_edge_index self edges b in
  length r.1 = columns_per_edge b * length edges ∧
  (∀ p, p ∈ r.1 →
     ∃ e k, e ∈ edges ∧ from_edge b (_vid_to_idx_map r.2) k p e) ∧
  (∀ k l p, _edge_indices self = ∅ → _edge_indices r.2 !! k = Some l → p ∈ l →
     ∃ e, e ∈ edges ∧ from_edge b (_vid_to_idx_map r.2) k p e).
Proof.
  intros Hok r. unfold _create_edge_index in r.
  destruct edges as [|e0 edges].
  { subst r. simpl. split; [lia|]. split; [by intros p ?%elem_of_nil|].
    intros k l p ->. by rewrite lookup_empty. }
  unfold index_edges in r.
  assert (index_inv (self, [])) as Hinv.
  { split; [done|]. split; [constructor|]. by intros k l p. }
  destruct (index_edges_spec b (e0 :: edges) _ Hinv)
    as ((_ & Hnd & _) & (_ & _ & Hei & _) & _).
  destruct (index_edges_sound b (e0 :: edges) (self, []) [] Hinv)
    as [Hsound Hlen]; [by intros k l p|].
  destruct (foldl (index_edge b) (self, []) (e0 :: edges)) as [self' d]
    eqn:Efold.
  subst r. simpl in *. split; [by rewrite Hlen|]. split.
  - intros p Hp. apply dict_concat_elem in Hp as (k & l & Hkl & Hp).
    destruct (Hsound k l p) as (e & He & Hfrom);
      [by apply dict_get_elem|done|]. by exists e, k.
  - intros k l p Hempty Hl Hp. rewrite dict_store_lookup in Hl by done.
    rewrite Hei, Hempty, lookup_empty in Hl.
    destruct (dict_get k d) as [l'|] eqn:E; [|done]. injection Hl as ->.
    by eapply Hsound.
Qed.

Lemma registry_size self :
  registry_ok self →
  size (_vid_to_idx_map self) = length (_idx_to_vid_map self).
Proof.
  intros Hok.
  assert (NoDup (_idx_to_vid_map self)) as Hnd.
  { apply NoDup_alt. intros i j vid Hi Hj. apply Hok in Hi, Hj. congruence. }
  rewrite <- (size_list_to_set (C:=gset string) _ Hnd), <- size_dom.
  f_equal. apply set_eq. intros vid.
  rewrite elem_of_dom, elem_of_list_to_set. symmetry.
  by apply registry_ok_elem.
Qed.

Section SamplerFurther.

Context {Session : Type} (execute : Session → query → response * Session).

Lemma sample_subgraph_registry session center_vid n_hops space_name b
    max_nodes sg session' :
  sample_subgraph execute session center_vid n_hops space_name b max_nodes
  = Ok (sg, session') →
  registry_ok (Sampler (vid_to_idx sg) (idx_to_vid sg)
                       (edge_indices_by_type sg) (node_types sg)).
Proof.
  intros H. apply sample_subgraph_Ok in H as (g & _ & Hreg & H).
  destruct H as (_ & Hm & Hl & _).
  destruct (create_edge_index_spec (g_self g) (g_edges g) b
              (registry_ok_of _ Hreg)) as (Hok & _).
  intros vid idx. simpl. rewrite Hm, Hl. apply Hok.
Qed.

Lemma sample_subgraph_agree session center_vid n_hops space_name b
    max_nodes sg session' :
  sample_subgraph execute session center_vid n_hops space_name b max_nodes
  = Ok (sg, session') →
  indices_agree sg.
Proof.
  intros H vid idx Hv. by apply (sample_subgraph_registry _ _ _ _ _ _ _ _ H).
Qed.

(** X4.  A subgraph returned by [sample_subgraph] is well formed: its
    [vid_to_idx] and [idx_to_vid] are inverse to each other, [idx_to_vid]
    has no repetition, [num_nodes] is the length of [idx_to_vid] and the
    size of [vid_to_idx], and every entry of [edge_index] is a position of
    [idx_to_vid]. *)
Theorem sampled_subgraph_well_formed session center_vid n_hops space_name
    use_bidirectional max_nodes sg session' :
  sample_subgraph execute session center_vid n_hops space_name
                  use_bidirectional max_nodes = Ok (sg, session') →
  (∀ vid idx, vid_to_idx sg !! vid = Some idx ↔ idx_to_vid sg !! idx = Some vid) ∧
  NoDup (idx_to_vid sg) ∧
  num_nodes sg = length (idx_to_vid sg) ∧
  num_nodes sg = size (vid_to_idx sg) ∧
  (∀ i j, (i, j) ∈ edge_index sg → i < num_nodes sg ∧ j < num_nodes sg).
Proof.
  intros H.
  pose proof (sample_subgraph_registry _ _ _ _ _ _ _ _ H) as Hok.
  pose proof (sample_subgraph_in_range execute _ _ _ _ _ _ _ _ H) as Hrange.
  destruct (sample_subgraph_indexed execute _ _ _ _ _ _ _ _ H)
    as (g & _ & _ & _ & Hnd & Hn).
  split; [exact Hok|]. split; [done|]. split; [done|]. split.
  - rewrite Hn. symmetry. exact (registry_size _ Hok).
  - intros i j Hij. unfold edges_in_range in Hrange.
    rewrite Forall_forall in Hrange. rewrite Hn. exact (Hrange _ Hij).
Qed.

(** X5.  The edge index holds the discovered edges and nothing else: it has
    one column per discovered edge (counted with repetitions), two when
    [use_bidirectional] is set, and every column, in [edge_index] and in
    the per-type lists, is the pair of indices of a discovered edge (of
    that type), or the reversed pair when [use_bidirectional] is set. *)
Theorem edge_index_sound session center_vid n_hops space_name
    use_bidirectional max_nodes sg session' :
  sample_subgraph execute session center_vid n_hops space_name
                  use_bidirectional max_nodes = Ok (sg, session') →
  ∃ g, get_subgraph_data execute (execute session (Use space_name)).2
         center_vid n_hops max_nodes = Ok g ∧
       length (edge_index sg)
       = columns_per_edge use_bidirectional * length (g_edges g) ∧
       (∀ p, p ∈ edge_index sg →
          ∃ e k, e ∈ g_edges g ∧
                 from_edge use_bidirectional (vid_to_idx sg) k p e) ∧
       (∀ k l p, edge_indices_by_type sg !! k = Some l → p ∈ l →
          ∃ e, e ∈ g_edges g ∧
               from_edge use_bidirectional (vid_to_idx sg) k p e).
Proof.
  intros H. apply sample_subgraph_Ok in H as (g & Hg & Hreg & H).
  exists g. split; [done|].
  destruct H as (-> & -> & _ & _ & _ & -> & _).
  destruct (create_edge_index_sound (g_self g) (g_edges g) use_bidirectional
              (registry_ok_of _ Hreg)) as (Hlen & Hcols & Htyped).
  split; [done|]. split; [done|].
  intros k l p. apply Htyped. by injection Hreg.
Qed.

(** X6.  [center_node_idx] is the index of the center exactly when the
    center is an end of a discovered edge; otherwise it is [0], which is
    the index of another vertex as soon as there is one.  It is below
    [num_nodes] unless the subgraph is empty. *)
Theorem center_index session center_vid n_hops space_name use_bidirectional
    max_nodes sg session' :
  sample_subgraph execute session center_vid n_hops space_name
                  use_bidirectional max_nodes = Ok (sg, session') →
  ∃ g, get_subgraph_data execute (execute session (Use space_name)).2
         center_vid n_hops max_nodes = Ok g ∧
       (idx_to_vid sg !! center_node_idx sg = Some center_vid
        ↔ ∃ e, e ∈ g_edges g ∧ endpoint center_vid e) ∧
       ((¬ ∃ e, e ∈ g_edges g ∧ endpoint center_vid e) →
        center_node_idx sg = 0) ∧
       (center_node_idx sg < num_nodes sg ∨ num_nodes sg = 0).
Proof.
  intros H.
  pose proof (sample_subgraph_registry _ _ _ _ _ _ _ _ H) as Hok.
  destruct (sample_subgraph_indexed execute _ _ _ _ _ _ _ _ H)
    as (g & Hg & Hidx & Hin & _ & Hn).
  apply sample_subgraph_Ok in H as (g' & _ & _ & H).
  destruct H as (_ & Hm & _ & _ & Hc & _). simpl in Hc. rewrite <- Hm in Hc.
  exists g. split; [done|].
  destruct (vid_to_idx sg !! center_vid) as [idx|] eqn:E; simpl in Hc.
  - assert (∃ e, e ∈ g_edges g ∧ endpoint center_vid e) as Hend
      by (apply Hidx; by rewrite E).
    apply Hok in E. simpl in E. rewrite Hc.
    split; [by split|]. split; [by intros []|].
    left. rewrite Hn. by eapply lookup_lt_Some.
  - assert (¬ ∃ e, e ∈ g_edges g ∧ endpoint center_vid e) as Hnone.
    { intros He. apply Hidx in He. rewrite E in He. by destruct He. }
    split; [|split; [done|]].
    + split; [|done]. intros Hl. apply Hin.
      by eapply list_elem_of_lookup_2.
    + rewrite Hc, Hn. destruct (idx_to_vid sg); simpl; [by right|left; lia].
Qed.

(** X7.  How far the node budget can be missed: the number of indexed
    vertices is at most [max(1, max_nodes - 1)] plus the two ends of one
    row on the hop-wise path ([n_hops <= 2]), plus three on the bulk path,
    where a row brings a vertex and an edge. *)
Theorem node_budget_overshoot session center_vid n_hops space_name
    use_bidirectional max_nodes sg session' :
  sample_subgraph execute session center_vid n_hops space_name
                  use_bidirectional max_nodes = Ok (sg, session') →
  (Z.of_nat (num_nodes sg)
   ≤ Z.max 1 (max_nodes - 1) + (if bool_decide (n_hops ≤ 2)%Z then 2 else 3))%Z.
Proof.
  intros H.
  destruct (sample_subgraph_indexed execute _ _ _ _ _ _ _ _ H)
    as (g & Hg & _ & Hin & Hnd & Hn).
  assert (ends_in_nodes g ∧
          (Z.of_nat (size (g_nodes g))
           ≤ Z.max 1 (max_nodes - 1)
             + (if bool_decide (n_hops ≤ 2)%Z then 2 else 3))%Z)
    as [Hends Hsize].
  { pose proof (get_subgraph_data_bound execute _ _ _ _ _ Hg) as [Hends Hb].
    split; [done|]. case_bool_decide as Hhops; [|done].
    unfold get_subgraph_data in Hg.
    rewrite bool_decide_eq_true_2 in Hg by done.
    unfold _get_subgraph_using_go in Hg.
    destruct (execute _ _) as [resp session1].
    apply bind_Ok in Hg as (self & _ & Hg).
    apply go_hops_bound in Hg as [_ ?]; [done| |].
    - intros e He. by apply elem_of_nil in He.
    - unfold may_read. cbn [g_nodes]. rewrite size_singleton. lia. }
  assert (length (idx_to_vid sg) ≤ size (g_nodes g)); [|lia].
  apply length_le_size; [done|].
  intros v Hv. apply Hin in Hv as (e & He & [->| ->]); by apply Hends.
Qed.

End SamplerFurther.

(** ** Discovered paths lead from A to B *)

Lemma last_elem_of {A} (l : list A) x : last l = Some x → x ∈ l.
Proof.
  intros (l' & ->)%last_Some. apply elem_of_app. right. left.
Qed.

Lemma combined_connects sg_a sg_b entity_a entity_b bridge_node
    (path_a path_b : path) :
  connects sg_a entity_a bridge_node path_a →
  connects sg_b bridge_node entity_b path_b →
  bridge_node ≠ entity_b →
  head (path_a ++ drop 1 path_b) = Some entity_a ∧
  last (path_a ++ drop 1 path_b) = Some entity_b ∧
  bridge_node ∈ path_a ++ drop 1 path_b.
Proof.
  intros (Hha & Hla & _) (Hhb & Hlb & _) Hne.
  split; [|split].
  - destruct path_a; [done|]. done.
  - destruct path_b as [|v rest]; [done|]. simpl in Hhb. injection Hhb as ->.
    destruct rest as [|w rest].
    + simpl in Hlb. congruence.
    + simpl drop. rewrite last_app. by rewrite last_cons_cons in Hlb; rewrite Hlb.
  - apply elem_of_app. left. by apply last_elem_of.
Qed.

Lemma bridge_loop_connects subgraph_a subgraph_b entity_a entity_b max_hops
    through bridges :
  indices_agree subgraph_a → indices_agree subgraph_b →
  (∀ bridge_node, bridge_node ∈ bridges →
     bridge_node ∈ through ∧ bridge_node ≠ entity_b) →
  ∀ bridge_paths ps,
    bridge_loop subgraph_a subgraph_b entity_a entity_b max_hops bridges
                bridge_paths = Ok ps →
    Forall (bridges_over entity_a entity_b through) bridge_paths →
    Forall (bridges_over entity_a entity_b through) ps.
Proof.
  intros Ha Hb. induction bridges as [|bridge_node bridges IH];
    intros Hbridges acc ps H Hacc; simpl in H; [by simplify_eq|].
  apply bind_Ok in H as (paths_a & Hpa & H).
  apply bind_Ok in H as (paths_b & Hpb & H).
  apply find_paths_bfs_walks in Hpa; [|done].
  apply find_paths_bfs_walks in Hpb; [|done].
  rewrite Forall_forall in Hpa, Hpb.
  destruct (Hbridges bridge_node) as [Hthrough Hne]; [left|].
  eapply IH; [|exact H|].
  { intros bn Hbn. apply Hbridges. by right. }
  apply Forall_app. split; [done|]. apply Forall_forall. intros p Hp.
  apply combine_paths_elem in Hp as (path_a & path_b & Hin_a & Hin_b & ->).
  destruct (combined_connects subgraph_a subgraph_b entity_a entity_b
              bridge_node path_a path_b) as (Hh & Hl & Hbn); auto.
  split; [done|]. split; [done|]. by exists bridge_node.
Qed.

Section DiscoveryFurther.

Context {Session : Type} (execute : Session → query → response * Session).

(** X8.  In every result of [find_multihop_relationships] there are at
    most five paths, and each of them leads from entity A to entity B.  A
    path found directly is a walk of the subgraph around A; a path of the
    bridge method passes through one of the reported bridge nodes.  When
    [found] is [False] there is no path and no bridge node. *)
Theorem discovered_paths_connect session entity_a entity_b max_hops d
    session' :
  find_multihop_relationships execute session entity_a entity_b max_hops
  = Ok (d, session') →
  length (paths d) ≤ 5 ∧
  (∀ p, p ∈ paths d → head p = Some entity_a ∧ last p = Some entity_b) ∧
  (method d = "direct_subgraph" →
     bridge_nodes d = None ∧ ∀ p, p ∈ paths d → is_walk (subgraph_of d) p) ∧
  (method d = "bridge_nodes" →
     ∃ through, bridge_nodes d = Some through ∧ through ≠ [] ∧
       (∀ bridge_node, bridge_node ∈ through →
          is_Some (vid_to_idx (subgraph_of d) !! bridge_node)) ∧
       ∀ p, p ∈ paths d → ∃ bridge_node, bridge_node ∈ through ∧
                                         bridge_node ∈ p) ∧
  (found d = false → paths d = [] ∧ bridge_nodes d = None).
Proof.
  unfold find_multihop_relationships. intros H.
  apply bind_Ok in H as ([subgraph_a session1] & Ha & H).
  pose proof (sample_subgraph_agree execute _ _ _ _ _ _ _ _ Ha) as Hagree_a.
  case_bool_decide as Hb.
  - apply bind_Ok in H as (ps & Hps & H). simplify_eq. simpl.
    pose proof (find_paths_bfs_paths _ _ _ _ _ Hps) as [_ Hlen].
    apply find_paths_bfs_walks in Hps; [|done]. rewrite Forall_forall in Hps.
    split; [done|]. split; [intros p Hp; by destruct (Hps p Hp) as (? & ? & ?)|].
    split; [|done]. intros _. split; [done|].
    intros p Hp. by destruct (Hps p Hp) as (? & ? & ?).
  - apply bind_Ok in H as ([subgraph_b session2] & Hsb & H).
    pose proof (sample_subgraph_agree execute _ _ _ _ _ _ _ _ Hsb) as Hagree_b.
    case_bool_decide as Hne.
    + apply bind_Ok in H as (bridge_paths & Hbp & H). simplify_eq. simpl.
      set (through := elements (dom (vid_to_idx subgraph_a)
                                ∩ dom (vid_to_idx subgraph_b))) in *.
      assert (∀ bn, bn ∈ through →
                is_Some (vid_to_idx subgraph_a !! bn)) as Hthrough.
      { intros bn Hbn. apply elem_of_elements in Hbn.
        apply elem_of_dom. set_solver. }
      eapply (bridge_loop_connects _ _ _ _ _ through) in Hbp;
        [|done|done| |constructor].
      2:{ intros bn (i & Hi & _)%elem_of_take.
          apply list_elem_of_lookup_2 in Hi. split; [done|].
          intros ->. apply Hb. apply elem_of_dom. by apply Hthrough. }
      rewrite Forall_forall in Hbp.
      assert (∀ p, p ∈ take 5 bridge_paths →
                bridges_over entity_a entity_b through p) as Hall.
      { intros p (i & Hi & _)%elem_of_take. apply Hbp.
        by eapply list_elem_of_lookup_2. }
      split; [rewrite length_take; lia|].
      split; [intros p Hp; by destruct (Hall p Hp) as (? & ? & ?)|].
      split; [done|]. split; [|done]. intros _. exists through.
      split; [done|]. split.
      * intros Hnil. apply Hne. apply elements_empty_inv in Hnil.
        by apply leibniz_equiv in Hnil.
      * split; [done|]. intros p Hp. by destruct (Hall p Hp) as (_ & _ & ?).
    + simplify_eq. simpl. split; [lia|].
      split; [by intros p ?%elem_of_nil|]. done.
Qed.

End DiscoveryFurther.

(** ** Batches of property statements *)

Lemma batches_from_lookup {A} (n : nat) : ∀ fuel (l : list A) k,
  0 < n → length l ≤ fuel →
  batches_from fuel n l !! k
  = if decide (k * n < length l) then Some (take n (drop (k * n) l)) else None.
Proof.
  induction fuel as [|fuel IH]; intros l k Hn Hfuel.
  - destruct l; [|simpl in Hfuel; lia].
    case_decide; [simpl in *; lia|done].
  - destruct l as [|a l].
    { case_decide; [simpl in *; lia|done]. }
    cbn [batches_from]. destruct k as [|k].
    + case_decide; [done|simpl in *; lia].
    + cbn [lookup list_lookup]. rewrite IH; [|done|].
      2:{ rewrite length_drop. simpl in *. lia. }
      rewrite length_drop, drop_drop.
      replace (n + k * n) with (S k * n) by lia.
      repeat case_decide; try done; lia.
Qed.

Lemma batches_from_concat {A} (n : nat) : ∀ fuel (l : list A),
  0 < n → length l ≤ fuel →
  concat (batches_from fuel n l) = l ∧
  Forall (λ b, 0 < length b ≤ n) (batches_from fuel n l).
Proof.
  induction fuel as [|fuel IH]; intros l Hn Hfuel.
  - destruct l; [done|simpl in Hfuel; lia].
  - destruct l as [|a l]; [done|]. cbn [batches_from concat].
    destruct (IH (drop n (a :: l)) Hn) as [Hc Hall].
    { rewrite length_drop. simpl in *. lia. }
    rewrite Hc, take_drop. split; [done|]. constructor; [|done].
    rewrite length_take. simpl. lia.
Qed.

Lemma group_by_type_get types node_vids : ∀ by_type t,
  dict_get t (group_by_type types node_vids by_type)
  = match filter (λ vid, type_of types vid = t) node_vids with
    | [] => dict_get t by_type
    | vids => Some (default [] (dict_get t by_type) ++ vids)
    end.
Proof.
  induction node_vids as [|vid rest IH]; intros by_type t; [done|].
  cbn [group_by_type]. rewrite IH. fold (type_of types vid).
  destruct (decide (type_of types vid = t)) as [<-|Hne].
  - rewrite filter_cons_True by done. rewrite dict_get_append_eq. simpl.
    destruct (filter _ rest); [done|]. by rewrite <- app_assoc.
  - rewrite filter_cons_False by done.
    by rewrite dict_get_append_ne.
Qed.

Section FeatureQueries.

Context {Session : Type} (execute : Session → query → response * Session).

Lemma fetch_batches_log node_type bs : ∀ session log features r,
  fetch_batches (logged execute) node_type bs (session, log) features = Ok r →
  r.2.2 = log ++ (FetchProp node_type <$> bs).
Proof.
  induction bs as [|batch bs IH]; intros session log features r H;
    simpl in H.
  - simplify_eq. simpl. by rewrite app_nil_r.
  - unfold logged in H at 1. simpl in H.
    destruct (execute session (FetchProp node_type batch)) as [resp session1].
    destruct (is_succeeded resp).
    + apply bind_Ok in H as (features1 & _ & H).
      apply IH in H. rewrite H. by rewrite <- app_assoc.
    + apply IH in H. rewrite H. by rewrite <- app_assoc.
Qed.

Lemma fetch_types_log by_type : ∀ session log features r,
  fetch_types (logged execute) by_type (session, log) features = Ok r →
  r.2.2 = log ++ ('(node_type, vids) ← by_type;
                  if decide (node_type = "unknown") then []
                  else FetchProp node_type <$> batches 100 vids).
Proof.
  induction by_type as [|[node_type vids] by_type IH];
    intros session log features r H; simpl in H.
  - simplify_eq. simpl. by rewrite app_nil_r.
  - csimpl. destruct (decide (node_type = "unknown")).
    + by apply IH in H.
    + apply bind_Ok in H as ([features1 [session1 log1]] & Hb & H).
      apply fetch_batches_log in Hb. simpl in Hb. subst log1.
      apply IH in H. rewrite H. by rewrite <- app_assoc.
Qed.

(** X9.  [_get_node_features] sends one property statement per batch and
    nothing else: the vids are filed under their recorded type (['unknown']
    without one), each type's vids in their order in [node_vids]; no
    statement is sent for ['unknown']; the vids of a type are cut, in
    order, into batches of 100 (the last one may be shorter, none is
    empty), so every vid of a known type is asked for exactly once. *)
Theorem node_feature_queries self session log node_vids features session'
    log' :
  _get_node_features (logged execute) self (session, log) node_vids
  = Ok (features, (session', log')) →
  log' = log ++ planned_fetches (_node_types self) node_vids ∧
  (∀ t vids,
     dict_get t (group_by_type (_node_types self) node_vids []) = Some vids
     ↔ vids ≠ [] ∧
       vids = filter (λ vid, type_of (_node_types self) vid = t) node_vids) ∧
  (∀ (vids : list string),
     concat (batches 100 vids) = vids ∧
     Forall (λ b, 0 < length b ≤ 100) (batches 100 vids) ∧
     ∀ k, batches 100 vids !! k
          = if decide (k * 100 < length vids)
            then Some (take 100 (drop (k * 100) vids)) else None).
Proof.
  unfold _get_node_features. intros H.
  apply fetch_types_log in H. simpl in H. split; [done|]. split.
  - intros t vids. rewrite group_by_type_get. simpl.
    destruct (filter _ node_vids) as [|v vs]; split.
    + done.
    + by intros [? ->].
    + intros [= <-]. done.
    + by intros [_ ->].
  - intros vids. unfold batches.
    destruct (batches_from_concat 100 (length vids) vids) as [Hc Hall];
      [lia|lia|].
    split; [done|]. split; [done|]. intros k.
    apply batches_from_lookup; lia.
Qed.

End FeatureQueries.

(** ** The graph store *)

Section GraphStoreProperties.

Import GraphStore.

Context {Session : Type} (execute : Session → query → response * Session).

Lemma list_index_Some (x : string) (l : list string) (j : nat) :
  list_index x l = Some j ↔
  l !! j = Some x ∧ ∀ j', j' < j → l !! j' ≠ Some x.
Proof.
  revert j. induction l as [|y l IH]; intros j; simpl.
  - split; [done|]. by intros [? _].
  - case_decide as Hxy.
    + subst y. split.
      * intros [= <-]. split; [done|]. lia.
      * intros [Hj Hfirst]. destruct j as [|j]; [done|].
        by destruct (Hfirst 0); [lia|].
    + destruct (list_index x l) as [k|]; simpl.
      * destruct (proj1 (IH k) eq_refl) as [Hk Hfirst0]. split.
        -- intros [= <-].
           split; [done|]. intros [|j'] ?; simpl; [congruence|].
           apply Hfirst0. lia.
        -- intros [Hj Hfirst]. destruct j as [|j]; simpl in Hj; [congruence|].
           f_equal. assert (Some k = Some j) as [= ->]; [|done].
           apply (proj2 (IH j)).
           split; [done|]. intros j' ?. apply (Hfirst (S j')). lia.
      * split; [done|]. intros [Hj Hfirst].
        destruct j as [|j]; simpl in Hj; [congruence|].
        assert (@None nat = Some j) as Hsome; [|congruence].
        apply IH. split; [done|]. intros j' ?. apply (Hfirst (S j')). lia.
Qed.

Lemma list_index_None (x : string) (l : list string) :
  list_index x l = None ↔ x ∉ l.
Proof.
  induction l as [|y l IH]; simpl.
  - split; [intros _; apply not_elem_of_nil|done].
  - case_decide as Hxy.
    + subst. split; [done|]. intros []. by left.
    + rewrite not_elem_of_cons. destruct (list_index x l); simpl.
      * split; [done|]. intros [_ Hnot]. by apply IH in Hnot.
      * split; [|done]. intros _. split; [done|]. by apply IH.
Qed.

(** What the loop over the columns adds: columns from [src_idx] to the
    first position of a vertex that [src_id] is joined to. *)
Lemma matching_edges_spec (sg : subgraph) (src_idx : nat) (src_id : string)
    (dst_ids : list string) (columns edges out : list (nat * nat)) :
  matching_edges sg src_idx src_id dst_ids columns edges = Ok out →
  (∀ c, c ∈ columns → c ∈ edge_index sg) →
  ∃ new, out = edges ++ new ∧
    ∀ c, c ∈ new →
      c.1 = src_idx ∧
      ∃ dst_id, list_index dst_id dst_ids = Some c.2 ∧ joined sg src_id dst_id.
Proof.
  revert edges. induction columns as [|[i j] columns IH]; intros edges Hrun Hin.
  - injection Hrun as <-. exists []. rewrite app_nil_r. split; [done|].
    intros c Hc. by apply elem_of_nil in Hc.
  - simpl in Hrun.
    apply bind_Ok in Hrun as (u & Hu & Hrun).
    apply bind_Ok in Hrun as (v & Hv & Hrun).
    apply subscript_Ok in Hu. apply subscript_Ok in Hv.
    apply IH in Hrun as (new & -> & Hnew);
      [|intros c Hc; apply Hin; by right].
    case_bool_decide as Hsrc; [destruct (list_index v dst_ids) as [k|] eqn:Hk|];
      try (exists new; split; [done|exact Hnew]).
    subst u. exists ((src_idx, k) :: new). split; [by rewrite <- app_assoc|].
    intros c [->|Hc]%elem_of_cons; [|by apply Hnew].
    split; [done|]. exists v. split; [done|].
    exists i, j. split; [apply Hin; by left|done].
Qed.


(** What the loop over the sources adds: every new column comes from a
    one-hop sample around its source. *)
Lemma collect_edges_spec (self : graph_store) (dst_ids : list string)
    (src_ids : list (nat * string)) (session session' : Session)
    (edges out : list (nat * nat)) :
  collect_edges execute self dst_ids src_ids session edges
  = Done (out, session') →
  ∃ new, out = edges ++ new ∧
    ∀ c, c ∈ new →
      ∃ src_id dst_id s sg s',
        (c.1, src_id) ∈ src_ids ∧
        list_index dst_id dst_ids = Some c.2 ∧
        sample_subgraph execute s src_id 1 (space_name self) true 1000
        = Ok (sg, s') ∧
        joined sg src_id dst_id.
Proof.
  revert session edges.
  induction src_ids as [|[i src_id] src_ids IH]; intros session edges Hrun.
  - injection Hrun as <- <-. exists []. rewrite app_nil_r. split; [done|].
    intros c Hc. by apply elem_of_nil in Hc.
  - simpl in Hrun.
    destruct (sample_subgraph execute session src_id 1 (space_name self)
                true 1000) as [[sg s1]|] eqn:Hsample; [|done].
    destruct (matching_edges sg i src_id dst_ids (edge_index sg) edges)
      as [edges1|] eqn:Hmatch; [|done].
    apply matching_edges_spec in Hmatch as (new1 & -> & Hnew1); [|done].
    apply IH in Hrun as (new2 & -> & Hnew2).
    exists (new1 ++ new2). split; [by rewrite app_assoc|].
    intros c [Hc|Hc]%elem_of_app.
    + destruct (Hnew1 c Hc) as (Hi & dst_id & Hdst & Hjoined).
      exists src_id, dst_id, session, sg, s1. rewrite Hi.
      split; [by left|done].
    + destruct (Hnew2 c Hc) as (src' & dst_id & s & sg' & s' & Hsrc & Hrest).
      exists src', dst_id, s, sg', s'. split; [by right|done].
Qed.

(** The loop over the columns of a subgraph whose columns are within
    [idx_to_vid] raises nothing. *)
Lemma matching_edges_total (sg : subgraph) (src_idx : nat) (src_id : string)
    (dst_ids : list string) (columns edges : list (nat * nat)) :
  (∀ c, c ∈ columns →
        c.1 < length (idx_to_vid sg) ∧ c.2 < length (idx_to_vid sg)) →
  ∃ out, matching_edges sg src_idx src_id dst_ids columns edges = Ok out.
Proof.
  revert edges. induction columns as [|[i j] columns IH]; intros edges Hin.
  - by eexists.
  - destruct (Hin (i, j)) as [Hi Hj]; [by left|]. simpl in Hi, Hj.
    apply lookup_lt_is_Some in Hi as [u Hu].
    apply lookup_lt_is_Some in Hj as [v Hv].
    simpl. unfold subscript. rewrite Hu, Hv. simpl.
    apply IH. intros c Hc. apply Hin. by right.
Qed.

(** A cache key always carries the layout ["coo"], and a registered name
    is always backed by a cached edge type of that name with the
    registered types. *)
Lemma built_inv (self : graph_store) :
  built self →
  (∀ et layout, is_Some (_edge_cache self !! (et, layout)) → layout = "coo") ∧
  (∀ n ty, _edge_attrs self !! n = Some ty →
     ∃ et, edge_name_of et = n ∧ types_of et = ty ∧
           is_Some (_edge_cache self !! (et, "coo"))).
Proof.
  induction 1 as [sp|self et ei layout self' _ [IHc IHa] Hput
                  |self et layout _ [IHc IHa]|self f _ IH]; [| | |exact IH].
  - split; [intros et layout [? Hin]|intros n ty Hin];
      simpl in Hin; by rewrite lookup_empty in Hin.
  - unfold _put_edge_index in Hput. case_decide as Hcoo; [|done].
    injection Hput as <-. simpl. split.
    + intros et0 layout0 [ei0 [[[= <- <-] _]|[_ Hin]]%lookup_insert_Some];
        [done|]. by eapply IHc.
    + intros n ty [[<- <-]|[Hne Hin]]%lookup_insert_Some.
      * exists et. subst layout. split; [done|]. split; [done|].
        rewrite lookup_insert_eq. by eexists.
      * destruct (IHa n ty Hin) as (et0 & <- & <- & Hcached).
        exists et0. split; [done|]. split; [done|].
        rewrite lookup_insert_ne; [done|congruence].
  - unfold _remove_edge_index. case_bool_decide; [|done]. simpl. split.
    + intros et0 layout0 [ei0 [_ Hin]%lookup_delete_Some]. by eapply IHc.
    + intros n ty [Hne Hin]%lookup_delete_Some.
      destruct (IHa n ty Hin) as (et0 & <- & <- & Hcached).
      exists et0. split; [done|]. split; [done|].
      rewrite lookup_delete_ne; [done|congruence].
Qed.

Lemma elem_of_get_all_edge_attrs (self : graph_store) (et : edge_type) :
  et ∈ get_all_edge_attrs self ↔
  ∃ n ty, _edge_attrs self !! n = Some ty ∧ et = listed_as (n, ty).
Proof.
  unfold get_all_edge_attrs. rewrite list_elem_of_fmap. split.
  - intros ([n ty] & -> & Hin%elem_of_map_to_list). by exists n, ty.
  - intros (n & ty & Hin & ->). exists (n, ty).
    split; [done|]. by apply elem_of_map_to_list.
Qed.

Lemma edge_name_of_listed_as (entry : string * option (string * string)) :
  edge_name_of (listed_as entry) = entry.1.
Proof.
  destruct entry as [n [[s d]|]]; unfold listed_as; simpl; [|done].
  by case_bool_decide.
Qed.

(** X10: an edge index stored under the layout "coo" is what the store
    returns for its edge type from then on, whole without an index and
    filtered to the columns between the given indices with one, with no
    remote query; its edge type is listed; removing it succeeds once, after
    which the store answers an unindexed lookup with the empty index and a
    second removal reports [False]. *)
Theorem edge_index_cache_round_trip (self : graph_store) (session : Session)
    (et : edge_type) (ei : list (Z * Z)) :
  ∃ self',
    _put_edge_index self et ei "coo" = Done (true, self') ∧
    _get_edge_index execute self' session et "coo" None = Done (ei, session) ∧
    (∀ src_indices dst_indices,
       _get_edge_index execute self' session et "coo"
                       (Some (src_indices, dst_indices))
       = Done (filter (λ c : Z * Z, c.1 ∈ src_indices ∧ c.2 ∈ dst_indices) ei,
               session)) ∧
    listed_as (edge_name_of et, types_of et) ∈ get_all_edge_attrs self' ∧
    ∃ self'',
      _remove_edge_index self' et "coo" = (true, self'') ∧
      _edge_cache self'' !! (et, "coo") = None ∧
      _edge_attrs self'' !! edge_name_of et = None ∧
      _get_edge_index execute self'' session et "coo" None
      = Done ([], session) ∧
      _remove_edge_index self'' et "coo" = (false, self'').
Proof.
  eexists. split; [reflexivity|].
  unfold _get_edge_index. simpl. rewrite lookup_insert_eq.
  split; [done|]. split; [done|]. split.
  { apply elem_of_get_all_edge_attrs. eexists _, _. split; [|done].
    simpl. by rewrite lookup_insert_eq. }
  eexists. split.
  { unfold _remove_edge_index. simpl.
    rewrite bool_decide_eq_true_2; [reflexivity|].
    apply elem_of_dom. by rewrite lookup_insert_eq. }
  simpl. rewrite !lookup_delete_eq. split; [done|]. split; [done|].
  split; [done|].
  unfold _remove_edge_index. simpl.
  rewrite bool_decide_eq_false_2; [done|].
  rewrite elem_of_dom, lookup_delete_eq. by intros [].
Qed.

(** X11: a store that was made by [__init__] and changed only through its
    own methods holds nothing under a layout other than "coo": with such a
    layout, storing and looking up raise [NotImplementedError], and
    removing reports [False] and changes nothing. *)
Theorem only_coo_layout (self : graph_store) (session : Session)
    (et : edge_type) (layout : string) (ei : list (Z * Z))
    (index : option (list Z * list Z)) :
  built self → layout ≠ "coo" →
  _put_edge_index self et ei layout = Failed NotImplementedError ∧
  _get_edge_index execute self session et layout index
  = Failed NotImplementedError ∧
  _remove_edge_index self et layout = (false, self).
Proof.
  intros [Hcoo _]%built_inv Hlayout.
  assert (_edge_cache self !! (et, layout) = None) as Hmiss.
  { apply eq_None_not_Some. intros Hin. by apply Hcoo in Hin. }
  unfold _put_edge_index, _get_edge_index, _remove_edge_index.
  rewrite Hmiss, !decide_False by done.
  split; [done|]. split; [done|].
  rewrite bool_decide_eq_false_2; [done|].
  rewrite elem_of_dom, Hmiss. by intros [].
Qed.

(** X12: in a store made by [__init__] and changed only through its own
    methods, every entry of [get_all_edge_attrs] is the listing of an edge
    type that is cached under "coo" (the type itself, or its bare name when
    one of its two node types is empty), and no two entries have the same
    edge name. *)
Theorem listed_edge_types_are_cached (self : graph_store) :
  built self →
  (∀ et, et ∈ get_all_edge_attrs self →
     ∃ cached, is_Some (_edge_cache self !! (cached, "coo")) ∧
               et = listed_as (edge_name_of cached, types_of cached)) ∧
  NoDup (edge_name_of <$> get_all_edge_attrs self).
Proof.
  intros [_ Hattrs]%built_inv. split.
  - intros et (n & ty & Hin & ->)%elem_of_get_all_edge_attrs.
    destruct (Hattrs n ty Hin) as (cached & <- & <- & Hcached).
    by exists cached.
  - unfold get_all_edge_attrs. rewrite <- list_fmap_compose.
    erewrite list_fmap_ext; [apply NoDup_fst_map_to_list|].
    intros i entry _. apply edge_name_of_listed_as.
Qed.


(** X13: two edge types with the same edge name share one registered
    entry.  After storing both, both are cached but only the later one is
    listed; after removing the later one, the earlier one is still cached
    and returned, and nothing is listed under its name. *)
Theorem same_name_shadows (self : graph_store) (session : Session)
    (et1 et2 : edge_type) (ei1 ei2 : list (Z * Z)) :
  edge_name_of et1 = edge_name_of et2 → et1 ≠ et2 →
  ∃ self1 self2 self3,
    _put_edge_index self et1 ei1 "coo" = Done (true, self1) ∧
    _put_edge_index self1 et2 ei2 "coo" = Done (true, self2) ∧
    _get_edge_index execute self2 session et1 "coo" None
    = Done (ei1, session) ∧
    _get_edge_index execute self2 session et2 "coo" None
    = Done (ei2, session) ∧
    (∀ et, et ∈ get_all_edge_attrs self2 →
           edge_name_of et = edge_name_of et1 →
           et = listed_as (edge_name_of et2, types_of et2)) ∧
    _remove_edge_index self2 et2 "coo" = (true, self3) ∧
    _get_edge_index execute self3 session et1 "coo" None
    = Done (ei1, session) ∧
    (∀ et, et ∈ get_all_edge_attrs self3 →
           edge_name_of et ≠ edge_name_of et1).
Proof.
  intros Hname Hne.
  eexists _, _, _. split; [reflexivity|]. split; [reflexivity|].
  unfold _get_edge_index, _remove_edge_index. simpl.
  rewrite lookup_insert_eq.
  rewrite lookup_insert_ne, lookup_insert_eq by congruence.
  split; [done|]. split; [done|]. split.
  { intros et (n & ty & Hin & ->)%elem_of_get_all_edge_attrs Hn.
    rewrite edge_name_of_listed_as in Hn. simpl in Hin, Hn. subst n.
    rewrite Hname, lookup_insert_eq in Hin. injection Hin as <-.
    by rewrite Hname. }
  rewrite bool_decide_eq_true_2;
    [|apply elem_of_dom; by rewrite lookup_insert_eq].
  split; [reflexivity|]. simpl.
  rewrite lookup_delete_ne, lookup_insert_ne, lookup_insert_eq by congruence.
  split; [done|].
  intros et (n & ty & Hin & ->)%elem_of_get_all_edge_attrs Hn.
  rewrite edge_name_of_listed_as in Hn. simpl in Hin, Hn. subst n.
  by rewrite Hname, lookup_delete_eq in Hin.
Qed.


(** Two vertices joined in a sampled subgraph are the two ends of a
    discovered edge. *)
Lemma sample_subgraph_joined session center_vid n_hops space_name b max_nodes
    sg session' u v :
  sample_subgraph execute session center_vid n_hops space_name b max_nodes
  = Ok (sg, session') →
  joined sg u v →
  ∃ g e, get_subgraph_data execute (execute session (Use space_name)).2
           center_vid n_hops max_nodes = Ok g ∧
         e ∈ g_edges g ∧
         ((e.1.1 = u ∧ e.1.2 = v) ∨ (b = true ∧ e.1.1 = v ∧ e.1.2 = u)).
Proof.
  intros Hsample (i & j & Hcol & Hi & Hj).
  pose proof (sample_subgraph_registry execute _ _ _ _ _ _ _ _ Hsample) as Hok.
  apply sample_subgraph_Ok in Hsample
    as (g & Hg & Hreg & Hei & Hm & _).
  exists g.
  destruct (create_edge_index_sound (g_self g) (g_edges g) b) as (_ & Hcols & _);
    [by apply registry_ok_of|].
  rewrite Hei in Hcol.
  destruct (Hcols _ Hcol) as (e & k & He & _ & si & di & Hsi & Hdi & Hp).
  rewrite <- Hm in Hsi, Hdi.
  apply (Hok _ _) in Hsi. apply (Hok _ _) in Hdi. simpl in Hsi, Hdi.
  exists e. split; [done|]. split; [done|].
  destruct Hp as [[= -> ->]|[-> [= -> ->]]]; [left|right; split; [done|]];
    split; congruence.
Qed.

(** X14: an indexed lookup of an edge type that is not cached.  Every
    column [(i, j)] of the answer pairs a position [i] of the source
    indices with the first position [j] of a target id, and the ids at the
    two positions are the two ends, in either order, of an edge found by a
    one-hop retrieval around the source; the edge type asked for plays no
    part.  When the adapter's successful replies are well formed the lookup
    raises nothing. *)
Theorem remote_edge_lookup (self : graph_store) (session : Session)
    (et : edge_type) (src_indices dst_indices : list Z) :
  _edge_cache self !! (et, "coo") = None →
  (∀ columns session',
     _get_edge_index execute self session et "coo"
                     (Some (src_indices, dst_indices))
     = Done (columns, session') →
     ∀ c, c ∈ columns →
       ∃ i j src_id dst_id,
         c = (Z.of_nat i, Z.of_nat j) ∧
         (node_id self <$> src_indices) !! i = Some src_id ∧
         list_index dst_id (node_id self <$> dst_indices) = Some j ∧
         ∃ s g e,
           get_subgraph_data execute s src_id 1 1000 = Ok g ∧
           e ∈ g_edges g ∧
           ((e.1.1 = src_id ∧ e.1.2 = dst_id) ∨
            (e.1.1 = dst_id ∧ e.1.2 = src_id))) ∧
  (∀ et', _edge_cache self !! (et', "coo") = None →
     _get_edge_index execute self session et' "coo"
                     (Some (src_indices, dst_indices))
     = _get_edge_index execute self session et "coo"
                       (Some (src_indices, dst_indices))) ∧
  (well_formed_replies execute →
   ∃ columns session',
     _get_edge_index execute self session et "coo"
                     (Some (src_indices, dst_indices))
     = Done (columns, session')).
Proof.
  intros Hmiss. unfold _get_edge_index. rewrite Hmiss. simpl.
  split; [|split].
  - intros columns session' Hrun.
    destruct (collect_edges _ _ _ _ _ _) as [[edges s1]|] eqn:Hcollect;
      [|done].
    injection Hrun as <- <-.
    apply collect_edges_spec in Hcollect as (new & -> & Hnew).
    intros c ([i j] & -> & Hc)%list_elem_of_fmap.
    destruct (Hnew _ Hc) as (src_id & dst_id & s & sg & s' & Hsrc & Hdst
                             & Hsample & Hjoined).
    simpl in Hsrc, Hdst.
    exists i, j, src_id, dst_id. split; [done|]. split.
    { apply list_elem_of_lookup in Hsrc as [k Hk].
      apply lookup_zip_with_Some in Hk as (i' & src' & [= <- <-] & Hi & Hk).
      apply lookup_seq in Hi as [-> _]. done. }
    split; [done|].
    destruct (sample_subgraph_joined _ _ _ _ _ _ _ _ _ _ Hsample Hjoined)
      as (g & e & Hg & He & Hends).
    eexists _, g, e. split; [exact Hg|]. split; [done|].
    destruct Hends as [?|(_ & ? & ?)]; [by left|by right].
  - intros et' Hmiss'. by rewrite Hmiss'.
  - intros Hreplies.
    assert (∀ src_ids session edges,
              ∃ out session',
                collect_edges execute self (node_id self <$> dst_indices)
                              src_ids session edges = Done (out, session'))
      as Htotal.
    { induction src_ids as [|[i src_id] src_ids IH]; intros s edges.
      - by eexists _, _.
      - simpl.
        destruct (sample_subgraph_total execute s src_id 1 (space_name self)
                    true 1000 Hreplies) as (sg & s1 & Hsample).
        rewrite Hsample.
        apply sample_subgraph_in_range in Hsample.
        destruct (matching_edges_total sg i src_id
                    (node_id self <$> dst_indices) (edge_index sg) edges)
          as [edges1 ->]; [|apply IH].
        intros c Hc. unfold edges_in_range in Hsample.
        rewrite Forall_forall in Hsample. by apply Hsample. }
    destruct (Htotal (zip (seq 0 (length (node_id self <$> src_indices)))
                          (node_id self <$> src_indices)) session [])
      as (out & s' & ->).
    by eexists _, _.
Qed.

End GraphStoreProperties.

(** ** The further properties on the mock graphs *)

(** The path [player0; player1; team0] of the eight-vertex graph moves
    along two columns of the edge index. *)
Lemma found_paths_are_walks_witness :
  ∃ sg session' ps,
    sample_subgraph (Mock.execute Mock.eight_edges) () "player0" 3
                    "basketballplayer" true 500 = Ok (sg, session') ∧
    indices_agree sg ∧
    find_paths_bfs sg "player0" "team0" 3 = Ok ps ∧
    ["player0"; "player1"; "team0"] ∈ ps ∧
    joined sg "player0" "player1" ∧ joined sg "player1" "team0".
Proof.
  destruct (sample_subgraph (Mock.execute Mock.eight_edges) () "player0" 3
              "basketballplayer" true 500) as [[sg session']|e] eqn:E;
    [|vm_compute in E; discriminate E].
  pose proof (sample_subgraph_agree _ _ _ _ _ _ _ _ _ E) as Hagree.
  assert (∃ ps, find_paths_bfs sg "player0" "team0" 3 = Ok ps ∧
                ["player0"; "player1"; "team0"] ∈ ps) as (ps & Hps & Hin).
  { clear Hagree. vm_compute in E. injection E as <- <-.
    eexists. split; [by vm_compute|]. by left. }
  destruct (found_paths_are_walks sg _ _ _ ps Hagree Hps _ Hin)
    as (_ & _ & Hw1 & Hw2 & _).
  exists sg, session', ps. split; [reflexivity|]. split; [exact Hagree|].
  split; [exact Hps|]. split; [exact Hin|]. split; [exact Hw1|exact Hw2].
Defined.

(** The edge [player0 -> player1] of the eight-vertex graph gives the
    two-vertex path. *)
Lemma direct_edge_found_witness :
  ∃ sg session' ps,
    sample_subgraph (Mock.execute Mock.eight_edges) () "player0" 3
                    "basketballplayer" true 500 = Ok (sg, session') ∧
    vid_to_idx sg !! "player0" = Some 0 ∧
    vid_to_idx sg !! "player1" = Some 2 ∧
    (0, 2) ∈ edge_index sg ∧
    find_paths_bfs sg "player0" "player1" 3 = Ok ps ∧
    ["player0"; "player1"] ∈ ps.
Proof.
  destruct (sample_subgraph (Mock.execute Mock.eight_edges) () "player0" 3
              "basketballplayer" true 500) as [[sg session']|e] eqn:E;
    [|vm_compute in E; discriminate E].
  assert (vid_to_idx sg !! "player0" = Some 0 ∧
          vid_to_idx sg !! "player1" = Some 2 ∧
          (0, 2) ∈ edge_index sg ∧
          idx_to_vid sg !! 2 = Some "player1" ∧
          ∃ ps, find_paths_bfs sg "player0" "player1" 3 = Ok ps)
    as (Hs & He & Hcol & Hback & ps & Hps).
  { vm_compute in E. injection E as <- <-.
    split; [by vm_compute|]. split; [by vm_compute|].
    split; [simpl; do 8 right; left|]. split; [done|].
    eexists. by vm_compute. }
  exists sg, session', ps.
  split; [reflexivity|]. split; [done|]. split; [done|]. split; [done|].
  split; [done|].
  apply (direct_edge_found sg "player0" "player1" 0 2 3 ps); try done.
Defined.

(** A subgraph of one edge: an unknown vertex, a negative bound, and the
    search from a vertex to itself. *)
Lemma find_paths_bfs_edge_cases_witness :
  let sg := Subgraph 0 [(0, 1); (1, 0)] 2 {["a" := 0; "b" := 1]} ["a"; "b"]
                     ∅ ∅ ∅ in
  find_paths_bfs sg "c" "a" 3 = Ok [] ∧
  find_paths_bfs sg "a" "b" (-1) = Ok [] ∧
  find_paths_bfs sg "a" "a" 0 = Ok [["a"]].
Proof.
  intros sg.
  split; [|split].
  - apply (proj1 (find_paths_bfs_edge_cases sg "c" "a" 3)). by left.
  - by apply (proj1 (proj2 (find_paths_bfs_edge_cases sg "a" "b" (-1)))).
  - apply (proj2 (proj2 (find_paths_bfs_edge_cases sg "a" "a" 0))); [done|].
    vm_compute. by eexists.
Defined.

(** The subgraph sampled from the eight-vertex graph. *)
Lemma sampled_subgraph_well_formed_witness :
  ∃ sg session',
    sample_subgraph (Mock.execute Mock.eight_edges) () "player0" 3
                    "basketballplayer" true 500 = Ok (sg, session') ∧
    (∀ vid idx,
       vid_to_idx sg !! vid = Some idx ↔ idx_to_vid sg !! idx = Some vid) ∧
    NoDup (idx_to_vid sg) ∧
    num_nodes sg = length (idx_to_vid sg) ∧
    num_nodes sg = size (vid_to_idx sg) ∧
    (∀ i j, (i, j) ∈ edge_index sg → i < num_nodes sg ∧ j < num_nodes sg).
Proof.
  destruct (sample_subgraph (Mock.execute Mock.eight_edges) () "player0" 3
              "basketballplayer" true 500) as [[sg session']|e] eqn:E;
    [|vm_compute in E; discriminate E].
  exists sg, session'. split; [reflexivity|].
  exact (sampled_subgraph_well_formed _ _ _ _ _ _ _ _ _ E).
Defined.

(** The five edges of the eight-vertex graph give ten columns. *)
Lemma edge_index_sound_witness :
  ∃ sg session' g,
    sample_subgraph (Mock.execute Mock.eight_edges) () "player0" 3
                    "basketballplayer" true 500 = Ok (sg, session') ∧
    get_subgraph_data (Mock.execute Mock.eight_edges) () "player0" 3 500
    = Ok g ∧
    length (edge_index sg) = 2 * length (g_edges g) ∧
    length (edge_index sg) = 10 ∧
    ∀ p, p ∈ edge_index sg →
      ∃ e k, e ∈ g_edges g ∧ from_edge true (vid_to_idx sg) k p e.
Proof.
  destruct (sample_subgraph (Mock.execute Mock.eight_edges) () "player0" 3
              "basketballplayer" true 500) as [[sg session']|e] eqn:E;
    [|vm_compute in E; discriminate E].
  destruct (edge_index_sound _ _ _ _ _ _ _ _ _ E)
    as (g & Hg & Hlen & Hcols & _).
  exists sg, session', g. split; [reflexivity|]. split; [exact Hg|].
  split; [exact Hlen|]. split; [|exact Hcols].
  clear Hg Hlen Hcols. vm_compute in E. by injection E as <- <-.
Defined.

(** The center of the eight-vertex graph has the index [0], as an end of
    the first edge. *)
Lemma center_index_witness :
  ∃ sg session',
    sample_subgraph (Mock.execute Mock.eight_edges) () "player0" 3
                    "basketballplayer" true 500 = Ok (sg, session') ∧
    idx_to_vid sg !! center_node_idx sg = Some "player0" ∧
    (center_node_idx sg < num_nodes sg ∨ num_nodes sg = 0).
Proof.
  destruct (sample_subgraph (Mock.execute Mock.eight_edges) () "player0" 3
              "basketballplayer" true 500) as [[sg session']|e] eqn:E;
    [|vm_compute in E; discriminate E].
  destruct (center_index _ _ _ _ _ _ _ _ _ E) as (g & Hg & Hcenter & _ & Hlt).
  exists sg, session'. split; [reflexivity|]. split; [|exact Hlt].
  apply Hcenter. exists ("player0", "team2", "serve").
  split; [|by left].
  clear Hcenter Hlt E. vm_compute in Hg. injection Hg as <-. by left.
Defined.

(** One edge against a budget of one node: two vertices, within the
    bound. *)
Lemma node_budget_overshoot_witness :
  ∃ sg session',
    sample_subgraph (Mock.execute Mock.one_edge) () "player0" 1
                    "basketballplayer" true 1 = Ok (sg, session') ∧
    num_nodes sg = 2 ∧
    (Z.of_nat (num_nodes sg) ≤ Z.max 1 (1 - 1) + 2)%Z.
Proof.
  destruct (sample_subgraph (Mock.execute Mock.one_edge) () "player0" 1
              "basketballplayer" true 1) as [[sg session']|e] eqn:E;
    [|vm_compute in E; discriminate E].
  pose proof (node_budget_overshoot _ _ _ _ _ _ _ _ _ E) as Hbound.
  exists sg, session'. split; [reflexivity|]. split; [|exact Hbound].
  clear Hbound. vm_compute in E. by injection E as <- <-.
Defined.

(** Two players of one team: one path, through the bridge node [team0]. *)
Lemma discovered_paths_connect_witness :
  ∃ d session',
    find_multihop_relationships (Mock.execute Mock.teammates) ()
      "player0" "player1" 2 = Ok (d, session') ∧
    method d = "bridge_nodes" ∧
    length (paths d) ≤ 5 ∧
    (∀ p, p ∈ paths d → head p = Some "player0" ∧ last p = Some "player1") ∧
    ∃ through, bridge_nodes d = Some through ∧
      ∀ p, p ∈ paths d → ∃ bridge_node, bridge_node ∈ through ∧
                                        bridge_node ∈ p.
Proof.
  destruct (find_multihop_relationships (Mock.execute Mock.teammates) ()
              "player0" "player1" 2) as [[d session']|e] eqn:E;
    [|vm_compute in E; discriminate E].
  destruct (discovered_paths_connect _ _ _ _ _ _ _ E)
    as (Hlen & Hends & _ & Hbridge & _).
  assert (method d = "bridge_nodes") as Hmethod.
  { clear Hlen Hends Hbridge. vm_compute in E. by injection E as <- <-. }
  destruct (Hbridge Hmethod) as (through & Hthrough & _ & _ & Hpass).
  exists d, session'. split; [reflexivity|]. split; [exact Hmethod|].
  split; [exact Hlen|]. split; [exact Hends|].
  exists through. split; [exact Hthrough|exact Hpass].
Defined.

(** A player, a team and a vertex of no recorded type: two statements. *)
Lemma node_feature_queries_witness :
  let self := set_node_type (set_node_type reset "player0" "player")
                            "team0" "team" in
  ∃ features session' log',
    _get_node_features (logged (Mock.execute Mock.eight_edges)) self ((), [])
                       ["player0"; "team0"; "other"]
    = Ok (features, (session', log')) ∧
    log' = [FetchProp "player" ["player0"]; FetchProp "team" ["team0"]].
Proof.
  intros self.
  destruct (_get_node_features (logged (Mock.execute Mock.eight_edges)) self
              ((), []) ["player0"; "team0"; "other"])
    as [[features [session' log']]|e] eqn:E;
    [|vm_compute in E; discriminate E].
  exists features, session', log'. split; [reflexivity|].
  destruct (node_feature_queries _ _ _ _ _ _ _ _ E) as [-> _].
  by vm_compute.
Defined.

(** A fresh store and the layout "csr". *)
Lemma only_coo_layout_witness :
  GraphStore.built (GraphStore.init "basketballplayer") ∧
  GraphStore._put_edge_index (GraphStore.init "basketballplayer")
    (GraphStore.Name "follow") [(0, 1)%Z] "csr"
  = GraphStore.Failed GraphStore.NotImplementedError ∧
  GraphStore._get_edge_index Mock.failing (GraphStore.init "basketballplayer")
    () (GraphStore.Name "follow") "csr" None
  = GraphStore.Failed GraphStore.NotImplementedError ∧
  GraphStore._remove_edge_index (GraphStore.init "basketballplayer")
    (GraphStore.Name "follow") "csr"
  = (false, GraphStore.init "basketballplayer").
Proof.
  split; [constructor|].
  apply (only_coo_layout Mock.failing); [constructor|done].
Defined.

(** A store holding the triple [("player", "follow", "player")]. *)
Lemma listed_edge_types_are_cached_witness :
  ∃ self,
    GraphStore._put_edge_index (GraphStore.init "basketballplayer")
      (GraphStore.Triple "player" "follow" "player") [(0, 1)%Z] "coo"
    = GraphStore.Done (true, self) ∧
    GraphStore.built self ∧
    (∀ et, et ∈ GraphStore.get_all_edge_attrs self →
       ∃ cached,
         is_Some (GraphStore._edge_cache self !! (cached, "coo")) ∧
         et = GraphStore.listed_as (GraphStore.edge_name_of cached,
                                    GraphStore.types_of cached)) ∧
    NoDup (GraphStore.edge_name_of <$> GraphStore.get_all_edge_attrs self).
Proof.
  eexists. split; [reflexivity|].
  assert (GraphStore.built
            (GraphStore.Build "basketballplayer"
               (<[(GraphStore.Triple "player" "follow" "player", "coo")
                  := [(0, 1)%Z]]> ∅)
               (<["follow" := Some ("player", "player")]> ∅) None))
    as Hbuilt.
  { by eapply (GraphStore.built_put (GraphStore.init "basketballplayer")
                 (GraphStore.Triple "player" "follow" "player") [(0, 1)%Z]
                 "coo"); [constructor|]. }
  split; [exact Hbuilt|].
  exact (listed_edge_types_are_cached _ Hbuilt).
Defined.

(** The triple [("player", "follow", "player")] and the bare name
    ["follow"]. *)
Lemma same_name_shadows_witness :
  ∃ self2 self3,
    GraphStore._get_edge_index Mock.failing self2 ()
      (GraphStore.Triple "player" "follow" "player") "coo" None
    = GraphStore.Done ([(0, 1)%Z], ()) ∧
    (∀ et, et ∈ GraphStore.get_all_edge_attrs self2 →
           GraphStore.edge_name_of et = "follow" →
           et = GraphStore.Name "follow") ∧
    GraphStore._remove_edge_index self2 (GraphStore.Name "follow") "coo"
    = (true, self3) ∧
    GraphStore._get_edge_index Mock.failing self3 ()
      (GraphStore.Triple "player" "follow" "player") "coo" None
    = GraphStore.Done ([(0, 1)%Z], ()) ∧
    (∀ et, et ∈ GraphStore.get_all_edge_attrs self3 →
           GraphStore.edge_name_of et ≠ "follow").
Proof.
  destruct (same_name_shadows Mock.failing
              (GraphStore.init "basketballplayer") ()
              (GraphStore.Triple "player" "follow" "player")
              (GraphStore.Name "follow") [(0, 1)%Z] [(1, 0)%Z])
    as (self1 & self2 & self3 & _ & _ & Hget1 & _ & Hlisted & Hremove & Hget3
        & Hnone); [done|done|].
  exists self2, self3. split; [exact Hget1|]. split; [exact Hlisted|].
  split; [exact Hremove|]. split; [exact Hget3|exact Hnone].
Defined.

(** One source and one target over the single edge
    [player0 -> player1]. *)
Lemma remote_edge_lookup_witness :
  let self :=
    GraphStore.set_id_mapper (GraphStore.init "basketballplayer")
      (Some (λ idx : Z, if decide (idx = 0)%Z then "player0" else "player1")) in
  GraphStore._edge_cache self !! (GraphStore.Name "follow", "coo") = None ∧
  GraphStore._get_edge_index (Mock.execute Mock.one_edge) self ()
    (GraphStore.Name "follow") "coo" (Some ([0%Z], [1%Z]))
  = GraphStore.Done ([(0, 0)%Z], ()) ∧
  ∃ i j src_id dst_id,
    (0, 0)%Z = (Z.of_nat i, Z.of_nat j) ∧
    (GraphStore.node_id self <$> [0%Z]) !! i = Some src_id ∧
    GraphStore.list_index dst_id (GraphStore.node_id self <$> [1%Z]) = Some j ∧
    ∃ s g e,
      get_subgraph_data (Mock.execute Mock.one_edge) s src_id 1 1000 = Ok g ∧
      e ∈ g_edges g ∧
      ((e.1.1 = src_id ∧ e.1.2 = dst_id) ∨ (e.1.1 = dst_id ∧ e.1.2 = src_id)).
Proof.
  intros self.
  assert (GraphStore._edge_cache self !! (GraphStore.Name "follow", "coo")
          = None) as Hmiss by done.
  assert (GraphStore._get_edge_index (Mock.execute Mock.one_edge) self ()
            (GraphStore.Name "follow") "coo" (Some ([0%Z], [1%Z]))
          = GraphStore.Done ([(0, 0)%Z], ())) as Hrun by (by vm_compute).
  split; [exact Hmiss|]. split; [exact Hrun|].
  destruct (remote_edge_lookup (Mock.execute Mock.one_edge) self ()
              (GraphStore.Name "follow") [0%Z] [1%Z] Hmiss) as (Hcols & _).
  apply (Hcols _ _ Hrun). by left.
Defined.

(** ** Conversion to a PyG data object *)

Lemma fill_x_spec (node_features : gmap string feature) (vids : list string) :
  ∀ idx x,
    idx + length vids ≤ length x →
    ∃ x', fill_x node_features idx vids x = Ok x' ∧
          length x' = length x ∧
          ∀ j, x' !! j =
               if decide (idx ≤ j) then
                 match vids !! (j - idx)
                       ≫= (λ vid, node_features !! vid ≫= embedding) with
                 | Some e => Some (Some e)
                 | None => x !! j
                 end
               else x !! j.
Proof.
  induction vids as [|vid rest IH]; intros idx x Hlen.
  - exists x. split; [done|]. split; [done|]. intros j. by case_decide.
  - simpl in Hlen. simpl fill_x.
    destruct (node_features !! vid ≫= embedding) as [e|] eqn:He.
    + rewrite decide_True by lia.
      destruct (IH (S idx) (<[idx := Some e]> x)) as (x' & -> & Hlen' & Hx');
        [rewrite length_insert; lia|].
      exists x'. split; [done|]. rewrite length_insert in Hlen'.
      split; [done|]. intros j. rewrite Hx'.
      destruct (decide (j = idx)) as [->|Hne].
      * rewrite decide_False, decide_True by lia.
        replace (idx - idx) with 0 by lia. simpl. rewrite He.
        apply list_lookup_insert_eq. lia.
      * rewrite list_lookup_insert_ne by done.
        repeat case_decide; try lia; try done.
        replace (j - idx) with (S (j - S idx)) by lia. done.
    + destruct (IH (S idx) x) as (x' & -> & Hlen' & Hx'); [lia|].
      exists x'. split; [done|]. split; [done|]. intros j. rewrite Hx'.
      destruct (decide (j = idx)) as [->|Hne].
      * rewrite decide_False, decide_True by lia.
        replace (idx - idx) with 0 by lia. simpl. by rewrite He.
      * repeat case_decide; try lia; try done.
        replace (j - idx) with (S (j - S idx)) by lia. done.
Qed.

Lemma fill_x_outcome (node_features : gmap string feature)
    (vids : list string) :
  ∀ idx x, (∃ x', fill_x node_features idx vids x = Ok x') ∨
           fill_x node_features idx vids x = Raise IndexError.
Proof.
  induction vids as [|vid rest IH]; intros idx x; simpl.
  - left. by eexists.
  - destruct (node_features !! vid ≫= embedding); [|apply IH].
    case_decide; [apply IH|by right].
Qed.

Lemma fill_node_type_spec (types : gmap string string) (vids : list string) :
  ∀ idx node_type,
    idx + length vids ≤ length node_type →
    ∃ node_type', fill_node_type types idx vids node_type = Ok node_type' ∧
          length node_type' = length node_type ∧
          ∀ j, node_type' !! j =
               if decide (idx ≤ j) then
                 match vids !! (j - idx) with
                 | Some vid => Some (type_code types vid)
                 | None => node_type !! j
                 end
               else node_type !! j.
Proof.
  induction vids as [|vid rest IH]; intros idx node_type Hlen.
  - exists node_type. split; [done|]. split; [done|].
    intros j. by case_decide.
  - simpl in Hlen. simpl fill_node_type. rewrite decide_True by lia.
    set (node_type1 :=
           match types !! vid with
           | Some ty =>
               if decide (ty = "player") then <[idx:=0]> (<[idx:=0]> node_type)
               else if decide (ty = "team")
                    then <[idx:=1]> (<[idx:=0]> node_type)
                    else <[idx:=0]> node_type
           | None => <[idx:=0]> node_type
           end).
    assert (node_type1 = <[idx := type_code types vid]> node_type) as ->.
    { unfold node_type1, type_code.
      destruct (types !! vid) as [ty|]; [|by rewrite decide_False].
      repeat case_decide; simplify_eq; try done;
        by rewrite list_insert_insert_eq. }
    destruct (IH (S idx) (<[idx := type_code types vid]> node_type))
      as (node_type' & -> & Hlen' & Hspec); [rewrite length_insert; lia|].
    exists node_type'. split; [done|]. rewrite length_insert in Hlen'.
    split; [done|]. intros j. rewrite Hspec.
    destruct (decide (j = idx)) as [->|Hne].
    + rewrite decide_False, decide_True by lia.
      replace (idx - idx) with 0 by lia. simpl.
      apply list_lookup_insert_eq. lia.
    + rewrite list_lookup_insert_ne by done.
      repeat case_decide; try lia; try done.
      replace (j - idx) with (S (j - S idx)) by lia. done.
Qed.

Lemma fill_node_type_Raise (types : gmap string string) (vids : list string) :
  ∀ idx node_type,
    idx ≤ length node_type < idx + length vids →
    fill_node_type types idx vids node_type = Raise IndexError.
Proof.
  induction vids as [|vid rest IH]; intros idx node_type Hlen;
    simpl in *; [lia|].
  case_decide as Hidx; [|done].
  apply IH.
  destruct (types !! vid) as [ty|]; repeat case_decide;
    rewrite ?length_insert; lia.
Qed.

(** X15: [convert_to_pyg_data] on a subgraph whose [num_nodes] covers
    [idx_to_vid] returns a [Data] object with [num_nodes] rows: row [idx]
    of [x] is the stored embedding of the vertex at [idx], its initial zero
    when none is stored; entry [idx] of [node_type] is [1] when the sampler
    has the vertex as a ['team'] and [0] otherwise, so that a vertex of no
    or another type is coded like a player; the edge index, the center
    index and the two maps are passed on.  On a subgraph with more vids
    than [num_nodes] the call raises [IndexError]; without
    [torch_geometric] it returns [None]. *)
Theorem convert_to_pyg_data_rows (self : sampler) (sg : subgraph) :
  (length (idx_to_vid sg) ≤ num_nodes sg →
   ∃ data,
     convert_to_pyg_data true self sg = Ok (Some data) ∧
     length (data_x data) = num_nodes sg ∧
     length (data_node_type data) = num_nodes sg ∧
     (∀ idx vid, idx_to_vid sg !! idx = Some vid →
        data_x data !! idx = Some (node_features sg !! vid ≫= embedding) ∧
        data_node_type data !! idx = Some (type_code (_node_types self) vid)) ∧
     (∀ idx, length (idx_to_vid sg) ≤ idx < num_nodes sg →
        data_x data !! idx = Some None ∧ data_node_type data !! idx = Some 0) ∧
     data_edge_index data = edge_index sg ∧
     data_center_node_idx data = center_node_idx sg ∧
     data_vid_to_idx data = vid_to_idx sg ∧
     data_idx_to_vid data = idx_to_vid sg) ∧
  (num_nodes sg < length (idx_to_vid sg) →
   convert_to_pyg_data true self sg = Raise IndexError) ∧
  convert_to_pyg_data false self sg = Ok None.
Proof.
  split; [|split; [|done]].
  - intros Hlen. unfold convert_to_pyg_data.
    destruct (fill_x_spec (node_features sg) (idx_to_vid sg) 0
                (replicate (num_nodes sg) None))
      as (x & -> & Hxlen & Hx); [rewrite length_replicate; lia|].
    destruct (fill_node_type_spec (_node_types self) (idx_to_vid sg) 0
                (replicate (num_nodes sg) 0))
      as (node_type & -> & Htlen & Ht); [rewrite length_replicate; lia|].
    rewrite length_replicate in Hxlen. rewrite length_replicate in Htlen.
    eexists. split; [reflexivity|]. simpl.
    split; [done|]. split; [done|]. split; [|split; [|done]].
    + intros idx vid Hvid.
      pose proof (lookup_lt_Some _ _ _ Hvid) as Hidx.
      rewrite Hx, Ht, decide_True by lia.
      replace (idx - 0) with idx by lia. rewrite Hvid. simpl.
      split; [|done].
      destruct (node_features sg !! vid ≫= embedding); [done|].
      apply lookup_replicate. split; [done|lia].
    + intros idx Hidx.
      rewrite Hx, Ht, decide_True by lia.
      replace (idx - 0) with idx by lia.
      rewrite (lookup_ge_None_2 (idx_to_vid sg)) by lia. simpl.
      split; apply lookup_replicate; (split; [done|lia]).
  - intros Hlen. unfold convert_to_pyg_data.
    destruct (fill_x_outcome (node_features sg) (idx_to_vid sg) 0
                (replicate (num_nodes sg) None)) as [[x Hx]| ->]; [|done].
    rewrite Hx. simpl.
    rewrite fill_node_type_Raise; [done|]. rewrite length_replicate. lia.
Qed.

(** The subgraph sampled from the eight-vertex graph: four rows, the
    vertex at [1] is a team. *)
Lemma convert_to_pyg_data_rows_witness :
  ∃ sg session' data,
    sample_subgraph (Mock.execute Mock.eight_edges) () "player0" 3
                    "basketballplayer" true 500 = Ok (sg, session') ∧
    length (idx_to_vid sg) ≤ num_nodes sg ∧
    convert_to_pyg_data true (sampler_after sg) sg = Ok (Some data) ∧
    length (data_x data) = 4 ∧
    idx_to_vid sg !! 1 = Some "team2" ∧
    data_node_type data !! 1 = Some 1.
Proof.
  destruct (sample_subgraph (Mock.execute Mock.eight_edges) () "player0" 3
              "basketballplayer" true 500) as [[sg session']|e] eqn:E;
    [|vm_compute in E; discriminate E].
  assert (length (idx_to_vid sg) ≤ num_nodes sg ∧ num_nodes sg = 4 ∧
          idx_to_vid sg !! 1 = Some "team2" ∧
          type_code (node_types sg) "team2" = 1) as (Hlen & Hnum & Hvid & Hty).
  { vm_compute in E. injection E as <- <-. by vm_compute. }
  destruct (proj1 (convert_to_pyg_data_rows (sampler_after sg) sg) Hlen)
    as (data & Hdata & Hxlen & _ & Hrows & _).
  exists sg, session', data. split; [reflexivity|]. split; [exact Hlen|].
  split; [exact Hdata|]. split; [by rewrite Hxlen|]. split; [exact Hvid|].
  destruct (Hrows 1 "team2" Hvid) as [_ Hrow]. simpl in Hrow.
  by rewrite Hty in Hrow.
Defined.

(** ** The names a feature store lists *)

Section TensorStoreProperties.

Import FeatureStore.

Context {tensor index : Type}.
Context (setitem : tensor → index → tensor → tensor).
Context (zeros_like_index : index → tensor → tensor).



End TensorStoreProperties.


(** ** Looking up embeddings *)

Section EmbeddingProperties.

Import EntityEmbedding.

Context {Session : Type}.
Context (ask : Session → statement → response * Session).

(** The statements of one lookup, whatever is replied. *)
Lemma get_entity_embedding_log session log entity_id entity_tag
    embedding_field :
  (get_entity_embedding (recording ask) (session, log) entity_id entity_tag
                        embedding_field).2.2
  = log ++ lookup_statements entity_tag embedding_field entity_id.
Proof.
  unfold get_entity_embedding, recording, lookup_statements. simpl.
  destruct (ask session _) as [r0 s0]. simpl.
  destruct (ask s0 _) as [r1 s1]. simpl.
  rewrite <- app_assoc. simpl.
  destruct (negb _ || _); [done|]. by destruct (_ ≫= _).
Qed.

(** X17: [get_entity_embedding] sends two statements whatever is replied,
    a [USE] of the fixed space ["basketballplayer"] and the [FETCH] of the
    field; it raises nothing, and its result is the double [d] exactly
    when the second reply succeeded and the first cell of its first row is
    the double [d] ([None] in every other case). *)
Theorem entity_embedding_lookup session log entity_id entity_tag
    embedding_field :
  (get_entity_embedding (recording ask) (session, log) entity_id entity_tag
                        embedding_field).2.2
  = log ++ [UseSpace "basketballplayer";
            FetchField entity_tag entity_id embedding_field] ∧
  ∀ d,
    (get_entity_embedding ask session entity_id entity_tag embedding_field).1
    = Some d ↔
    let reply :=
      (ask (ask session (UseSpace "basketballplayer")).2
           (FetchField entity_tag entity_id embedding_field)).1 in
    is_succeeded reply = true ∧
    ∃ rest others, rows reply = (VDouble d :: rest) :: others.
Proof.
  split; [apply get_entity_embedding_log|].
  intros d. unfold get_entity_embedding, NEBULA_GRAPH_SPACE.
  destruct (ask session _) as [r0 s0]. simpl.
  destruct (ask s0 _) as [[ok rws] s1]. simpl.
  unfold row_size. simpl.
  destruct ok; simpl; [|split; [done|by intros [? _]]].
  destruct rws as [|row0 others]; simpl.
  { split; [done|]. by intros (_ & ? & ? & ?). }
  unfold subscript. simpl.
  destruct row0 as [|w rest]; simpl.
  { split; [done|]. by intros (_ & ? & ? & ?). }
  destruct w; simpl; split; try done;
    try (by intros (_ & ? & ? & ?)).
  - intros [= ->]. split; [done|]. by eexists _, _.
  - by intros (_ & ? & ? & [= ->]).
Qed.

End EmbeddingProperties.

(** ** The feature store, by rows *)

Section RowsProperties.

Import EntityEmbedding NebulaFeatureStore.

Context {R : Type} (scalar_row : option scalar → R).
Context {Session : Type}.
Context (ask : Session → statement → response * Session).

Lemma fetch_features_spec group name node_ids : ∀ session log,
  let r := fetch_features (recording ask) group name node_ids (session, log) in
  length r.1 = length node_ids ∧
  r.2.2 = log ++ concat (lookup_statements group name <$> node_ids).
Proof.
  induction node_ids as [|node_id rest IH]; intros session log; simpl.
  - by rewrite app_nil_r.
  - pose proof (get_entity_embedding_log ask session log node_id group name)
      as Hlog.
    destruct (get_entity_embedding _ _ _ _ _) as [e [s1 log1]].
    simpl in Hlog. subst log1.
    specialize (IH s1 (log ++ lookup_statements group name node_id)).
    destruct (fetch_features _ _ _ _ _) as [fs [s2 log2]]. simpl in *.
    destruct IH as [-> ->]. split; [done|]. by rewrite <- app_assoc.
Qed.

(** Reading the first [n] rows of a tensor. *)
Lemma getitem_arange (tensor_data : list R) (n : nat) :
  getitem tensor_data (Z.of_nat <$> seq 0 n)
  = if decide (n ≤ length tensor_data) then Ok (take n tensor_data)
    else Raise IndexError.
Proof.
  assert (∀ k, k + n ≤ length tensor_data →
               getitem tensor_data (Z.of_nat <$> seq k n)
               = Ok (take n (drop k tensor_data))) as Hin.
  { induction n as [|n IH]; intros k Hk; simpl; [done|].
    unfold row_at. rewrite bool_decide_eq_true_2 by lia.
    rewrite Nat2Z.id. unfold subscript.
    destruct (lookup_lt_is_Some_2 tensor_data k) as [r Hr]; [lia|].
    rewrite Hr. simpl. rewrite IH by lia. simpl.
    by rewrite (drop_S _ r k Hr). }
  assert (∀ k m, k ≤ length tensor_data < k + m →
               getitem tensor_data (Z.of_nat <$> seq k m)
               = Raise IndexError) as Hout.
  { intros k m. revert k. induction m as [|m IH]; intros k Hk; simpl; [lia|].
    unfold row_at.
    destruct (decide (k < length tensor_data)) as [Hlt|Hge].
    - rewrite bool_decide_eq_true_2 by lia.
      rewrite Nat2Z.id. unfold subscript.
      destruct (lookup_lt_is_Some_2 tensor_data k) as [r Hr]; [lia|].
      rewrite Hr. simpl. by rewrite IH by lia.
    - rewrite !bool_decide_eq_false_2 by lia. done. }
  case_decide.
  - rewrite Hin by lia. by rewrite drop_0.
  - apply Hout. lia.
Qed.

Lemma getitem_length (tensor_data : list R) (index : list Z) (rows : list R) :
  getitem tensor_data index = Ok rows → length rows = length index.
Proof.
  revert rows. induction index as [|i rest IH]; intros rows; simpl.
  - by intros [= <-].
  - intros (r & _ & (rs & Hrs & [= <-])%bind_Ok)%bind_Ok.
    simpl. f_equal. by apply IH.
Qed.

(** The indexed [_get_tensor] for a key that is not cached. *)
Lemma get_tensor_uncached (self : store R) session log group name index :
  _tensor_cache self !! (group, name) = None →
  ∃ features session',
    _get_tensor scalar_row (recording ask) self (session, log) group name
                (Some index)
    = (Ok (scalar_row <$> features),
       (session',
        log ++ concat (lookup_statements group name
                         <$> node_ids_of self group index))) ∧
    length features = length index ∧
    (∀ v, v ∈ features → v = None ∨ ∃ d, v = Some (OfDouble d)).
Proof.
  intros Hmiss. unfold _get_tensor. rewrite Hmiss.
  pose proof (fetch_features_spec group name (node_ids_of self group index)
                session log) as [Hlen Hlog].
  assert (∀ ids s v,
            v ∈ (fetch_features (recording ask) group name ids s).1 →
            v = None ∨ ∃ d, v = Some (OfDouble d)) as Hshape.
  { induction ids as [|node_id ids IH]; intros s v; simpl.
    - by intros ?%elem_of_nil.
    - destruct (get_entity_embedding _ _ _ _ _) as [e s1].
      specialize (IH s1 v).
      destruct (fetch_features (recording ask) group name ids s1)
        as [fs s2]. simpl in *.
      intros [->|Hin]%elem_of_cons; [|by apply IH].
      destruct e; [right; by eexists|by left]. }
  specialize (Hshape (node_ids_of self group index) (session, log)).
  destruct (fetch_features _ _ _ _ _) as [fs [s' log']]. simpl in *.
  subst log'. exists fs, s'. split; [done|]. split; [|done].
  rewrite Hlen. unfold node_ids_of.
  destruct (id_mapper self); by rewrite length_fmap.
Qed.

(** X18: the indexed [_get_tensor].  For a key that is not cached it
    raises nothing and returns one entry per position of the index, each
    [0.0] or the float of a looked-up double, after one lookup (two
    statements) per position, in order, under the id the mapper gives the
    position, or under [group] followed by the position's decimal without a
    mapper.  For a cached key it sends nothing; reading the first [n] rows
    gives them when the tensor has that many and raises [IndexError] when
    it has fewer. *)
Theorem indexed_tensor_lookup (self : store R) session log group name :
  (_tensor_cache self !! (group, name) = None →
   ∀ index,
     ∃ features session',
       _get_tensor scalar_row (recording ask) self (session, log) group name
                   (Some index)
       = (Ok (scalar_row <$> features),
          (session',
           log ++ concat (lookup_statements group name
                            <$> node_ids_of self group index))) ∧
       length features = length index ∧
       (∀ v, v ∈ features → v = None ∨ ∃ d, v = Some (OfDouble d)) ∧
       (id_mapper self = None →
        node_ids_of self group index
        = (λ idx, group +:+ pretty idx) <$> index)) ∧
  (∀ tensor_data n,
     _tensor_cache self !! (group, name) = Some tensor_data →
     _get_tensor scalar_row (recording ask) self (session, log) group name
                 (Some (Z.of_nat <$> seq 0 n))
     = (if decide (n ≤ length tensor_data) then Ok (take n tensor_data)
        else Raise IndexError,
        (session, log))).
Proof.
  split.
  - intros Hmiss index.
    destruct (get_tensor_uncached self session log group name index Hmiss)
      as (features & session' & Hrun & Hlen & Hshape).
    exists features, session'. split; [done|]. split; [done|].
    split; [done|]. intros Hnone. unfold node_ids_of. by rewrite Hnone.
  - intros tensor_data n Hhit. unfold _get_tensor. rewrite Hhit.
    by rewrite getitem_arange.
Qed.

End RowsProperties.

(** ** The converter's registry *)

Section RegistryProperties.

Import NebulaToTorch.

Context {R : Type}.

(** The registry of the converter is kept by the code of the sampler's
    registry. *)
Lemma add_ids_as_sampler (node_ids : list string) : ∀ self : converter R,
  let r := add_ids self node_ids in
  let r' := get_vid_idx_seq (Sampler (id_to_idx self) (idx_to_id self) ∅ ∅)
                            node_ids in
  r.1 = r'.1 ∧ id_to_idx r.2 = _vid_to_idx_map r'.2 ∧
  idx_to_id r.2 = _idx_to_vid_map r'.2 ∧
  feature_cache r.2 = feature_cache self ∧ space_name r.2 = space_name self.
Proof.
  induction node_ids as [|node_id rest IH]; intros self; simpl; [done|].
  unfold _get_or_add_id, _get_vid_idx. simpl.
  destruct (id_to_idx self !! node_id) as [idx|].
  - specialize (IH self). simpl in IH.
    destruct (add_ids self rest) as [indices self1].
    destruct (get_vid_idx_seq _ rest) as [idxs s1]. simpl in *.
    destruct IH as (-> & -> & -> & -> & ->). done.
  - specialize (IH (Converter (<[node_id := length (idx_to_id self)]>
                                 (id_to_idx self))
                              (idx_to_id self ++ [node_id])
                              (feature_cache self) (space_name self))).
    simpl in IH.
    destruct (add_ids _ rest) as [indices self1].
    destruct (get_vid_idx_seq _ rest) as [idxs s1]. simpl in *.
    destruct IH as (-> & -> & -> & -> & ->). done.
Qed.

Lemma add_ids_length (node_ids : list string) : ∀ self : converter R,
  length (add_ids self node_ids).1 = length node_ids.
Proof.
  induction node_ids as [|node_id rest IH]; intros self; simpl; [done|].
  destruct (_get_or_add_id self node_id) as [idx self1].
  specialize (IH self1). destruct (add_ids self1 rest). simpl in *. lia.
Qed.

Lemma get_node_id_by_idx_lookup (self : converter R) (idx : nat)
    (node_id : string) :
  idx_to_id self !! idx = Some node_id →
  get_node_id_by_idx self (Z.of_nat idx) = node_id.
Proof.
  intros Hidx. unfold get_node_id_by_idx.
  pose proof (lookup_lt_Some _ _ _ Hidx).
  rewrite bool_decide_eq_true_2 by lia. by rewrite Nat2Z.id, Hidx.
Qed.

(** What registering a list of ids gives. *)
Lemma add_ids_spec (self : converter R) (node_ids : list string) :
  consistent self →
  let r := add_ids self node_ids in
  consistent r.2 ∧
  idx_to_id r.2
  = idx_to_id self
    ++ filter (λ v, v ∉ idx_to_id self) (distinct node_ids) ∧
  (λ idx, get_node_id_by_idx r.2 (Z.of_nat idx)) <$> r.1 = node_ids ∧
  (∀ node_id, node_id ∈ node_ids → is_Some (id_to_idx r.2 !! node_id)) ∧
  (∀ node_id idx, id_to_idx self !! node_id = Some idx →
                  id_to_idx r.2 !! node_id = Some idx) ∧
  feature_cache r.2 = feature_cache self ∧ space_name r.2 = space_name self.
Proof.
  intros Hok r.
  destruct (add_ids_as_sampler node_ids self)
    as (Hidx & Hmap & Hlist & Hcache & Hspace).
  destruct (get_vid_idx_seq_spec node_ids
              (Sampler (id_to_idx self) (idx_to_id self) ∅ ∅) Hok)
    as (Hok' & Hl & Hseq).
  fold r in Hidx, Hmap, Hlist, Hcache, Hspace.
  rewrite <- Hidx, <- Hlist in Hseq. rewrite <- Hlist in Hl. simpl in Hl.
  assert (consistent r.2) as Hcons.
  { intros node_id idx. rewrite Hmap, Hlist. apply Hok'. }
  split; [done|]. split; [done|]. split; [|split; [|split; [|done]]].
  - apply list_eq. intros j. rewrite list_lookup_fmap.
    destruct (node_ids !! j) as [node_id|] eqn:Hj.
    + destruct (Hseq j node_id Hj) as (idx & -> & Hback). simpl.
      f_equal. by apply get_node_id_by_idx_lookup.
    + apply lookup_ge_None in Hj.
      rewrite (lookup_ge_None_2 r.1); [done|].
      unfold r. by rewrite add_ids_length.
  - intros node_id [j Hj]%list_elem_of_lookup.
    destruct (Hseq j node_id Hj) as (idx & _ & Hback).
    exists idx. by apply Hcons.
  - intros node_id idx Hin. apply Hcons. rewrite Hl.
    apply lookup_app_l_Some. by apply Hok in Hin.
Qed.

(** X19: the id registry of the converter.  Registering a list of ids in
    a consistent registry leaves it consistent, appends the ids not yet
    known, once each and in order of first appearance, and returns indices
    that [get_node_id_by_idx] maps back to the given ids; the ids known
    before keep their indices, and an index outside the registry is named
    ["unknown"] followed by its decimal. *)
Theorem converter_registry (self : converter R) (node_ids : list string) :
  consistent self →
  let r := add_ids self node_ids in
  consistent r.2 ∧
  idx_to_id r.2
  = idx_to_id self
    ++ filter (λ v, v ∉ idx_to_id self) (distinct node_ids) ∧
  (λ idx, get_node_id_by_idx r.2 (Z.of_nat idx)) <$> r.1 = node_ids ∧
  (∀ idx, (0 ≤ idx < Z.of_nat (length (idx_to_id self)))%Z →
          get_node_id_by_idx r.2 idx = get_node_id_by_idx self idx) ∧
  (∀ idx, (idx < 0 ∨ Z.of_nat (length (idx_to_id r.2)) ≤ idx)%Z →
          get_node_id_by_idx r.2 idx = "unknown" +:+ pretty idx) ∧
  (∀ node_id, _get_or_add_id self node_id
              = ((add_ids self [node_id]).1 !!! 0, (add_ids self [node_id]).2)).
Proof.
  intros Hok r.
  destruct (add_ids_spec self node_ids Hok) as (Hcons & Hl & Hback & _).
  fold r in Hcons, Hl, Hback.
  split; [done|]. split; [done|]. split; [done|]. split; [|split].
  - intros idx Hidx. unfold get_node_id_by_idx.
    rewrite Hl, length_app, !bool_decide_eq_true_2 by lia.
    by rewrite lookup_app_l by lia.
  - intros idx Hidx. unfold get_node_id_by_idx.
    by rewrite bool_decide_eq_false_2 by lia.
  - intros node_id. simpl. by destruct (_get_or_add_id self node_id).
Qed.

End RegistryProperties.

(** ** Features through the converter *)

Section ConverterFeatures.

Import EntityEmbedding NebulaToTorch.

Context {R : Type} (scalar_row : option scalar → R).
Context {Session : Type}.
Context (ask : Session → statement → response * Session).

(** X20: [get_node_features] of a converter with a consistent registry
    and no cached tensor for the type looks up exactly the given ids, in
    order and with their repetitions, each by a [USE] and a [FETCH] of
    [embedding1] under the given type, and returns one entry per id; the
    detour through indices and [id_mapper] is not visible.  All the ids
    are registered afterwards. *)
Theorem get_node_features_lookup (self : converter R) session log
    (node_ids : list string) (node_type : string) :
  consistent self →
  feature_cache self !! (node_type, "embedding1") = None →
  ∃ features self' session',
    get_node_features scalar_row (recording ask) self (session, log)
                      node_ids node_type
    = (Ok (scalar_row <$> features), self',
       (session',
        log ++ concat (lookup_statements node_type "embedding1"
                         <$> node_ids))) ∧
    length features = length node_ids ∧
    consistent self' ∧
    ∀ node_id, node_id ∈ node_ids → is_Some (id_to_idx self' !! node_id).
Proof.
  intros Hok Hmiss. unfold get_node_features.
  destruct (add_ids_spec self node_ids Hok)
    as (Hcons & _ & Hback & Hreg & _ & Hcache & _).
  pose proof (add_ids_length node_ids self) as Hlen.
  destruct (add_ids self node_ids) as [indices self1]. simpl in *.
  destruct (get_tensor_uncached scalar_row ask (feature_store self1)
              session log node_type "embedding1" (Z.of_nat <$> indices))
    as (features & session' & -> & Hflen & _).
  { simpl. by rewrite Hcache. }
  exists features, self1, session'. split.
  { replace (NebulaFeatureStore.node_ids_of (feature_store self1) node_type
               (Z.of_nat <$> indices)) with node_ids; [done|].
    unfold NebulaFeatureStore.node_ids_of. simpl.
    by rewrite <- list_fmap_compose. }
  rewrite length_fmap in Hflen. split; [congruence|]. done.
Qed.

End ConverterFeatures.

(** ** The neighbor loader *)

Section LoaderProperties.

Import EntityEmbedding SimpleNeighborLoader.

Context {R : Type} (scalar_row vector_row : option scalar → R).
Context {Session : Type}.
Context (execute : Session → query → response * Session).
Context (ask : Session → statement → response * Session).

Lemma fill_rows_length node_features vids : ∀ idx rows rows',
  fill_rows vector_row node_features idx vids rows = Ok rows' →
  length rows' = length rows.
Proof.
  induction vids as [|vid rest IH]; intros idx rows rows'; simpl.
  - by intros [= <-].
  - destruct (node_features !! vid ≫= embedding); [|apply IH].
    case_decide; [|done]. intros ->%IH. by rewrite length_insert.
Qed.

Lemma fill_rows_total node_features vids : ∀ idx rows,
  idx + length vids ≤ length rows →
  ∃ rows', fill_rows vector_row node_features idx vids rows = Ok rows'.
Proof.
  induction vids as [|vid rest IH]; intros idx rows Hlen; simpl in *.
  - by eexists.
  - destruct (node_features !! vid ≫= embedding); [|apply IH; lia].
    rewrite decide_True by lia. apply IH. rewrite length_insert. lia.
Qed.

(** What [load_data] returns for a first seed. *)
Lemma load_data_Ok feature_store space_name node_type session center_vid rest
    node_indices num_hops data session' :
  load_data scalar_row vector_row execute ask feature_store space_name
            node_type session (center_vid :: rest) node_indices num_hops
  = Ok (data, session') →
  ∃ sg sampled features,
    sample_subgraph execute session center_vid num_hops space_name true 1000
    = Ok (sg, sampled) ∧
    NebulaFeatureStore._get_tensor scalar_row ask feature_store sampled
      node_type "embedding1" (Some (Z.of_nat <$> seq 0 (num_nodes sg)))
    = (features, session') ∧
    length (loaded_x data) = num_nodes sg ∧
    (∀ rows, features = Ok rows → length rows = num_nodes sg →
             loaded_x data = rows) ∧
    loaded_edge_index data = edge_index sg ∧
    loaded_num_nodes data = num_nodes sg ∧
    node_ids data = idx_to_vid sg.
Proof.
  unfold load_data. intros ([sg sampled] & Hsample & Hrun)%bind_Ok.
  destruct (NebulaFeatureStore._get_tensor _ _ _ _ _ _ _)
    as [features s1] eqn:Hget.
  apply bind_Ok in Hrun as (rows & Hrows & [= <- <-]).
  exists sg, sampled, features. split; [done|]. split; [done|]. simpl.
  split; [|split; [|done]].
  - destruct features as [fs|e].
    + case_decide; injection Hrows as <-; [done|apply length_replicate].
    + apply fill_rows_length in Hrows. by rewrite length_replicate in Hrows.
  - intros fs -> Hlen. rewrite decide_True in Hrows by done.
    by injection Hrows.
Qed.

(** X21: [load_data].  Without seeds it returns the empty object and
    sends nothing.  Otherwise only the first seed counts and
    [node_indices] is not read; the object returned has as many rows of
    [x] as [num_nodes], which is the number of its [node_ids], these are
    distinct, and every entry of its edge index is below [num_nodes].
    When the sampler's replies are well formed the call raises nothing,
    whatever the feature store does. *)
Theorem load_data_shape feature_store space_name node_type session
    seed_nodes node_indices num_hops :
  (∀ data session',
     load_data scalar_row vector_row execute ask feature_store space_name
               node_type session seed_nodes node_indices num_hops
     = Ok (data, session') →
     length (loaded_x data) = loaded_num_nodes data ∧
     length (node_ids data) = loaded_num_nodes data ∧
     NoDup (node_ids data) ∧
     ∀ i j, (i, j) ∈ loaded_edge_index data →
            i < loaded_num_nodes data ∧ j < loaded_num_nodes data) ∧
  load_data scalar_row vector_row execute ask feature_store space_name
            node_type session [] node_indices num_hops
  = Ok (Loaded [] [] 0 [], session) ∧
  (∀ center_vid rest,
     load_data scalar_row vector_row execute ask feature_store space_name
               node_type session (center_vid :: rest) node_indices num_hops
     = load_data scalar_row vector_row execute ask feature_store space_name
                 node_type session [center_vid] [] num_hops) ∧
  (well_formed_replies execute →
   ∃ data session',
     load_data scalar_row vector_row execute ask feature_store space_name
               node_type session seed_nodes node_indices num_hops
     = Ok (data, session')).
Proof.
  split; [|split; [done|split; [done|]]].
  - intros data session' Hrun.
    destruct seed_nodes as [|center_vid rest].
    { injection Hrun as <- <-. simpl. split; [done|]. split; [done|].
      split; [constructor|]. by intros i j ?%elem_of_nil. }
    apply load_data_Ok in Hrun
      as (sg & sampled & features & Hsample & _ & Hx & _ & -> & -> & ->).
    pose proof (sample_subgraph_in_range execute _ _ _ _ _ _ _ _ Hsample)
      as Hrange.
    apply sample_subgraph_indexed in Hsample as (_ & _ & _ & _ & Hnd & Hnum).
    split; [done|]. split; [done|]. split; [done|].
    intros i j Hin. unfold edges_in_range in Hrange.
    rewrite Forall_forall in Hrange. rewrite Hnum. by apply (Hrange (i, j)).
  - intros Hreplies. destruct seed_nodes as [|center_vid rest].
    { by eexists _, _. }
    unfold load_data.
    destruct (sample_subgraph_total execute session center_vid num_hops
                space_name true 1000 Hreplies) as (sg & sampled & Hsample).
    rewrite Hsample. simpl.
    apply sample_subgraph_indexed in Hsample as (_ & _ & _ & _ & _ & Hnum).
    destruct (NebulaFeatureStore._get_tensor _ _ _ _ _ _ _)
      as [[fs|e] s1].
    + case_decide; by eexists _, _.
    + destruct (fill_rows_total (node_features sg) (idx_to_vid sg) 0
                  (replicate (num_nodes sg) (vector_row None)))
        as [rows ->]; [rewrite length_replicate; lia|].
      by eexists _, _.
Qed.

End LoaderProperties.

(** ** Subgraphs through the converter *)

Section ConverterSubgraph.

Import EntityEmbedding NebulaToTorch.

Context {R : Type} (scalar_row vector_row : option scalar → R).
Context {Session : Type}.
Context (execute : Session * list statement → query
                   → response * (Session * list statement)).
Context (ask : Session → statement → response * Session).

(** X22: [get_subgraph] of a converter with a consistent registry and no
    cached ["embedding1"] of ["player"].  The subgraph is the one sampled
    around the first center.  After the sampling, the embedding of every
    position below [num_nodes] is looked up under the id that the registry
    holding the centers, not the subgraph, gives the position, ["unknown"]
    and the position past its end.  The result has [num_nodes] features
    and node ids.  Afterwards the registry is consistent, holds every
    center and every node id of the result, and the ids known before keep
    their indices.  Without centers nothing is sent. *)
Theorem get_subgraph_lookups (self : converter R) session
    (center_nodes : list string) (n_hops : Z) d self' session' :
  consistent self →
  feature_cache self !! ("player", "embedding1") = None →
  get_subgraph scalar_row vector_row execute (recording ask) self session
               center_nodes n_hops = Ok (d, self', session') →
  let self1 := (add_ids self center_nodes).2 in
  consistent self' ∧
  (∀ node_id, node_id ∈ center_nodes ∨ node_id ∈ dict_node_ids d →
              is_Some (id_to_idx self' !! node_id)) ∧
  (∀ node_id idx, id_to_idx self !! node_id = Some idx →
                  id_to_idx self' !! node_id = Some idx) ∧
  length (dict_features d) = dict_num_nodes d ∧
  length (dict_node_ids d) = dict_num_nodes d ∧
  (center_nodes = [] → session' = session ∧ dict_num_nodes d = 0) ∧
  (∀ center_vid rest, center_nodes = center_vid :: rest →
     ∃ sg sampled,
       sample_subgraph execute session center_vid n_hops (space_name self)
                       true 1000 = Ok (sg, sampled) ∧
       dict_node_ids d = idx_to_vid sg ∧
       dict_num_nodes d = num_nodes sg ∧
       session'.2
       = sampled.2
         ++ concat ((λ idx, lookup_statements "player" "embedding1"
                              (get_node_id_by_idx self1 (Z.of_nat idx)))
                      <$> seq 0 (num_nodes sg))).
Proof.
  intros Hok Hmiss Hrun self1. unfold get_subgraph in Hrun.
  destruct (add_ids_spec self center_nodes Hok)
    as (Hcons1 & _ & _ & Hreg1 & Hkeep1 & Hcache1 & Hspace1).
  fold self1 in Hcons1, Hreg1, Hkeep1, Hcache1, Hspace1.
  destruct (add_ids self center_nodes) as [indices self1'] eqn:Hadd.
  subst self1. simpl in *. rename self1' into self1.
  apply bind_Ok in Hrun as ([data loaded_session] & Hload & [= <- <- <-]).
  destruct (add_ids_spec self1 (SimpleNeighborLoader.node_ids data) Hcons1)
    as (Hcons2 & _ & _ & Hreg2 & Hkeep2 & _).
  simpl.
  split; [done|]. split.
  { intros node_id [Hin|Hin]; [|by apply Hreg2].
    destruct (Hreg1 node_id Hin) as [idx Hidx]. exists idx. by apply Hkeep2. }
  split; [intros node_id idx Hin; by apply Hkeep2, Hkeep1|].
  destruct center_nodes as [|center_vid rest].
  { injection Hload as <- <-. simpl. split; [done|]. split; [done|].
    split; [done|]. by intros ? ?. }
  apply load_data_Ok in Hload
    as (sg & [sampled log] & features & Hsample & Hget & Hx & _ & _ & Hnum
        & Hnode_ids).
  rewrite Hspace1 in Hsample.
  pose proof (sample_subgraph_indexed execute _ _ _ _ _ _ _ _ Hsample)
    as (_ & _ & _ & _ & _ & Hlen).
  split; [congruence|]. split; [congruence|]. split; [done|].
  intros ? ? [= <- <-].
  exists sg, (sampled, log). split; [done|]. split; [done|]. split; [done|].
  destruct (get_tensor_uncached scalar_row ask (feature_store self1)
              sampled log "player" "embedding1"
              (Z.of_nat <$> seq 0 (num_nodes sg)))
    as (fs & s' & Hget' & _); [simpl; by rewrite Hcache1|].
  rewrite Hget in Hget'. injection Hget' as _ ->. simpl.
  f_equal. f_equal. unfold NebulaFeatureStore.node_ids_of. simpl.
  by rewrite <- !list_fmap_compose.
Qed.

End ConverterSubgraph.

(** ** The converter and the stores on the mock services *)

(** The embedding of [player0]. *)
Lemma entity_embedding_lookup_witness :
  (EntityEmbedding.get_entity_embedding (recording MockEmbedding.ask) ((), [])
     "player0" "player" "embedding1").2.2
  = [EntityEmbedding.UseSpace "basketballplayer";
     EntityEmbedding.FetchField "player" "player0" "embedding1"] ∧
  (EntityEmbedding.get_entity_embedding MockEmbedding.ask ()
     "player0" "player" "embedding1").1 = Some 7%Z.
Proof.
  destruct (entity_embedding_lookup MockEmbedding.ask () [] "player0" "player"
              "embedding1") as [Hlog Hvalue].
  split; [exact Hlog|]. apply Hvalue. simpl. split; [done|]. by eexists _, _.
Defined.

(** A store with nothing cached and no mapper: the positions [0] and [1]
    of the group ["player"] are looked up as [player0] and [player1]. *)
Lemma indexed_tensor_lookup_witness :
  let self := NebulaFeatureStore.Store (R:=option scalar) ∅ None in
  ∃ features session',
    NebulaFeatureStore._get_tensor id (recording MockEmbedding.ask) self
      ((), []) "player" "embedding1" (Some [0%Z; 1%Z])
    = (Ok (id <$> features),
       (session',
        [] ++ concat (lookup_statements "player" "embedding1"
                        <$> NebulaFeatureStore.node_ids_of self "player"
                              [0%Z; 1%Z]))) ∧
    length features = 2 ∧
    NebulaFeatureStore.node_ids_of self "player" [0%Z; 1%Z]
    = ["player0"; "player1"].
Proof.
  intros self.
  destruct (proj1 (indexed_tensor_lookup id MockEmbedding.ask self () []
                     "player" "embedding1") eq_refl [0%Z; 1%Z])
    as (features & session' & Hrun & Hlen & _ & Hids).
  exists features, session'. split; [exact Hrun|]. split; [exact Hlen|].
  rewrite (Hids eq_refl). by vm_compute.
Defined.

Lemma init_consistent (space_name : string) :
  NebulaToTorch.consistent (NebulaToTorch.init (R:=option scalar) space_name).
Proof. intros node_id idx. simpl. by rewrite lookup_empty, lookup_nil. Qed.

(** Registering [a; b; a] in a fresh converter. *)
Lemma converter_registry_witness :
  let self := NebulaToTorch.init (R:=option scalar) "basketballplayer" in
  let r := NebulaToTorch.add_ids self ["a"; "b"; "a"] in
  NebulaToTorch.consistent self ∧
  NebulaToTorch.consistent r.2 ∧
  NebulaToTorch.idx_to_id r.2 = ["a"; "b"] ∧
  (λ idx, NebulaToTorch.get_node_id_by_idx r.2 (Z.of_nat idx)) <$> r.1
  = ["a"; "b"; "a"] ∧
  NebulaToTorch.get_node_id_by_idx r.2 5 = "unknown5".
Proof.
  intros self r.
  pose proof (init_consistent "basketballplayer") as Hok.
  destruct (converter_registry self ["a"; "b"; "a"] Hok)
    as (Hcons & Hl & Hback & _ & Hout & _).
  split; [exact Hok|]. split; [exact Hcons|]. split; [by vm_compute|].
  split; [exact Hback|].
  etrans; [apply Hout; right; by vm_compute|]. by vm_compute.
Defined.

(** The features of a player, a team and the player again, through a
    fresh converter. *)
Lemma get_node_features_lookup_witness :
  let self := NebulaToTorch.init (R:=option scalar) "basketballplayer" in
  NebulaToTorch.consistent self ∧
  ∃ features self' session',
    NebulaToTorch.get_node_features id (recording MockEmbedding.ask) self
      ((), []) ["player0"; "team0"; "player0"] "player"
    = (Ok (id <$> features), self',
       (session',
        [] ++ concat (lookup_statements "player" "embedding1"
                        <$> ["player0"; "team0"; "player0"]))) ∧
    length features = 3.
Proof.
  intros self.
  pose proof (init_consistent "basketballplayer") as Hok.
  split; [exact Hok|].
  destruct (get_node_features_lookup id MockEmbedding.ask self () []
              ["player0"; "team0"; "player0"] "player" Hok eq_refl)
    as (features & self' & session' & Hrun & Hlen & _).
  by exists features, self', session'.
Defined.

(** Loading around [player0] over the single edge. *)
Lemma load_data_shape_witness :
  ∃ data session',
    SimpleNeighborLoader.load_data id id (Mock.execute Mock.one_edge)
      MockEmbedding.ask (NebulaFeatureStore.Store ∅ None) "basketballplayer"
      "player" () ["player0"; "player1"] [0; 1] 1 = Ok (data, session') ∧
    SimpleNeighborLoader.node_ids data = ["player0"; "player1"] ∧
    length (SimpleNeighborLoader.loaded_x data)
    = SimpleNeighborLoader.loaded_num_nodes data ∧
    length (SimpleNeighborLoader.node_ids data)
    = SimpleNeighborLoader.loaded_num_nodes data.
Proof.
  destruct (SimpleNeighborLoader.load_data id id (Mock.execute Mock.one_edge)
              MockEmbedding.ask (NebulaFeatureStore.Store ∅ None)
              "basketballplayer" "player" () ["player0"; "player1"] [0; 1] 1)
    as [[data session']|e] eqn:E; [|vm_compute in E; discriminate E].
  destruct (proj1 (load_data_shape id id (Mock.execute Mock.one_edge)
                     MockEmbedding.ask (NebulaFeatureStore.Store ∅ None)
                     "basketballplayer" "player" ()
                     ["player0"; "player1"] [0; 1] 1) _ _ E)
    as (Hx & Hids & _).
  exists data, session'. split; [reflexivity|]. split; [|by split].
  clear Hx Hids. vm_compute in E. by injection E as <- <-.
Defined.

(** The subgraph around [player0] through a fresh converter: the second
    vertex is looked up as [unknown1]. *)
Lemma get_subgraph_lookups_witness :
  let self := NebulaToTorch.init (R:=option scalar) "basketballplayer" in
  NebulaToTorch.consistent self ∧
  ∃ d self' session',
    NebulaToTorch.get_subgraph id id (passing (Mock.execute Mock.one_edge))
      (recording MockEmbedding.ask) self ((), []) ["player0"] 1
    = Ok (d, self', session') ∧
    NebulaToTorch.consistent self' ∧
    NebulaToTorch.dict_node_ids d = ["player0"; "player1"] ∧
    (∀ node_id, node_id ∈ NebulaToTorch.dict_node_ids d →
                is_Some (NebulaToTorch.id_to_idx self' !! node_id)) ∧
    session'.2
    = lookup_statements "player" "embedding1" "player0"
      ++ lookup_statements "player" "embedding1" "unknown1".
Proof.
  intros self.
  pose proof (init_consistent "basketballplayer") as Hok.
  split; [exact Hok|].
  destruct (NebulaToTorch.get_subgraph id id
              (passing (Mock.execute Mock.one_edge))
              (recording MockEmbedding.ask) self ((), []) ["player0"] 1)
    as [[[d self'] session']|e] eqn:E; [|vm_compute in E; discriminate E].
  destruct (get_subgraph_lookups id id (passing (Mock.execute Mock.one_edge))
              MockEmbedding.ask self ((), []) ["player0"] 1 d self' session'
              Hok eq_refl E) as (Hcons & Hreg & _).
  exists d, self', session'. split; [reflexivity|]. split; [exact Hcons|].
  split; [|split; [intros node_id Hin; apply Hreg; by right|]];
    clear Hcons Hreg; vm_compute in E; by injection E as <- <- <-.
Defined.

(** ** Sampling without hops, and what the callers make of it *)

Section NoHops.

Context {Session : Type} (execute : Session → query → response * Session).

(** Without a hop the retrieval finds no edge. *)
Lemma get_subgraph_data_no_hops session center_vid n_hops max_nodes g :
  (n_hops ≤ 0)%Z →
  get_subgraph_data execute session center_vid n_hops max_nodes = Ok g →
  g_edges g = [].
Proof.
  intros Hhops. unfold get_subgraph_data.
  rewrite bool_decide_eq_true_2 by lia. unfold _get_subgraph_using_go.
  destruct (execute _ _) as [resp session1].
  intros (self & _ & Hg)%bind_Ok.
  unfold seqZ in Hg. replace (Z.to_nat n_hops) with 0 in Hg by lia.
  simpl in Hg. by injection Hg as <-.
Qed.

(** A sample without discovered edges is empty. *)
Lemma sample_subgraph_no_edges session center_vid n_hops space_name b
    max_nodes sg session' g :
  sample_subgraph execute session center_vid n_hops space_name b max_nodes
  = Ok (sg, session') →
  get_subgraph_data execute (execute session (Use space_name)).2
                    center_vid n_hops max_nodes = Ok g →
  g_edges g = [] →
  num_nodes sg = 0 ∧ idx_to_vid sg = [] ∧ vid_to_idx sg = ∅ ∧
  edge_index sg = [] ∧ center_node_idx sg = 0.
Proof.
  intros Hsample Hg Hnil.
  pose proof (sample_subgraph_Ok execute _ _ _ _ _ _ _ _ Hsample)
    as (g' & Hg' & _ & Hei & Hvm & _ & _ & Hc & _).
  destruct (sample_subgraph_indexed execute _ _ _ _ _ _ _ _ Hsample)
    as (g'' & Hg'' & Hmap & Hlist & _ & Hnum).
  rewrite Hg in Hg', Hg''. injection Hg' as <-. injection Hg'' as <-.
  assert (idx_to_vid sg = []) as Hl.
  { destruct (idx_to_vid sg) as [|v l] eqn:E; [done|].
    destruct (proj1 (Hlist v)) as (e & He & _); [by left|].
    rewrite Hnil in He. by apply elem_of_nil in He. }
  assert (vid_to_idx sg = ∅) as Hm.
  { apply map_empty. intros v. apply eq_None_not_Some.
    intros (e & He & _)%Hmap. rewrite Hnil in He. by apply elem_of_nil in He. }
  split; [by rewrite Hnum, Hl|]. split; [done|]. split; [done|].
  split; [by rewrite Hei, Hnil|].
  by rewrite Hc, <- Hvm, Hm, lookup_empty.
Qed.

(** X23: a search without hops finds nothing.  For [n_hops <= 0] every
    subgraph returned by [sample_subgraph] is empty, whatever the adapter
    replies, and no path is found in it.  Consequently
    [find_multihop_relationships] with [max_hops <= 0] reports
    ['no_connection'] with no path for every two entities, equal ones
    included, and it reports ['bridge_nodes'] only for [max_hops >= 2]. *)
Theorem no_hops_no_connection :
  (∀ session center_vid n_hops space_name use_bidirectional max_nodes sg
     session',
     (n_hops ≤ 0)%Z →
     sample_subgraph execute session center_vid n_hops space_name
                     use_bidirectional max_nodes = Ok (sg, session') →
     num_nodes sg = 0 ∧ idx_to_vid sg = [] ∧ vid_to_idx sg = ∅ ∧
     edge_index sg = [] ∧
     ∀ start_entity end_entity max_hops,
       find_paths_bfs sg start_entity end_entity max_hops = Ok []) ∧
  (∀ session entity_a entity_b max_hops d session',
     find_multihop_relationships execute session entity_a entity_b max_hops
     = Ok (d, session') →
     ((max_hops ≤ 0)%Z →
      found d = false ∧ method d = "no_connection" ∧ paths d = []) ∧
     (method d = "bridge_nodes" → (2 ≤ max_hops)%Z)).
Proof.
  assert (∀ session center_vid n_hops space_name b max_nodes sg session',
            (n_hops ≤ 0)%Z →
            sample_subgraph execute session center_vid n_hops space_name
                            b max_nodes = Ok (sg, session') →
            num_nodes sg = 0 ∧ idx_to_vid sg = [] ∧ vid_to_idx sg = ∅ ∧
            edge_index sg = []) as Hempty.
  { intros session center_vid n_hops space_name b max_nodes sg session'
           Hhops Hsample.
    pose proof (sample_subgraph_Ok execute _ _ _ _ _ _ _ _ Hsample)
      as (g & Hg & _).
    pose proof (get_subgraph_data_no_hops _ _ _ _ _ Hhops Hg) as Hnil.
    by destruct (sample_subgraph_no_edges _ _ _ _ _ _ _ _ _ Hsample Hg Hnil)
      as (? & ? & ? & ? & _). }
  split.
  - intros session center_vid n_hops space_name b max_nodes sg session'
           Hhops Hsample.
    destruct (Hempty _ _ _ _ _ _ _ _ Hhops Hsample) as (Hn & Hl & Hm & He).
    split; [done|]. split; [done|]. split; [done|]. split; [done|].
    intros start_entity end_entity max_hops. unfold find_paths_bfs.
    by rewrite Hm, lookup_empty.
  - intros session entity_a entity_b max_hops d session' Hrun.
    unfold find_multihop_relationships in Hrun.
    apply bind_Ok in Hrun as ([subgraph_a session1] & Ha & Hrun).
    case_bool_decide as Hb.
    + apply bind_Ok in Hrun as (ps & Hps & [= <- <-]). simpl.
      split; [|done]. intros Hhops.
      destruct (Hempty _ _ _ _ _ _ _ _ Hhops Ha) as (_ & _ & Hm & _).
      rewrite Hm, dom_empty_L in Hb. by apply elem_of_empty in Hb.
    + apply bind_Ok in Hrun as ([subgraph_b session2] & Hsb & Hrun).
      case_bool_decide as Hne.
      * apply bind_Ok in Hrun as (bridge_paths & _ & [= <- <-]). simpl.
        assert (2 ≤ max_hops)%Z as Hhops.
        { destruct (decide (2 ≤ max_hops)%Z) as [|Hlt]; [done|].
          assert (max_hops `div` 2 ≤ 0)%Z as Hhalf
            by (apply Z.lt_succ_r; apply Z.div_lt_upper_bound; lia).
          destruct (Hempty _ _ _ _ _ _ _ _ Hhalf Hsb) as (_ & _ & Hm & _).
          rewrite Hm, dom_empty_L in Hne. exfalso. apply Hne. set_solver. }
        split; [lia|done].
      * injection Hrun as <- <-. simpl. done.
Qed.

End NoHops.

(** ** The agent's graph adapter *)

Section AdapterProperties.

Import GraphAdapter.

Context {Session : Type} (execute : Session → query → response * Session).

(** The hop-wise retrieval gathers at most two vertices past
    [max_nodes - 1]. *)
Lemma hopwise_nodes_bound session center_vid n_hops max_nodes g :
  (n_hops ≤ 2)%Z →
  get_subgraph_data execute session center_vid n_hops max_nodes = Ok g →
  ends_in_nodes g ∧
  (Z.of_nat (size (g_nodes g)) ≤ Z.max 1 (max_nodes - 1) + 2)%Z.
Proof.
  intros Hhops Hg. unfold get_subgraph_data in Hg.
  rewrite bool_decide_eq_true_2 in Hg by done.
  unfold _get_subgraph_using_go in Hg.
  destruct (execute _ _) as [resp session1].
  apply bind_Ok in Hg as (self & _ & Hg).
  apply go_hops_bound in Hg; [done| |].
  - intros e He. by apply elem_of_nil in He.
  - unfold may_read. cbn [g_nodes]. rewrite size_singleton. lia.
Qed.

(** X24: the summary of [fetch_subgraph_summary].  The edge count it
    reports is twice the number of edges found by the one-hop retrieval,
    each edge being indexed in both directions; the node count is the
    number of distinct ends of these edges, so it is [0] for a vertex
    without edges, at most twice the number of edges, and at most [129]
    for the budget of [128]. *)
Theorem subgraph_summary_counts session vid answer sources meta session' :
  fetch_subgraph_summary execute session vid
  = Ok (answer, sources, meta, session') →
  ∃ g nodes,
    get_subgraph_data execute
      (execute session (Use "basketballplayer")).2 vid 1 128 = Ok g ∧
    answer = summary_text vid nodes (2 * length (g_edges g)) ∧
    sources = [Source vid "graph_subgraph"
                      ("nodes=" +:+ pretty nodes +:+ ", edges="
                       +:+ pretty (2 * length (g_edges g)))] ∧
    meta = vid ∧
    nodes ≤ 2 * length (g_edges g) ∧ nodes ≤ 129 ∧
    ∃ ends, NoDup ends ∧ length ends = nodes ∧
            ∀ v, v ∈ ends ↔ ∃ e, e ∈ g_edges g ∧ endpoint v e.
Proof.
  unfold fetch_subgraph_summary.
  intros ([sg s1] & Hsample & [= <- <- <- <-])%bind_Ok.
  destruct (sample_subgraph_indexed execute _ _ _ _ _ _ _ _ Hsample)
    as (g & Hg & _ & Hin & Hnd & Hnum).
  pose proof (sample_subgraph_Ok execute _ _ _ _ _ _ _ _ Hsample)
    as (g' & Hg' & Hreg & Hei & _).
  rewrite Hg in Hg'. injection Hg' as <-.
  destruct (create_edge_index_sound (g_self g) (g_edges g) true)
    as (Hcols & _); [by apply registry_ok_of|].
  rewrite <- Hei in Hcols. simpl in Hcols.
  exists g, (length (idx_to_vid sg)).
  split; [done|]. rewrite Hcols.
  replace (length (g_edges g) + (length (g_edges g) + 0))
    with (2 * length (g_edges g)) by lia.
  split; [done|]. split; [done|]. split; [done|].
  split; [|split].
  - assert (idx_to_vid sg ⊆ g_edges g ≫= (λ e, [e.1.1; e.1.2])) as Hsub.
    { intros v (e & He & Hend)%Hin. apply list_elem_of_bind.
      exists e. split; [|done]. destruct Hend as [-> | ->]; set_solver. }
    apply NoDup_submseteq in Hsub; [|done].
    apply submseteq_length in Hsub. etrans; [exact Hsub|].
    clear. induction (g_edges g) as [|e l IH]; [done|].
    change (length ([e.1.1; e.1.2] ++ (l ≫= λ e, [e.1.1; e.1.2]))
            ≤ 2 * length (e :: l)).
    rewrite length_app. simpl in *. lia.
  - pose proof (hopwise_nodes_bound _ _ _ _ _ (ltac:(lia) : (1 ≤ 2)%Z) Hg)
      as [Hends Hsize].
    assert (length (idx_to_vid sg) ≤ size (g_nodes g)); [|lia].
    apply length_le_size; [done|].
    intros v Hv. apply Hin in Hv as (e & He & [->| ->]); by apply Hends.
  - exists (idx_to_vid sg). done.
Qed.

End AdapterProperties.

(** The failing adapter, a search without hops on the eight-vertex graph,
    and a search of one hop between two teammates. *)
Lemma no_hops_no_connection_witness :
  (∃ sg session',
     sample_subgraph (Mock.execute Mock.eight_edges) () "player0" 0
                     "basketballplayer" true 500 = Ok (sg, session') ∧
     num_nodes sg = 0 ∧
     find_paths_bfs sg "player0" "player0" 3 = Ok []) ∧
  (∃ d session',
     find_multihop_relationships (Mock.execute Mock.eight_edges) ()
       "player0" "player0" 0 = Ok (d, session') ∧
     found d = false ∧ method d = "no_connection" ∧ paths d = []).
Proof.
  destruct (no_hops_no_connection (Mock.execute Mock.eight_edges))
    as [Hsample Hfind].
  split.
  - destruct (sample_subgraph (Mock.execute Mock.eight_edges) () "player0" 0
                "basketballplayer" true 500) as [[sg session']|e] eqn:E;
      [|vm_compute in E; discriminate E].
    destruct (Hsample _ _ _ _ _ _ _ _ (ltac:(lia) : (0 ≤ 0)%Z) E)
      as (Hn & _ & _ & _ & Hpaths).
    exists sg, session'. split; [reflexivity|]. split; [exact Hn|].
    apply Hpaths.
  - destruct (find_multihop_relationships (Mock.execute Mock.eight_edges) ()
                "player0" "player0" 0) as [[d session']|e] eqn:E;
      [|vm_compute in E; discriminate E].
    destruct (Hfind _ _ _ _ _ _ E) as [Hnone _].
    exists d, session'. split; [reflexivity|]. apply Hnone. lia.
Defined.

(** The summary for [player0] on the eight-vertex graph: two edges leave
    it, which gives three vertices and four columns. *)
Lemma subgraph_summary_counts_witness :
  ∃ answer sources meta session',
    GraphAdapter.fetch_subgraph_summary (Mock.execute Mock.eight_edges) ()
      "player0" = Ok (answer, sources, meta, session') ∧
    answer = "Fetched 1-hop subgraph for player0 with 3 nodes and 4 edges." ∧
    ∃ g nodes,
      get_subgraph_data (Mock.execute Mock.eight_edges) () "player0" 1 128
      = Ok g ∧
      answer = summary_text "player0" nodes (2 * length (g_edges g)) ∧
      nodes ≤ 2 * length (g_edges g) ∧ nodes ≤ 129.
Proof.
  destruct (GraphAdapter.fetch_subgraph_summary
              (Mock.execute Mock.eight_edges) () "player0")
    as [[[[answer sources] meta] session']|e] eqn:E;
    [|vm_compute in E; discriminate E].
  destruct (subgraph_summary_counts _ _ _ _ _ _ _ E)
    as (g & nodes & Hg & Hanswer & _ & _ & Hle & Hbudget & _).
  exists answer, sources, meta, session'. split; [reflexivity|]. split.
  { clear Hg Hanswer Hle Hbudget. vm_compute in E. by injection E as <- <- <- <-. }
  exists g, nodes. split; [exact Hg|]. split; [exact Hanswer|].
  split; [exact Hle|exact Hbudget].
Defined.
